(** * The bytematcher orchestrator: [Matcher.identify]

    A shallow embedding of the per-file scan of package [bytematcher]
    ([func (b *Matcher) identify(buf, quit, r)]) as a state machine driven
    by its environment.  The four producers, the consumer that may signal
    on [gate], and whoever closes [quit] are the environment: every blocking
    point of the Go function (a [select]) is resolved by one [input], and
    everything the function does to the outside world is logged as an
    [event] on the state's trace. *)

From Stdlib Require Import ZArith List Bool Lia.
From Stdlib Require String Ascii.
Import ListNotations.
Open Scope Z_scope.
Set Implicit Arguments.

(** ** External packages, as far as [identify] touches them *)

Module wac.

(** [wac.Result], read by [identify] through [Index[0]], [Index[1]],
    [Offset], [Length] and [Final].  [Index] is a [[2]int]. *)
Record Result := mkResult
  { Index : Z * Z; Offset : Z; Length : Z; Final : bool }.

(** [*wac.Wac]: the compiled engine.  All the orchestrator knows about it
    is which pattern set it was compiled from by [wac.New]. *)
Inductive Wac (Seq : Type) := New (seqs : list Seq).
Arguments New {Seq} seqs.

End wac.

(** The element type of the channels returned by [frameSet.Index]; its
    declaration is outside the given sources, [identify] reads it through
    [Idx], [Off] and [Length]. *)
Module frames.
Record Result := mkResult { Idx : Z; Off : Z; Length : Z }.
End frames.

(** Modelled from the spec: the [strike] struct is declared outside the
    given sources; [identify] builds it by a positional literal of seven
    fields, named here as in the data model of the specification. *)
Record strike := mkStrike
  { nodeRef : Z; subKey : Z; offset : Z; length : Z;
    reverse : bool; frame : bool; final : bool }.

(** Modelled from the spec: the readers a [siegreader.Buffer] hands out.
    A reader is identified by the constructor call that made it. *)
Inductive Reader :=
| LimitReader (n : Z)          (* buf.NewLimitReader(n) *)
| FullReader                   (* buf.NewReader() *)
| LimitReverseReader (n : Z)   (* buf.NewLimitReverseReader(n) *)
| ReverseReader.               (* buf.NewReverseReader() *)

(** Modelled from the spec: the buffer is external.  The forward
    constructors return a reader; the two reverse constructors return
    [(reader, err)], a reader exactly when [err == nil]. *)
Record Buffer := mkBuffer
  { limit_reverse_fails : Z -> bool; reverse_fails : bool }.

Definition NewLimitReader (_ : Buffer) (n : Z) : Reader := LimitReader n.
Definition NewReader (_ : Buffer) : Reader := FullReader.
Definition NewLimitReverseReader (buf : Buffer) (n : Z) : option Reader :=
  if limit_reverse_fails buf n then None else Some (LimitReverseReader n).
Definition NewReverseReader (buf : Buffer) : option Reader :=
  if reverse_fails buf then None else Some ReverseReader.

(** A Go slice indexed by an [int]: out of range (negative included) is a
    run-time panic, here [None]. *)
Definition index (tbl : list Z) (i : Z) : option Z :=
  if i <? 0 then None else nth_error tbl (Z.to_nat i).

Definition isSome {A : Type} (o : option A) : bool :=
  match o with Some _ => true | None => false end.

(** What the scan logs.  [EvSend] carries the loop that sent the strike. *)
Inductive phase := SEQ_ONLY | MERGE.

(** Why [identify] returned: line 58, line 86, line 128. *)
Inductive exit := ExitQuit | ExitErr | ExitDone.

Inductive pc :=
| InSeqOnly            (* blocked in the select of lines 51-69 *)
| InMerge              (* blocked in the select of lines 98-125 *)
| Returned (x : exit)
| Panicked.            (* index out of range, or nil engine *)

(** A channel variable of [identify]: [nil], or a channel that has not
    been seen closed, or one that has (only [bchan] is ever kept in that
    state: after [break Loop] at line 61). *)
Inductive chan := nil_chan | open_chan | closed_chan.

(** [v, ok := <-c] can deliver a value only from a channel not yet closed,
    and [!ok] from any non-nil channel; a nil channel never delivers. *)
Definition can_recv {A : Type} (c : chan) (v : option A) : bool :=
  match c, v with
  | open_chan, _ => true
  | closed_chan, None => true
  | _, _ => false
  end.

Section Bytematcher.

(** [wac.Seq], the element type of the pattern sets. *)
Variable Seq : Type.

(** The Matcher and its pattern sets are declared outside the given
    sources; the fields are those [identify] reads and writes.  [Set']
    stands for the Go field [Set], and [fTestTreeIndex] for the field
    [TestTreeIndex] of a frame set. *)

Record seqSet := mkSeqSet { Set' : list Seq; TestTreeIndex : list Z }.
Record frameSet := mkFrameSet { fTestTreeIndex : list Z }.

Record Matcher := mkMatcher
  { BOFSeq : seqSet; EOFSeq : seqSet;
    BOFFrames : frameSet; EOFFrames : frameSet;
    MaxBOF : Z; MaxEOF : Z;
    bAho : option (wac.Wac Seq); eAho : option (wac.Wac Seq);
    bstarted : bool; estarted : bool }.

Definition set_bAho (m : Matcher) (a : option (wac.Wac Seq)) : Matcher :=
  mkMatcher (BOFSeq m) (EOFSeq m) (BOFFrames m) (EOFFrames m)
            (MaxBOF m) (MaxEOF m) a (eAho m) (bstarted m) (estarted m).
Definition set_eAho (m : Matcher) (a : option (wac.Wac Seq)) : Matcher :=
  mkMatcher (BOFSeq m) (EOFSeq m) (BOFFrames m) (EOFFrames m)
            (MaxBOF m) (MaxEOF m) (bAho m) a (bstarted m) (estarted m).
Definition set_bstarted (m : Matcher) (v : bool) : Matcher :=
  mkMatcher (BOFSeq m) (EOFSeq m) (BOFFrames m) (EOFFrames m)
            (MaxBOF m) (MaxEOF m) (bAho m) (eAho m) v (estarted m).
Definition set_estarted (m : Matcher) (v : bool) : Matcher :=
  mkMatcher (BOFSeq m) (EOFSeq m) (BOFFrames m) (EOFFrames m)
            (MaxBOF m) (MaxEOF m) (bAho m) (eAho m) (bstarted m) v.

Inductive event :=
| EvSetQuit                                        (* line 28 *)
| EvNewMatcher                                     (* line 31 *)
| EvBuild (rev : bool) (a : wac.Wac Seq)           (* lines 42, 90 *)
| EvIndex (rev : bool) (a : wac.Wac Seq) (r : Reader)   (* lines 47, 95 *)
| EvFrames (rev : bool)                            (* lines 74, 75 *)
| EvReverseErr                                     (* err != nil, line 84 *)
| EvRecvSeq (rev : bool) (r : option wac.Result)   (* <-bchan, <-echan *)
| EvRecvFrame (rev : bool) (r : option frames.Result) (* <-bfchan, <-efchan *)
| EvGate                                           (* <-gate *)
| EvSend (ph : phase) (s : strike)                 (* incoming <- strike{..} *)
| EvClose.                                         (* close(incoming) *)

(** What a [select] of [identify] can be handed by its environment; the
    [option] is Go's [v, ok]: [None] is a receive from a closed channel.
    [QuitClosed] is the environment closing [quit]; it is not a step of
    [identify] but changes what the poll of line 55 will see. *)
Inductive input :=
| FromB (br : option wac.Result)
| FromBF (bf : option frames.Result)
| FromEF (ef : option frames.Result)
| FromE (er : option wac.Result)
| FromGate
| QuitClosed.

Record state := mkState
  { b : Matcher; buf : Buffer; quit : bool; at_pc : pc;
    bchan : chan; bfchan : chan; efchan : chan; echan : chan;
    trace : list event }.

Definition emit (st : state) (evs : list event) : state :=
  mkState (b st) (buf st) (quit st) (at_pc st)
          (bchan st) (bfchan st) (efchan st) (echan st) (trace st ++ evs).
Definition goto (st : state) (p : pc) : state :=
  mkState (b st) (buf st) (quit st) p
          (bchan st) (bfchan st) (efchan st) (echan st) (trace st).
Definition with_b (st : state) (m : Matcher) : state :=
  mkState m (buf st) (quit st) (at_pc st)
          (bchan st) (bfchan st) (efchan st) (echan st) (trace st).
Definition with_quit (st : state) (q : bool) : state :=
  mkState (b st) (buf st) q (at_pc st)
          (bchan st) (bfchan st) (efchan st) (echan st) (trace st).
Definition with_bchan (st : state) (c : chan) : state :=
  mkState (b st) (buf st) (quit st) (at_pc st)
          c (bfchan st) (efchan st) (echan st) (trace st).
Definition with_bfchan (st : state) (c : chan) : state :=
  mkState (b st) (buf st) (quit st) (at_pc st)
          (bchan st) c (efchan st) (echan st) (trace st).
Definition with_efchan (st : state) (c : chan) : state :=
  mkState (b st) (buf st) (quit st) (at_pc st)
          (bchan st) (bfchan st) c (echan st) (trace st).
Definition with_echan (st : state) (c : chan) : state :=
  mkState (b st) (buf st) (quit st) (at_pc st)
          (bchan st) (bfchan st) (efchan st) c (trace st).

(** [close(incoming); return] *)
Definition close_return (st : state) (x : exit) : state :=
  goto (emit st [EvClose]) (Returned x).

(** Lines 34-39: the forward reader, by the sign of [MaxBOF]. *)
Definition forward_reader (m : Matcher) (bf : Buffer) : option Reader :=
  if 0 <? MaxBOF m then Some (NewLimitReader bf (MaxBOF m))
  else if MaxBOF m <? 0 then Some (NewReader bf)
  else None.

(** Lines 79-83: the reverse reader and [err], by the sign of [MaxEOF].
    [inr tt] is [err != nil]; [inl None] is the untouched [nil] reader. *)
Definition reverse_reader (m : Matcher) (bf : Buffer)
  : option Reader + unit :=
  if 0 <? MaxEOF m then
    match NewLimitReverseReader bf (MaxEOF m) with
    | Some r => inl (Some r) | None => inr tt end
  else if MaxEOF m <? 0 then
    match NewReverseReader bf with
    | Some r => inl (Some r) | None => inr tt end
  else inl None.

(** Lines 41-44: start the BOF engine if not yet started. *)
Definition start_bof (m : Matcher) (rdr : option Reader)
  : Matcher * list event :=
  if isSome rdr && negb (bstarted m) then
    let a := wac.New (Set' (BOFSeq m)) in
    (set_bstarted (set_bAho m (Some a)) true, [EvBuild false a])
  else (m, []).

(** Lines 89-92: start the EOF engine if not yet started. *)
Definition start_eof (m : Matcher) (rrdr : option Reader)
  : Matcher * list event :=
  if isSome rrdr && negb (estarted m) then
    let a := wac.New (Set' (EOFSeq m)) in
    (set_estarted (set_eAho m (Some a)) true, [EvBuild true a])
  else (m, []).

(** Lines 74-96: from the end of the first loop to the second. *)
Definition proceed (st : state) : state :=
  (* 74, 75 *)
  let st := with_bfchan (emit st [EvFrames false]) open_chan in
  let st := with_efchan (emit st [EvFrames true]) open_chan in
  (* 77-83 *)
  match reverse_reader (b st) (buf st) with
  | inr _ =>
      (* 84-87 *)
      close_return (emit st [EvReverseErr]) ExitErr
  | inl rrdr =>
      (* 89-92 *)
      let (m, evs) := start_eof (b st) rrdr in
      let st := emit (with_b st m) evs in
      (* 93-96 *)
      match rrdr with
      | None => goto st InMerge
      | Some r =>
          match eAho (b st) with
          | Some a =>
              goto (with_echan (emit st [EvIndex true a r]) open_chan)
                   InMerge
          | None => goto st Panicked
          end
      end
  end.

(** Lines 28-48: up to the first [select], or through [proceed] when
    there is no forward reader.  [q] tells whether [quit] is already
    closed when the call starts. *)
Definition identify_start (m : Matcher) (bf : Buffer) (q : bool) : state :=
  (* 28-31 *)
  let tr := [EvSetQuit; EvNewMatcher] in
  (* 34-39 *)
  let rdr := forward_reader m bf in
  (* 41-44 *)
  let (m, evs) := start_bof m rdr in
  let st := mkState m bf q InSeqOnly
                    nil_chan nil_chan nil_chan nil_chan (tr ++ evs) in
  (* 45-47 *)
  match rdr with
  | Some r =>
      match bAho m with
      | Some a => with_bchan (emit st [EvIndex false a r]) open_chan
      | None => goto st Panicked
      end
  | None => proceed st
  end.

(** Lines 126-129, after each [select] of the second loop. *)
Definition check_done (st : state) : state :=
  match bfchan st, efchan st, bchan st, echan st with
  | nil_chan, nil_chan, nil_chan, nil_chan => close_return st ExitDone
  | _, _, _, _ => st
  end.

(** [incoming <- strike{tbl[i], ...}]: the index expression is
    evaluated first and may panic.  The send is a rendezvous with the
    consumer and is taken to complete; a consumer that never receives is a
    run that stops before this step. *)
Definition send (st : state) (ph : phase) (s : option strike) : state :=
  match s with
  | Some s => emit st [EvSend ph s]
  | None => goto st Panicked
  end.

(** The four strike literals of lines 65/116, 123, 103 and 109. *)
Definition strike_b (m : Matcher) (br : wac.Result) : option strike :=
  match index (TestTreeIndex (BOFSeq m)) (fst (wac.Index br)) with
  | Some n => Some (mkStrike n (snd (wac.Index br)) (wac.Offset br)
                             (wac.Length br) false false (wac.Final br))
  | None => None
  end.
Definition strike_e (m : Matcher) (er : wac.Result) : option strike :=
  match index (TestTreeIndex (EOFSeq m)) (fst (wac.Index er)) with
  | Some n => Some (mkStrike n (snd (wac.Index er)) (wac.Offset er)
                             (wac.Length er) true false (wac.Final er))
  | None => None
  end.
Definition strike_bf (m : Matcher) (bf : frames.Result) : option strike :=
  match index (fTestTreeIndex (BOFFrames m)) (frames.Idx bf) with
  | Some n => Some (mkStrike n 0 (frames.Off bf) (frames.Length bf)
                             false true true)
  | None => None
  end.
Definition strike_ef (m : Matcher) (ef : frames.Result) : option strike :=
  match index (fTestTreeIndex (EOFFrames m)) (frames.Idx ef) with
  | Some n => Some (mkStrike n 0 (frames.Off ef) (frames.Length ef)
                             true true true)
  | None => None
  end.

(** One [select] of the first loop (lines 51-69). *)
Definition step_seq_only (st : state) (i : input) : option state :=
  match i with
  | FromB br =>
      if can_recv (bchan st) br then
        let st := emit st [EvRecvSeq false br] in
        match br with
        | None =>
            (* 53-62 *)
            let st := with_bchan st closed_chan in
            if quit st then Some (close_return st ExitQuit)
            else Some (proceed st)
        | Some r =>
            (* 65 *)
            Some (send st SEQ_ONLY (strike_b (b st) r))
        end
      else None
  | FromGate =>
      (* 67-68 *)
      Some (proceed (emit st [EvGate]))
  | QuitClosed => Some (with_quit st true)
  | _ => None
  end.

(** Lines 126-129 are skipped by a panic in the [select] body. *)
Definition after_select (st : state) : state :=
  match at_pc st with
  | Panicked => st
  | _ => check_done st
  end.

(** One iteration of the second loop (lines 98-129). *)
Definition step_merge (st : state) (i : input) : option state :=
  match i with
  | FromBF bf =>
      if can_recv (bfchan st) bf then
        let st := emit st [EvRecvFrame false bf] in
        Some (after_select
                match bf with
                | None => with_bfchan st nil_chan
                | Some r => send st MERGE (strike_bf (b st) r)
                end)
      else None
  | FromEF ef =>
      if can_recv (efchan st) ef then
        let st := emit st [EvRecvFrame true ef] in
        Some (after_select
                match ef with
                | None => with_efchan st nil_chan
                | Some r => send st MERGE (strike_ef (b st) r)
                end)
      else None
  | FromB br =>
      if can_recv (bchan st) br then
        let st := emit st [EvRecvSeq false br] in
        Some (after_select
                match br with
                | None => with_bchan st nil_chan
                | Some r => send st MERGE (strike_b (b st) r)
                end)
      else None
  | FromE er =>
      if can_recv (echan st) er then
        let st := emit st [EvRecvSeq true er] in
        Some (after_select
                match er with
                | None => with_echan st nil_chan
                | Some r => send st MERGE (strike_e (b st) r)
                end)
      else None
  | FromGate => None
  | QuitClosed => Some (with_quit st true)
  end.

Definition step (st : state) (i : input) : option state :=
  match at_pc st with
  | InSeqOnly => step_seq_only st i
  | InMerge => step_merge st i
  | Returned _ | Panicked => None
  end.

Fixpoint run (st : state) (ins : list input) : option state :=
  match ins with
  | [] => Some st
  | i :: ins' =>
      match step st i with
      | Some st' => run st' ins'
      | None => None
      end
  end.

(** One call: the buffer, whether [quit] is closed on entry, and what
    the environment feeds the selects. *)
Record call := mkCall
  { c_buf : Buffer; c_quit : bool; c_inputs : list input }.

Definition identify (m : Matcher) (c : call) : option state :=
  run (identify_start m (c_buf c) (c_quit c)) (c_inputs c).

(** Calls one after the other on the same [*Matcher]: each starts from
    the Matcher the previous one left behind. *)
Fixpoint identify_all (m : Matcher) (cs : list call)
  : option (list state) :=
  match cs with
  | [] => Some []
  | c :: cs' =>
      match identify m c with
      | Some st =>
          match identify_all (b st) cs' with
          | Some sts => Some (st :: sts)
          | None => None
          end
      | None => None
      end
  end.


(** ** Observers of a trace *)

Definition is_close (e : event) : bool :=
  match e with EvClose => true | _ => false end.
Definition is_build (rev : bool) (e : event) : bool :=
  match e with EvBuild r _ => Bool.eqb r rev | _ => false end.
Definition is_frames (e : event) : bool :=
  match e with EvFrames _ => true | _ => false end.

Definition closes (tr : list event) : nat :=
  List.length (filter is_close tr).
Definition builds (rev : bool) (tr : list event) : nat :=
  List.length (filter (is_build rev) tr).

(** The strikes put on [incoming], in order. *)
Definition sent (tr : list event) : list strike :=
  flat_map (fun e => match e with EvSend _ s => [s] | _ => [] end) tr.

(** The forward-sequence channel has been seen closed, or the gate
    signal has been received. *)
Definition opens_merge (e : event) : Prop :=
  e = EvGate \/ e = EvRecvSeq false None.

Definition all_nil (st : state) : Prop :=
  bfchan st = nil_chan /\ efchan st = nil_chan /\
  bchan st = nil_chan /\ echan st = nil_chan.

(** The test-tree table a strike's [nodeRef] comes from. *)
Definition table (m : Matcher) (rev frm : bool) : list Z :=
  match rev, frm with
  | false, false => TestTreeIndex (BOFSeq m)
  | true, false => TestTreeIndex (EOFSeq m)
  | false, true => fTestTreeIndex (BOFFrames m)
  | true, true => fTestTreeIndex (EOFFrames m)
  end.

(** The strike a received result is wrapped into, by source. *)
Definition wrapped (m : Matcher) (e : event) : list strike :=
  match e with
  | EvRecvSeq false (Some r) =>
      match strike_b m r with Some s => [s] | None => [] end
  | EvRecvSeq true (Some r) =>
      match strike_e m r with Some s => [s] | None => [] end
  | EvRecvFrame false (Some r) =>
      match strike_bf m r with Some s => [s] | None => [] end
  | EvRecvFrame true (Some r) =>
      match strike_ef m r with Some s => [s] | None => [] end
  | _ => []
  end.

(** The fields of a Matcher that [identify] only reads. *)
Definition same_config (m1 m2 : Matcher) : Prop :=
  BOFSeq m1 = BOFSeq m2 /\ EOFSeq m1 = EOFSeq m2 /\
  BOFFrames m1 = BOFFrames m2 /\ EOFFrames m1 = EOFFrames m2 /\
  MaxBOF m1 = MaxBOF m2 /\ MaxEOF m1 = MaxEOF m2.

(** A started engine is the one compiled from the Matcher's own set. *)
Definition wf (m : Matcher) : Prop :=
  (bstarted m = true -> bAho m = Some (wac.New (Set' (BOFSeq m)))) /\
  (estarted m = true -> eAho m = Some (wac.New (Set' (EOFSeq m)))).

(** Engines built over a sequence of calls. *)
Definition total_builds (rev : bool) (sts : list state) : nat :=
  list_sum (map (fun st => builds rev (trace st)) sts).

(** ** Lines 41-44 and 89-92 run by several invocations at once

    Each invocation that holds a reader goes through three shared-memory
    accesses: the read of the started flag in the [if], the store of the
    freshly built engine, the store of the flag.  Invocations are
    interleaved by a schedule of thread numbers. *)

Inductive tpc := AtCheck | AtBuild | AtFlag | AtPast.

Definition started (rev : bool) (m : Matcher) : bool :=
  if rev then estarted m else bstarted m.
Definition patterns (rev : bool) (m : Matcher) : list Seq :=
  if rev then Set' (EOFSeq m) else Set' (BOFSeq m).
Definition set_aho (rev : bool) (m : Matcher) (a : wac.Wac Seq) : Matcher :=
  if rev then set_eAho m (Some a) else set_bAho m (Some a).
Definition set_started (rev : bool) (m : Matcher) : Matcher :=
  if rev then set_estarted m true else set_bstarted m true.

Definition thread_step (rev : bool) (s : Matcher * list event) (p : tpc)
  : (Matcher * list event) * tpc :=
  match p with
  | AtCheck =>
      if negb (started rev (fst s)) then (s, AtBuild) else (s, AtPast)
  | AtBuild =>
      let a := wac.New (patterns rev (fst s)) in
      ((set_aho rev (fst s) a, snd s ++ [EvBuild rev a]), AtFlag)
  | AtFlag => ((set_started rev (fst s), snd s), AtPast)
  | AtPast => (s, AtPast)
  end.

Fixpoint set_nth {A : Type} (n : nat) (x : A) (l : list A) : list A :=
  match l, n with
  | [], _ => []
  | _ :: l', O => x :: l'
  | y :: l', S n' => y :: set_nth n' x l'
  end.

Definition sched_step (rev : bool)
           (cfg : (Matcher * list event) * list tpc) (t : nat)
  : (Matcher * list event) * list tpc :=
  match nth_error (snd cfg) t with
  | Some p =>
      let (s', p') := thread_step rev (fst cfg) p in
      (s', set_nth t p' (snd cfg))
  | None => cfg
  end.

Definition interleave (rev : bool)
           (cfg : (Matcher * list event) * list tpc) (sched : list nat)
  : (Matcher * list event) * list tpc :=
  fold_left (sched_step rev) sched cfg.

(** One invocation running its three accesses with no other in between. *)
Definition run_thread (rev : bool) (s : Matcher * list event)
  : (Matcher * list event) * tpc :=
  let (s1, p1) := thread_step rev s AtCheck in
  let (s2, p2) := thread_step rev s1 p1 in
  thread_step rev s2 p2.

(** An invocation that has not yet done its build, if it is to do one. *)
Definition pending (p : tpc) : bool :=
  match p with AtCheck | AtBuild => true | AtFlag | AtPast => false end.

Definition built (p : tpc) : bool :=
  match p with AtFlag | AtPast => true | AtCheck | AtBuild => false end.

Definition idle (p : tpc) : bool :=
  match p with AtCheck | AtPast => true | AtBuild | AtFlag => false end.

Definition is_past (p : tpc) : bool :=
  match p with AtPast => true | _ => false end.

(** ** The transitions, case by case

    The same transitions as [identify_start], [proceed] and [step], listed
    with the state each one leads to; [start_Start], [proceed_Proceed] and
    [step_Step] below show that the functions only make these moves. *)

Inductive Proceed (st : state) : state -> Prop :=
| P_err :
    reverse_reader (b st) (buf st) = inr tt ->
    Proceed st
      (mkState (b st) (buf st) (quit st) (Returned ExitErr)
         (bchan st) open_chan open_chan (echan st)
         ((((trace st ++ [EvFrames false]) ++ [EvFrames true])
             ++ [EvReverseErr]) ++ [EvClose]))
| P_no_reader :
    reverse_reader (b st) (buf st) = inl None ->
    Proceed st
      (mkState (b st) (buf st) (quit st) InMerge
         (bchan st) open_chan open_chan (echan st)
         (((trace st ++ [EvFrames false]) ++ [EvFrames true]) ++ []))
| P_build r a :
    reverse_reader (b st) (buf st) = inl (Some r) ->
    estarted (b st) = false ->
    a = wac.New (Set' (EOFSeq (b st))) ->
    Proceed st
      (mkState (set_estarted (set_eAho (b st) (Some a)) true)
         (buf st) (quit st) InMerge
         (bchan st) open_chan open_chan open_chan
         ((((trace st ++ [EvFrames false]) ++ [EvFrames true])
             ++ [EvBuild true a]) ++ [EvIndex true a r]))
| P_cached r a :
    reverse_reader (b st) (buf st) = inl (Some r) ->
    estarted (b st) = true ->
    eAho (b st) = Some a ->
    Proceed st
      (mkState (b st) (buf st) (quit st) InMerge
         (bchan st) open_chan open_chan open_chan
         ((((trace st ++ [EvFrames false]) ++ [EvFrames true])
             ++ []) ++ [EvIndex true a r]))
| P_nil_engine r :
    reverse_reader (b st) (buf st) = inl (Some r) ->
    estarted (b st) = true ->
    eAho (b st) = None ->
    Proceed st
      (mkState (b st) (buf st) (quit st) Panicked
         (bchan st) open_chan open_chan (echan st)
         (((trace st ++ [EvFrames false]) ++ [EvFrames true]) ++ [])).

Inductive Start (m : Matcher) (bf : Buffer) (q : bool) : state -> Prop :=
| I_build r a :
    forward_reader m bf = Some r ->
    bstarted m = false ->
    a = wac.New (Set' (BOFSeq m)) ->
    Start m bf q
      (mkState (set_bstarted (set_bAho m (Some a)) true) bf q InSeqOnly
         open_chan nil_chan nil_chan nil_chan
         (([EvSetQuit; EvNewMatcher] ++ [EvBuild false a])
            ++ [EvIndex false a r]))
| I_cached r a :
    forward_reader m bf = Some r ->
    bstarted m = true ->
    bAho m = Some a ->
    Start m bf q
      (mkState m bf q InSeqOnly
         open_chan nil_chan nil_chan nil_chan
         (([EvSetQuit; EvNewMatcher] ++ []) ++ [EvIndex false a r]))
| I_nil_engine r :
    forward_reader m bf = Some r ->
    bstarted m = true ->
    bAho m = None ->
    Start m bf q
      (mkState m bf q Panicked
         nil_chan nil_chan nil_chan nil_chan
         ([EvSetQuit; EvNewMatcher] ++ []))
| I_no_reader st :
    forward_reader m bf = None ->
    Proceed (mkState m bf q InSeqOnly
               nil_chan nil_chan nil_chan nil_chan
               ([EvSetQuit; EvNewMatcher] ++ [])) st ->
    Start m bf q st.

(** The four channels of the second loop, in the order of its cases. *)
Inductive src := SrcBF | SrcEF | SrcB | SrcE.

Definition chan_of (c : src) (st : state) : chan :=
  match c with
  | SrcBF => bfchan st | SrcEF => efchan st
  | SrcB => bchan st | SrcE => echan st
  end.

Definition set_nil (c : src) (st : state) : state :=
  match c with
  | SrcBF => with_bfchan st nil_chan | SrcEF => with_efchan st nil_chan
  | SrcB => with_bchan st nil_chan | SrcE => with_echan st nil_chan
  end.

(** An input of the second loop: its channel, the receive it logs, and
    the strike it is wrapped into ([None]: the channel was closed;
    [Some None]: the table lookup panics). *)
Definition decode (m : Matcher) (i : input)
  : option (src * event * option (option strike)) :=
  match i with
  | FromBF bf => Some (SrcBF, EvRecvFrame false bf, option_map (strike_bf m) bf)
  | FromEF ef => Some (SrcEF, EvRecvFrame true ef, option_map (strike_ef m) ef)
  | FromB br => Some (SrcB, EvRecvSeq false br, option_map (strike_b m) br)
  | FromE er => Some (SrcE, EvRecvSeq true er, option_map (strike_e m) er)
  | FromGate | QuitClosed => None
  end.

Inductive Step (st : state) : input -> state -> Prop :=
| Q_send r s :
    at_pc st = InSeqOnly -> bchan st = open_chan ->
    strike_b (b st) r = Some s ->
    Step st (FromB (Some r))
         (emit (emit st [EvRecvSeq false (Some r)]) [EvSend SEQ_ONLY s])
| Q_panic r :
    at_pc st = InSeqOnly -> bchan st = open_chan ->
    strike_b (b st) r = None ->
    Step st (FromB (Some r))
         (goto (emit st [EvRecvSeq false (Some r)]) Panicked)
| Q_cancel :
    at_pc st = InSeqOnly -> bchan st <> nil_chan -> quit st = true ->
    Step st (FromB None)
         (close_return
            (with_bchan (emit st [EvRecvSeq false None]) closed_chan)
            ExitQuit)
| Q_exhausted st' :
    at_pc st = InSeqOnly -> bchan st <> nil_chan -> quit st = false ->
    Proceed (with_bchan (emit st [EvRecvSeq false None]) closed_chan) st' ->
    Step st (FromB None) st'
| Q_gate st' :
    at_pc st = InSeqOnly ->
    Proceed (emit st [EvGate]) st' ->
    Step st FromGate st'
| M_send i c ev s :
    at_pc st = InMerge ->
    decode (b st) i = Some (c, ev, Some (Some s)) ->
    chan_of c st = open_chan ->
    Step st i (emit (emit st [ev]) [EvSend MERGE s])
| M_panic i c ev :
    at_pc st = InMerge ->
    decode (b st) i = Some (c, ev, Some None) ->
    chan_of c st = open_chan ->
    Step st i (goto (emit st [ev]) Panicked)
| M_close i c ev :
    at_pc st = InMerge ->
    decode (b st) i = Some (c, ev, None) ->
    chan_of c st <> nil_chan ->
    ~ all_nil (set_nil c (emit st [ev])) ->
    Step st i (set_nil c (emit st [ev]))
| M_done i c ev :
    at_pc st = InMerge ->
    decode (b st) i = Some (c, ev, None) ->
    chan_of c st <> nil_chan ->
    all_nil (set_nil c (emit st [ev])) ->
    Step st i (close_return (set_nil c (emit st [ev])) ExitDone)
| X_quit :
    at_pc st = InSeqOnly \/ at_pc st = InMerge ->
    Step st QuitClosed (with_quit st true).

(** ** Invariants of the reachable states *)

(** The output channel: open while [identify] runs, closed last thing
    before it returns; which of the three returns it was shows in the
    tail of the trace and in the channel variables. *)
Definition closed_once (st : state) : Prop :=
  match at_pc st with
  | InSeqOnly => closes (trace st) = 0%nat /\ bchan st = open_chan
  | InMerge => closes (trace st) = 0%nat /\ ~ all_nil st
  | Panicked => closes (trace st) = 0%nat
  | Returned x =>
      closes (trace st) = 1%nat /\
      match x, rev (trace st) with
      | ExitQuit, EvClose :: EvRecvSeq false None :: _ => ~ all_nil st
      | ExitErr, EvClose :: EvReverseErr :: _ => ~ all_nil st
      | ExitDone, EvClose :: _ => all_nil st
      | _, _ => False
      end
  end.

(** What can be logged while the call is still in its first loop; a
    strike sent from there is a forward-sequence strike. *)
Definition seq_only_evb (e : event) : bool :=
  match e with
  | EvSetQuit | EvNewMatcher | EvBuild false _ | EvIndex false _ _
  | EvRecvSeq false _ => true
  | EvSend SEQ_ONLY s => negb (reverse s) && negb (frame s)
  | _ => false
  end.

Definition is_gate (e : event) : bool :=
  match e with EvGate => true | _ => false end.
Definition is_reverse_err (e : event) : bool :=
  match e with EvReverseErr => true | _ => false end.
Definition is_send (e : event) : bool :=
  match e with EvSend _ _ => true | _ => false end.
Definition is_merge_send (e : event) : bool :=
  match e with EvSend MERGE _ => true | _ => false end.
Definition is_recv_seq (rev : bool) (e : event) : bool :=
  match e with EvRecvSeq r _ => Bool.eqb r rev | _ => false end.
Definition is_index (rev : bool) (e : event) : bool :=
  match e with EvIndex r _ _ => Bool.eqb r rev | _ => false end.
Definition opens_mergeb (e : event) : bool :=
  match e with EvGate | EvRecvSeq false None => true | _ => false end.

Definition seq_only_inv (st : state) : Prop :=
  match at_pc st with
  | InSeqOnly => forallb seq_only_evb (trace st) = true
  | Returned ExitQuit =>
      forallb (fun e => seq_only_evb e || is_close e) (trace st) = true
  | _ => True
  end.

(** What no step of a call changes: its buffer and the configuration. *)
Definition base (m0 : Matcher) (bf : Buffer) (st : state) : Prop :=
  buf st = bf /\ same_config (b st) m0.

(** Every strike sent is the wrapping of a result received, in order. *)
Definition explained (m0 : Matcher) (st : state) : Prop :=
  same_config (b st) m0 /\
  sent (trace st) = flat_map (wrapped m0) (trace st).

(** A property of every event of a trace given the events before it. *)
Definition prefixed (P : list event -> event -> Prop) (tr : list event)
  : Prop :=
  forall t1 e t2, tr = t1 ++ e :: t2 -> P t1 e.

(** Staging: a strike sent from the second loop has the close of the
    forward-sequence channel or the gate signal before it (whenever
    [guard]); a strike sent from the first loop has no strike of the
    second loop before it. *)
Definition staged (guard : Prop) (t1 : list event) (e : event) : Prop :=
  match e with
  | EvSend MERGE _ => guard -> existsb opens_mergeb t1 = true
  | EvSend SEQ_ONLY s =>
      existsb is_merge_send t1 = false /\
      reverse s = false /\ frame s = false
  | _ => True
  end.

Definition phase_inv (m0 : Matcher) (st : state) : Prop :=
  prefixed (staged (MaxBOF m0 <> 0)) (trace st) /\
  match at_pc st with
  | InSeqOnly => existsb is_merge_send (trace st) = false
  | InMerge => MaxBOF m0 <> 0 -> existsb opens_mergeb (trace st) = true
  | _ => True
  end.

(** The Matcher as lines 41-44 leave it, and as lines 89-92 leave it. *)
Definition after_init (m0 : Matcher) (bf : Buffer) : Matcher :=
  fst (start_bof m0 (forward_reader m0 bf)).
Definition after_setup (m0 : Matcher) (bf : Buffer) : Matcher :=
  match reverse_reader m0 bf with
  | inl rrdr => fst (start_eof (after_init m0 bf) rrdr)
  | inr _ => after_init m0 bf
  end.

(** Which reader an engine was started on, and which engine it was. *)
Definition index_ok (m0 : Matcher) (bf : Buffer) (e : event) : Prop :=
  match e with
  | EvIndex false a r =>
      forward_reader m0 bf = Some r /\ bAho (after_init m0 bf) = Some a
  | EvIndex true a r =>
      reverse_reader m0 bf = inl (Some r) /\
      eAho (after_setup m0 bf) = Some a
  | EvBuild false a => a = wac.New (Set' (BOFSeq m0))
  | EvBuild true a => a = wac.New (Set' (EOFSeq m0))
  | _ => True
  end.

Definition rrdr_some (m0 : Matcher) (bf : Buffer) : bool :=
  match reverse_reader m0 bf with inl (Some _) => true | _ => false end.

Definition engine_inv (m0 : Matcher) (bf : Buffer) (st : state) : Prop :=
  (at_pc st = InSeqOnly -> existsb is_frames (trace st) = false) /\
  buf st = bf /\
  b st = (if existsb is_frames (trace st)
          then after_setup m0 bf else after_init m0 bf) /\
  builds false (trace st) =
    (if isSome (forward_reader m0 bf) && negb (bstarted m0)
     then 1 else 0)%nat /\
  builds true (trace st) =
    (if existsb is_frames (trace st) && rrdr_some m0 bf && negb (estarted m0)
     then 1 else 0)%nat /\
  Forall (index_ok m0 bf) (trace st).

(** Events that neither build nor start anything. *)
Definition quiet_evb (e : event) : bool :=
  match e with
  | EvBuild _ _ | EvIndex _ _ _ | EvFrames _ => false
  | _ => true
  end.

(** A sequence channel that was never made stays nil and is never
    received from. *)
Definition chan_inv (m0 : Matcher) (bf : Buffer) (st : state) : Prop :=
  (forward_reader m0 bf = None ->
   bchan st = nil_chan /\ existsb (is_recv_seq false) (trace st) = false) /\
  (rrdr_some m0 bf = false ->
   echan st = nil_chan /\ existsb (is_recv_seq true) (trace st) = false).

(** When the reverse reader cannot be made, the call never gets past the
    set-up of the second loop. *)
Definition pre_merge_evb (e : event) : bool :=
  seq_only_evb e || is_gate e || is_frames e || is_reverse_err e ||
  is_close e.

Definition rev_fail_inv (st : state) : Prop :=
  forallb pre_merge_evb (trace st) = true /\
  match at_pc st with
  | InSeqOnly | Returned ExitQuit | Panicked => True
  | Returned ExitErr =>
      match rev (trace st) with
      | EvClose :: EvReverseErr :: EvFrames true :: EvFrames false :: _ =>
          True
      | _ => False
      end
  | _ => False
  end.

(** ** Results within the tables, results received, closes received *)

(** An index that a Go slice of this length accepts. *)
Definition in_table (tbl : list Z) (i : Z) : bool :=
  (0 <=? i) && (i <? Z.of_nat (List.length tbl)).

(** A result whose index lies within the test-tree table of its source
    (lines 65, 103, 109, 116, 123); the other inputs carry no index. *)
Definition valid_input (m : Matcher) (i : input) : bool :=
  match i with
  | FromB (Some r) => in_table (TestTreeIndex (BOFSeq m)) (fst (wac.Index r))
  | FromE (Some r) => in_table (TestTreeIndex (EOFSeq m)) (fst (wac.Index r))
  | FromBF (Some r) => in_table (fTestTreeIndex (BOFFrames m)) (frames.Idx r)
  | FromEF (Some r) => in_table (fTestTreeIndex (EOFFrames m)) (frames.Idx r)
  | _ => true
  end.

(** A result taken from one of the four channels ([ok] true). *)
Definition is_value (e : event) : bool :=
  match e with
  | EvRecvSeq _ (Some _) | EvRecvFrame _ (Some _) => true
  | _ => false
  end.
Definition received (tr : list event) : nat :=
  List.length (filter is_value tr).

(** The close of the forward-sequence channel seen by a receive. *)
Definition is_bclose (e : event) : bool :=
  match e with EvRecvSeq false None => true | _ => false end.
Definition bcloses (tr : list event) : nat :=
  List.length (filter is_bclose tr).

(** A trace without the engine builds of lines 42 and 90: everything the
    call does apart from the lazy construction. *)
Definition is_any_build (e : event) : bool :=
  match e with EvBuild _ _ => true | _ => false end.
Definition visible (tr : list event) : list event :=
  filter (fun e => negb (is_any_build e)) tr.

(** Two calls in step: same place, same channel variables, same
    configuration, and the same trace up to engine builds. *)
Definition sim (st1 st2 : state) : Prop :=
  at_pc st1 = at_pc st2 /\ quit st1 = quit st2 /\ buf st1 = buf st2 /\
  bchan st1 = bchan st2 /\ bfchan st1 = bfchan st2 /\
  efchan st1 = efchan st2 /\ echan st1 = echan st2 /\
  same_config (b st1) (b st2) /\ wf (b st1) /\ wf (b st2) /\
  visible (trace st1) = visible (trace st2).

(** The closes that end the second loop: one for each channel variable
    that is not nil, in the order of the cases of the [select]. *)
Definition closing (st : state) : list input :=
  (match bfchan st with nil_chan => [] | _ => [FromBF None] end) ++
  (match efchan st with nil_chan => [] | _ => [FromEF None] end) ++
  (match bchan st with nil_chan => [] | _ => [FromB None] end) ++
  (match echan st with nil_chan => [] | _ => [FromE None] end).

(** How often the close of the forward-sequence channel is received by
    the time the second loop has disabled it: once in the second loop,
    and once before when the first loop ended on it. *)
Definition bclose_inv (m0 : Matcher) (bf : Buffer) (st : state) : Prop :=
  match at_pc st with
  | InSeqOnly =>
      bcloses (trace st) = 0%nat /\ existsb is_gate (trace st) = false
  | InMerge | Returned ExitDone =>
      match bchan st with
      | open_chan =>
          bcloses (trace st) = 0%nat /\ existsb is_gate (trace st) = true
      | closed_chan =>
          bcloses (trace st) = 1%nat /\ existsb is_gate (trace st) = false
      | nil_chan =>
          if isSome (forward_reader m0 bf)
          then bcloses (trace st) =
               (if existsb is_gate (trace st) then 1 else 2)%nat
          else bcloses (trace st) = 0%nat
      end
  | _ => True
  end.

End Bytematcher.

Arguments EvSetQuit {Seq}.
Arguments EvNewMatcher {Seq}.
Arguments EvFrames {Seq} rev.
Arguments EvReverseErr {Seq}.
Arguments EvRecvSeq {Seq} rev r.
Arguments EvRecvFrame {Seq} rev r.
Arguments EvGate {Seq}.
Arguments EvSend {Seq} ph s.
Arguments EvClose {Seq}.
Arguments is_close {Seq} e.
Arguments is_build {Seq} rev e.
Arguments is_frames {Seq} e.
Arguments is_gate {Seq} e.
Arguments is_reverse_err {Seq} e.
Arguments is_send {Seq} e.
Arguments is_merge_send {Seq} e.
Arguments is_recv_seq {Seq} rev e.
Arguments is_index {Seq} rev e.
Arguments opens_mergeb {Seq} e.
Arguments seq_only_evb {Seq} e.
Arguments quiet_evb {Seq} e.
Arguments pre_merge_evb {Seq} e.
Arguments is_value {Seq} e.
Arguments is_bclose {Seq} e.
Arguments is_any_build {Seq} e.

(** * Package [config]: the PRONOM settings ([config/pronom.go])

    The package keeps its settings in one package-level variable,
    [pronom]; the getters read it and the setters overwrite one field
    each.  Here the variable is a record that the getters take and the
    setters transform. *)

Module config.

Import String.
Local Open Scope string_scope.

(** The type [Archive] and its constants are declared in another file of
    the package; these are the six that [IsArchive] returns. *)
Module Archive.
Inductive t := None | Zip | Gzip | Tar | ARC | WARC.
End Archive.

(** The variable [pronom] (lines 27-51).  [harvestTimeout] is a
    [time.Duration], a number of nanoseconds.  The field
    [harvestTransport], a pointer to an [http.Transport], is left out:
    none of the functions modelled here reads it. *)
Module pronom.
Record t := mk
  { droid : string; container : string; reports : string;
    noreports : bool; doubleup : bool; inspect : bool;
    limit : list string; exclude : list string;
    extensions : string; extend : list string; extendc : list string;
    harvestURL : string; harvestTimeout : Z;
    zip : string; tar : string; gzip : string;
    arc : string; arc1_1 : string; warc : string;
    text : string }.
End pronom.

(** The initial value of [pronom] (lines 51-64); fields not listed there
    have the zero value of their type. *)
Definition initial : pronom.t :=
  pronom.mk EmptyString EmptyString "pronom" false false false [] []
            "custom" [] []
            "http://apps.nationalarchives.gov.uk/pronom/"
            (120 * 1000000000)
            "x-fmt/263" "x-fmt/265" "x-fmt/266"
            "x-fmt/219" "fmt/410" "fmt/289"
            "x-fmt/111".

(** ** Package [strings], as far as [latest] uses it *)

Definition HasPrefix (s prefix : string) : bool := String.prefix prefix s.

Definition HasSuffix (s suffix : string) : bool :=
  Nat.leb (length suffix) (length s) &&
  String.eqb (substring (length s - length suffix) (length suffix) s) suffix.

Definition TrimPrefix (s prefix : string) : string :=
  if HasPrefix s prefix
  then substring (length prefix) (length s - length prefix) s
  else s.

Definition TrimSuffix (s suffix : string) : string :=
  if HasSuffix s suffix
  then substring 0 (length s - length suffix) s
  else s.

(** ** [latest] *)

Inductive error :=
| ErrReadDir                   (* the error of ioutil.ReadDir, line 131 *)
| ErrAtoi (s : string)         (* the error of strconv.Atoi on s, line 139 *)
| ErrNoFile (prefix : string). (* fmt.Errorf, line 145 *)

(** What a call of [latest] comes to: [(nm, nil)], [(_, err)], or a
    run-time panic of one of its index expressions. *)
Inductive outcome := Ok (nm : string) | Err (e : error) | Panic.

(** Lines 151-156: [for i, v := range ids[1:]], carrying [max] and
    [idx]. *)
Fixpoint max_loop (tl : list Z) (i : nat) (max : Z) (idx : nat) : Z * nat :=
  match tl with
  | [] => (max, idx)
  | v :: tl' =>
      if Z.gtb v max then max_loop tl' (S i) v (i + 1)%nat
      else max_loop tl' (S i) max idx
  end.

Section Env.

(** What the package takes from outside this file: the variable
    [siegfried.home]; [filepath.Dir] and [filepath.Join];
    [ioutil.ReadDir], here the names of the entries of a directory, or
    [None] for its error; [strconv.Atoi], [None] for its error. *)
Variable home : string.
Variable Dir : string -> string.
Variable Join : list string -> string.
Variable ReadDir : string -> option (list string).
Variable Atoi : string -> option Z.

(** The file names [latest] looks at, and the number it reads off one. *)
Definition matches (prefix suffix nm : string) : bool :=
  HasPrefix nm prefix && HasSuffix nm suffix.
Definition version (prefix suffix nm : string) : option Z :=
  Atoi (TrimSuffix (TrimPrefix nm prefix) suffix).

(** Lines 133-143: the loop over the directory entries, carrying [hits]
    and [ids]. *)
Fixpoint scan (prefix suffix : string) (files : list string)
         (hits : list string) (ids : list Z)
  : error + list string * list Z :=
  match files with
  | [] => inr (hits, ids)
  | nm :: files' =>
      if matches prefix suffix nm then
        let hits := (hits ++ [nm])%list in
        match version prefix suffix nm with
        | Datatypes.None =>
            inl (ErrAtoi (TrimSuffix (TrimPrefix nm prefix) suffix))
        | Some id => scan prefix suffix files' hits (ids ++ [id])%list
        end
      else scan prefix suffix files' hits ids
  end.

(** Lines 126-158. *)
Definition latest (prefix suffix : string) : outcome :=
  match ReadDir home with
  | Datatypes.None => Err ErrReadDir
  | Some files =>
      match scan prefix suffix files [] [] with
      | inl e => Err e
      | inr (hits, ids) =>
          match hits with
          | [] => Err (ErrNoFile prefix)
          | [h] => Ok h
          | _ =>
              match ids with
              | [] => Panic                                (* ids[0] *)
              | id0 :: rest =>
                  match nth_error hits (snd (max_loop rest 0 id0 0)) with
                  | Some h => Ok h
                  | Datatypes.None => Panic                (* hits[idx] *)
                  end
              end
          end
      end
  end.

(** ** Getters *)

(** [Droid] and [DroidBase] (lines 70-95); [None] is a panic of
    [latest]. *)
Definition Droid (p : pronom.t) : option string :=
  if String.eqb (pronom.droid p) EmptyString then
    match latest "DROID_SignatureFile_V" ".xml" with
    | Ok droid => Some (Join [home; droid])
    | Err _ => Some EmptyString
    | Panic => Datatypes.None
    end
  else if String.eqb (Dir (pronom.droid p)) "."
       then Some (Join [home; pronom.droid p])
       else Some (pronom.droid p).

Definition DroidBase (p : pronom.t) : option string :=
  if String.eqb (pronom.droid p) EmptyString then
    match latest "DROID_SignatureFile_V" ".xml" with
    | Ok droid => Some droid
    | Err _ => Some EmptyString
    | Panic => Datatypes.None
    end
  else Some (pronom.droid p).

(** [Container] and [ContainerBase] (lines 99-124). *)
Definition Container (p : pronom.t) : option string :=
  if String.eqb (pronom.container p) EmptyString then
    match latest "container-signature-" ".xml" with
    | Ok container => Some (Join [home; container])
    | Err _ => Some EmptyString
    | Panic => Datatypes.None
    end
  else if String.eqb (Dir (pronom.container p)) "."
       then Some (Join [home; pronom.container p])
       else Some (pronom.container p).

Definition ContainerBase (p : pronom.t) : option string :=
  if String.eqb (pronom.container p) EmptyString then
    match latest "container-signature-" ".xml" with
    | Ok container => Some container
    | Err _ => Some EmptyString
    | Panic => Datatypes.None
    end
  else Some (pronom.container p).

(** Lines 161-169. *)
Definition Reports (p : pronom.t) : string :=
  if pronom.noreports p || String.eqb (pronom.reports p) EmptyString
  then EmptyString
  else if String.eqb (Dir (pronom.reports p)) "."
       then Join [home; pronom.reports p]
       else pronom.reports p.

(** Lines 231-251. *)
Definition extensionPaths (p : pronom.t) (e : list string) : list string :=
  map (fun v => if String.eqb (Dir v) "."
                then Join [home; pronom.extensions p; v]
                else v) e.
Definition Extend (p : pronom.t) : list string :=
  extensionPaths p (pronom.extend p).
Definition ExtendC (p : pronom.t) : list string :=
  extensionPaths p (pronom.extendc p).

End Env.

Definition Inspect (p : pronom.t) : bool := pronom.inspect p.
Definition DoubleUp (p : pronom.t) : bool := pronom.doubleup p.

Definition HasLimit (p : pronom.t) : bool :=
  Nat.ltb 0 (List.length (pronom.limit p)).
Definition HasExclude (p : pronom.t) : bool :=
  Nat.ltb 0 (List.length (pronom.exclude p)).

(** Lines 182-192: for each [v] of the limit set, for each [w] of
    [puids], append [v] when they are equal. *)
Definition Limit (p : pronom.t) (puids : list string) : list string :=
  fold_left
    (fun ret v =>
       fold_left (fun ret w => if String.eqb v w then (ret ++ [v])%list else ret)
                 puids ret)
    (pronom.limit p) [].

(** Lines 202-208: the inner loop of [exclude], left by [break] at the
    first match. *)
Fixpoint excluded (v : string) (ex : list string) : bool :=
  match ex with
  | [] => false
  | w :: ex' => if String.eqb v w then true else excluded v ex'
  end.

(** Lines 199-214. *)
Definition exclude (puids ex : list string) : list string :=
  fold_left (fun ret v => if negb (excluded v ex) then (ret ++ [v])%list else ret)
            puids [].

Definition Exclude (p : pronom.t) (puids : list string) : list string :=
  exclude puids (pronom.exclude p).
Definition ExcludeDoubles (puids cont : list string) : list string :=
  exclude puids cont.

Definition ZipPuid (p : pronom.t) : string := pronom.zip p.
Definition TextPuid (p : pronom.t) : string := pronom.text p.

(** Lines 269-283: the cases of a Go [switch] are tried in order. *)
Definition IsArchive (p : pronom.t) (x : string) : Archive.t :=
  if String.eqb x (pronom.zip p) then Archive.Zip
  else if String.eqb x (pronom.gzip p) then Archive.Gzip
  else if String.eqb x (pronom.tar p) then Archive.Tar
  else if String.eqb x (pronom.arc p) || String.eqb x (pronom.arc1_1 p)
       then Archive.ARC
  else if String.eqb x (pronom.warc p) then Archive.WARC
  else Archive.None.

(** ** Setters

    What running the closure returned by each setter does to [pronom]
    (lines 289-374). *)

Definition SetDroid (d : string) (p : pronom.t) : pronom.t :=
  pronom.mk d (pronom.container p) (pronom.reports p)
    (pronom.noreports p) (pronom.doubleup p) (pronom.inspect p)
    (pronom.limit p) (pronom.exclude p)
    (pronom.extensions p) (pronom.extend p) (pronom.extendc p)
    (pronom.harvestURL p) (pronom.harvestTimeout p)
    (pronom.zip p) (pronom.tar p) (pronom.gzip p)
    (pronom.arc p) (pronom.arc1_1 p) (pronom.warc p) (pronom.text p).
Definition SetContainer (c : string) (p : pronom.t) : pronom.t :=
  pronom.mk (pronom.droid p) c (pronom.reports p)
    (pronom.noreports p) (pronom.doubleup p) (pronom.inspect p)
    (pronom.limit p) (pronom.exclude p)
    (pronom.extensions p) (pronom.extend p) (pronom.extendc p)
    (pronom.harvestURL p) (pronom.harvestTimeout p)
    (pronom.zip p) (pronom.tar p) (pronom.gzip p)
    (pronom.arc p) (pronom.arc1_1 p) (pronom.warc p) (pronom.text p).
Definition SetReports (r : string) (p : pronom.t) : pronom.t :=
  pronom.mk (pronom.droid p) (pronom.container p) r
    (pronom.noreports p) (pronom.doubleup p) (pronom.inspect p)
    (pronom.limit p) (pronom.exclude p)
    (pronom.extensions p) (pronom.extend p) (pronom.extendc p)
    (pronom.harvestURL p) (pronom.harvestTimeout p)
    (pronom.zip p) (pronom.tar p) (pronom.gzip p)
    (pronom.arc p) (pronom.arc1_1 p) (pronom.warc p) (pronom.text p).
Definition SetNoReports (p : pronom.t) : pronom.t :=
  pronom.mk (pronom.droid p) (pronom.container p) (pronom.reports p)
    true (pronom.doubleup p) (pronom.inspect p)
    (pronom.limit p) (pronom.exclude p)
    (pronom.extensions p) (pronom.extend p) (pronom.extendc p)
    (pronom.harvestURL p) (pronom.harvestTimeout p)
    (pronom.zip p) (pronom.tar p) (pronom.gzip p)
    (pronom.arc p) (pronom.arc1_1 p) (pronom.warc p) (pronom.text p).
Definition SetDoubleUp (p : pronom.t) : pronom.t :=
  pronom.mk (pronom.droid p) (pronom.container p) (pronom.reports p)
    (pronom.noreports p) true (pronom.inspect p)
    (pronom.limit p) (pronom.exclude p)
    (pronom.extensions p) (pronom.extend p) (pronom.extendc p)
    (pronom.harvestURL p) (pronom.harvestTimeout p)
    (pronom.zip p) (pronom.tar p) (pronom.gzip p)
    (pronom.arc p) (pronom.arc1_1 p) (pronom.warc p) (pronom.text p).
Definition SetInspect (p : pronom.t) : pronom.t :=
  pronom.mk (pronom.droid p) (pronom.container p) (pronom.reports p)
    (pronom.noreports p) (pronom.doubleup p) true
    (pronom.limit p) (pronom.exclude p)
    (pronom.extensions p) (pronom.extend p) (pronom.extendc p)
    (pronom.harvestURL p) (pronom.harvestTimeout p)
    (pronom.zip p) (pronom.tar p) (pronom.gzip p)
    (pronom.arc p) (pronom.arc1_1 p) (pronom.warc p) (pronom.text p).
Definition SetLimit (l : list string) (p : pronom.t) : pronom.t :=
  pronom.mk (pronom.droid p) (pronom.container p) (pronom.reports p)
    (pronom.noreports p) (pronom.doubleup p) (pronom.inspect p)
    l (pronom.exclude p)
    (pronom.extensions p) (pronom.extend p) (pronom.extendc p)
    (pronom.harvestURL p) (pronom.harvestTimeout p)
    (pronom.zip p) (pronom.tar p) (pronom.gzip p)
    (pronom.arc p) (pronom.arc1_1 p) (pronom.warc p) (pronom.text p).
Definition SetExclude (l : list string) (p : pronom.t) : pronom.t :=
  pronom.mk (pronom.droid p) (pronom.container p) (pronom.reports p)
    (pronom.noreports p) (pronom.doubleup p) (pronom.inspect p)
    (pronom.limit p) l
    (pronom.extensions p) (pronom.extend p) (pronom.extendc p)
    (pronom.harvestURL p) (pronom.harvestTimeout p)
    (pronom.zip p) (pronom.tar p) (pronom.gzip p)
    (pronom.arc p) (pronom.arc1_1 p) (pronom.warc p) (pronom.text p).
Definition SetExtend (l : list string) (p : pronom.t) : pronom.t :=
  pronom.mk (pronom.droid p) (pronom.container p) (pronom.reports p)
    (pronom.noreports p) (pronom.doubleup p) (pronom.inspect p)
    (pronom.limit p) (pronom.exclude p)
    (pronom.extensions p) l (pronom.extendc p)
    (pronom.harvestURL p) (pronom.harvestTimeout p)
    (pronom.zip p) (pronom.tar p) (pronom.gzip p)
    (pronom.arc p) (pronom.arc1_1 p) (pronom.warc p) (pronom.text p).
Definition SetExtendC (l : list string) (p : pronom.t) : pronom.t :=
  pronom.mk (pronom.droid p) (pronom.container p) (pronom.reports p)
    (pronom.noreports p) (pronom.doubleup p) (pronom.inspect p)
    (pronom.limit p) (pronom.exclude p)
    (pronom.extensions p) (pronom.extend p) l
    (pronom.harvestURL p) (pronom.harvestTimeout p)
    (pronom.zip p) (pronom.tar p) (pronom.gzip p)
    (pronom.arc p) (pronom.arc1_1 p) (pronom.warc p) (pronom.text p).
Definition SetHarvestTimeout (d : Z) (p : pronom.t) : pronom.t :=
  pronom.mk (pronom.droid p) (pronom.container p) (pronom.reports p)
    (pronom.noreports p) (pronom.doubleup p) (pronom.inspect p)
    (pronom.limit p) (pronom.exclude p)
    (pronom.extensions p) (pronom.extend p) (pronom.extendc p)
    (pronom.harvestURL p) d
    (pronom.zip p) (pronom.tar p) (pronom.gzip p)
    (pronom.arc p) (pronom.arc1_1 p) (pronom.warc p) (pronom.text p).

(** The setters of this file, and the settings after a series of them. *)
Inductive Setter : (pronom.t -> pronom.t) -> Prop :=
| S_Droid d : Setter (SetDroid d)
| S_Container c : Setter (SetContainer c)
| S_Reports r : Setter (SetReports r)
| S_NoReports : Setter SetNoReports
| S_DoubleUp : Setter SetDoubleUp
| S_Inspect : Setter SetInspect
| S_Limit l : Setter (SetLimit l)
| S_Exclude l : Setter (SetExclude l)
| S_Extend l : Setter (SetExtend l)
| S_ExtendC l : Setter (SetExtendC l)
| S_HarvestTimeout d : Setter (SetHarvestTimeout d).

Definition configure (fs : list (pronom.t -> pronom.t)) (p : pronom.t)
  : pronom.t :=
  fold_left (fun p f => f p) fs p.

(** ** Concrete inputs *)

(** A stand-in for [strconv.Atoi] on unsigned decimal numerals. *)
Definition digit (c : Ascii.ascii) : option Z :=
  let n := Z.of_nat (Ascii.nat_of_ascii c) in
  if (48 <=? n)%Z && (n <=? 57)%Z then Some (n - 48) else Datatypes.None.
Fixpoint digits (s : string) (acc : Z) : option Z :=
  match s with
  | EmptyString => Some acc
  | String c s' =>
      match digit c with
      | Some d => digits s' (10 * acc + d)
      | Datatypes.None => Datatypes.None
      end
  end.
Definition ex_Atoi (s : string) : option Z :=
  match s with EmptyString => Datatypes.None | _ => digits s 0 end.

Definition ex_home : string := "data".
Definition ex_prefix : string := "DROID_SignatureFile_V".
Definition ex_suffix : string := ".xml".
Definition ex_latest : string := "DROID_SignatureFile_V100.xml".

Definition ex_files : list string :=
  ["DROID_SignatureFile_V78.xml"; "readme.txt";
   "DROID_SignatureFile_V100.xml"; "container-signature-19770502.xml";
   "DROID_SignatureFile_V9.xml"; "DROID_SignatureFile_V0100.xml"].
Definition ex_ReadDir (_ : string) : option (list string) := Some ex_files.

(** A directory holding a signature file without a version number. *)
Definition ex_bad_files : list string :=
  ["DROID_SignatureFile_V78.xml"; "DROID_SignatureFile_Vlatest.xml"].
Definition ex_bad_ReadDir (_ : string) : option (list string) :=
  Some ex_bad_files.

Definition ex_Dir (s : string) : string :=
  match index 0 "/" s with Some _ => "dir" | Datatypes.None => "." end.
Definition ex_Join (l : list string) : string := concat "/" l.

Definition ex_puids : list string :=
  ["fmt/1"; "x-fmt/263"; "fmt/2"; "fmt/1"; "fmt/3"].
Definition ex_setters : list (pronom.t -> pronom.t) :=
  [SetLimit ["fmt/3"; "fmt/1"; "fmt/9"]; SetNoReports;
   SetExclude ["fmt/2"]; SetReports "reports"].
Definition ex_settings : pronom.t := configure ex_setters initial.

End config.

(** ** Concrete inputs *)

Definition ex_matcher (maxbof maxeof : Z) : Matcher unit :=
  mkMatcher (mkSeqSet [tt] [7; 8]) (mkSeqSet [tt] [9])
            (mkFrameSet [5]) (mkFrameSet [6])
            maxbof maxeof None None false false.

Definition ex_buf : Buffer := mkBuffer (fun _ => false) false.
Definition ex_short_buf : Buffer := mkBuffer (fun _ => true) true.

Definition ex_br : wac.Result := wac.mkResult (1, 3) 0 4 true.
Definition ex_er : wac.Result := wac.mkResult (0, 2) 0 4 false.
Definition ex_bf : frames.Result := frames.mkResult 0 2 6.
Definition ex_ef : frames.Result := frames.mkResult 0 1 3.

(** A call that goes through both loops and returns by exhaustion. *)
Definition ex_call : call :=
  mkCall ex_buf false
    [FromB (Some ex_br); FromB None; FromBF (Some ex_bf); FromE (Some ex_er);
     FromEF (Some ex_ef); FromBF None; FromEF None; FromB None; FromE None].

(** A call on a Matcher without sequence scanning at BOF: one frame hit. *)
Definition ex_frame_call : call :=
  mkCall ex_buf false [FromBF (Some ex_bf)].

(** A call whose buffer cannot give a reverse reader. *)
Definition ex_short_call : call :=
  mkCall ex_short_buf false [FromB (Some ex_br); FromB None].

(** A call that finds [quit] closed on entry. *)
Definition ex_quit_call : call := mkCall ex_buf true [].

(** Two invocations, each checking the flag before the other stores it. *)
Definition ex_racy_schedule : list nat := [0; 1; 0; 0; 1; 1]%nat.

(** A call that receives a result whose index is outside the table. *)
Definition ex_bad_br : wac.Result := wac.mkResult (5, 0) 0 1 false.
Definition ex_bad_call : call :=
  mkCall ex_buf false [FromB (Some ex_br); FromB (Some ex_bad_br)].

(** A call cancelled while in its first loop. *)
Definition ex_cancel_call : call :=
  mkCall ex_buf false [FromB (Some ex_br); QuitClosed; FromB None].

(** A call that is still in its first loop. *)
Definition ex_open_call : call := mkCall ex_buf false [FromB (Some ex_br)].

(** A Matcher whose two engines were built by an earlier call. *)
Definition ex_used_matcher : Matcher unit :=
  mkMatcher (mkSeqSet [tt] [7; 8]) (mkSeqSet [tt] [9])
            (mkFrameSet [5]) (mkFrameSet [6])
            4 (-1) (Some (wac.New [tt])) (Some (wac.New [tt])) true true.

(** A call without sequence scanning, at the first [select] of its
    second loop. *)
Definition ex_merge_state : state unit :=
  identify_start (ex_matcher 0 0) ex_buf false.

(** ** Properties *)

Section Properties.

Variable Seq : Type.
Implicit Types (m : Matcher Seq) (st : state Seq) (tr : list (event Seq)).

Lemma run_app st ins1 ins2 :
  run st (ins1 ++ ins2) =
  match run st ins1 with Some st' => run st' ins2 | None => None end.
Proof.
  revert st; induction ins1 as [|i ins1 IH]; intros st; simpl; auto.
  destruct (step st i); auto.
Qed.

(** A property kept by every step holds along every run. *)
Lemma run_invariant (P : state Seq -> Prop) :
  (forall st i st', P st -> step st i = Some st' -> P st') ->
  forall ins st st', P st -> run st ins = Some st' -> P st'.
Proof.
  intros Hstep; induction ins as [|i ins IH]; simpl; intros st st' HP Hrun.
  - congruence.
  - destruct (step st i) as [st1|] eqn:E; [|discriminate]. eauto.
Qed.

Lemma closes_app tr1 tr2 :
  closes (tr1 ++ tr2) = (closes tr1 + closes tr2)%nat.
Proof. unfold closes. now rewrite filter_app, length_app. Qed.

(** *** The functions only make the listed moves *)

Ltac norm_state :=
  cbv beta iota zeta delta
    [identify_start proceed after_select check_done send close_return
     goto emit with_b with_quit with_bchan with_bfchan with_efchan
     with_echan b buf quit at_pc bchan bfchan efchan echan trace].

Lemma proceed_Proceed st : Proceed st (proceed st).
Proof.
  destruct st as [m bf q p cb cbf cef ce tr]; norm_state.
  destruct (reverse_reader m bf) as [[r|]|[]] eqn:Er.
  - unfold start_eof; simpl.
    destruct (estarted m) eqn:Es; simpl.
    + destruct (eAho m) as [a|] eqn:Ea.
      * now apply (@P_cached _ (mkState m bf q p cb cbf cef ce tr) r a).
      * now apply (@P_nil_engine _ (mkState m bf q p cb cbf cef ce tr) r).
    + now apply (@P_build _ (mkState m bf q p cb cbf cef ce tr) r _).
  - now apply (@P_no_reader _ (mkState m bf q p cb cbf cef ce tr)).
  - now apply (@P_err _ (mkState m bf q p cb cbf cef ce tr)).
Qed.

Lemma start_Start m bf q : Start m bf q (identify_start m bf q).
Proof.
  unfold identify_start.
  destruct (forward_reader m bf) as [r|] eqn:Er.
  - unfold start_bof; simpl.
    destruct (bstarted m) eqn:Es; simpl.
    + destruct (bAho m) as [a|] eqn:Ea; norm_state.
      * now apply I_cached.
      * now apply I_nil_engine with r.
    + norm_state. now apply I_build.
  - unfold start_bof; simpl. apply I_no_reader; auto. apply proceed_Proceed.
Qed.

Lemma after_select_send st c ev s :
  at_pc st = InMerge -> chan_of c st = open_chan ->
  after_select (emit (emit st [ev]) [EvSend MERGE s]) =
  emit (emit st [ev]) [EvSend MERGE s].
Proof.
  destruct st as [m bf q p cb cbf cef ce tr]; simpl; intros -> Hc.
  norm_state.
  destruct c; simpl in Hc; subst; try reflexivity;
    destruct cbf; try reflexivity; destruct cef; try reflexivity;
    destruct cb; reflexivity.
Qed.

Lemma after_select_panic st : after_select (goto st Panicked) = goto st Panicked.
Proof. reflexivity. Qed.

Lemma after_select_done st :
  at_pc st = InMerge -> all_nil st ->
  after_select st = close_return st ExitDone.
Proof.
  destruct st as [m bf q p cb cbf cef ce tr]; simpl.
  intros -> (H1 & H2 & H3 & H4); simpl in *; subst. reflexivity.
Qed.

Lemma after_select_more st :
  at_pc st = InMerge -> ~ all_nil st -> after_select st = st.
Proof.
  destruct st as [m bf q p cb cbf cef ce tr]; simpl.
  intros -> H. unfold all_nil in H; simpl in H. norm_state.
  destruct cbf, cef, cb, ce; try reflexivity. exfalso; auto.
Qed.

Lemma all_nil_dec st : all_nil st \/ ~ all_nil st.
Proof.
  unfold all_nil.
  destruct (bfchan st), (efchan st), (bchan st), (echan st);
    try (left; repeat split; reflexivity);
    right; intros (H1 & H2 & H3 & H4); discriminate.
Qed.

Lemma merge_close st i c ev :
  at_pc st = InMerge ->
  decode (b st) i = Some (c, ev, None) ->
  chan_of c st <> nil_chan ->
  Step st i (after_select (set_nil c (emit st [ev]))).
Proof.
  intros Hpc Hd Hc.
  assert (Hpc' : at_pc (set_nil c (emit st [ev])) = InMerge)
    by (destruct c; exact Hpc).
  destruct (all_nil_dec (set_nil c (emit st [ev]))) as [Hn|Hn].
  - rewrite (@after_select_done _ Hpc' Hn). now apply M_done.
  - rewrite (@after_select_more _ Hpc' Hn). now apply M_close.
Qed.

Lemma merge_value st i c ev (o : option strike) :
  at_pc st = InMerge ->
  decode (b st) i = Some (c, ev, Some o) ->
  chan_of c st = open_chan ->
  Step st i (after_select (send (emit st [ev]) MERGE o)).
Proof.
  intros Hpc Hd Hc. destruct o as [s|]; unfold send.
  - rewrite (@after_select_send st c ev s Hpc Hc). now apply M_send with c.
  - rewrite after_select_panic. now apply M_panic with c.
Qed.

Lemma can_recv_value (A : Type) c (v : A) :
  can_recv c (Some v) = true -> c = open_chan.
Proof. destruct c; simpl; congruence. Qed.

Lemma can_recv_closed (A : Type) c :
  can_recv c (@None A) = true -> c <> nil_chan.
Proof. destruct c; simpl; congruence. Qed.

Lemma step_Step st i st' : step st i = Some st' -> Step st i st'.
Proof.
  unfold step. destruct (at_pc st) eqn:Epc; try discriminate.
  - unfold step_seq_only. destruct i as [[r|]| | | | |]; try discriminate.
    + destruct (can_recv (bchan st) (Some r)) eqn:Eb; try discriminate.
      apply can_recv_value in Eb. unfold send.
      change (b (emit st [EvRecvSeq false (Some r)])) with (b st).
      destruct (strike_b (b st) r) as [s|] eqn:Es; intros [= <-].
      * now apply Q_send.
      * now apply Q_panic.
    + destruct (can_recv (bchan st) (@None wac.Result)) eqn:Eb;
        try discriminate.
      apply can_recv_closed in Eb.
      change (quit (with_bchan (emit st [EvRecvSeq false None]) closed_chan))
        with (quit st).
      destruct (quit st) eqn:Eq; intros [= <-].
      * now apply Q_cancel.
      * apply Q_exhausted; auto. apply proceed_Proceed.
    + intros [= <-]. apply Q_gate; auto. apply proceed_Proceed.
    + intros [= <-]. apply X_quit; auto.
  - unfold step_merge.
    destruct i as [[r|]|[r|]|[r|]|[r|]| |]; try discriminate;
      try (intros [= <-]; apply X_quit; now auto);
      match goal with
      | |- (if can_recv ?c ?v then _ else _) = _ -> _ =>
          destruct (can_recv c v) eqn:Ec; try discriminate
      end; intros [= <-];
      first [ apply can_recv_value in Ec | apply can_recv_closed in Ec ].
    + now apply merge_value with SrcB.
    + now apply merge_close with (c := SrcB).
    + now apply merge_value with SrcBF.
    + now apply merge_close with (c := SrcBF).
    + now apply merge_value with SrcEF.
    + now apply merge_close with (c := SrcEF).
    + now apply merge_value with SrcE.
    + now apply merge_close with (c := SrcE).
Qed.

(** Induction over the runs of one call. *)
Lemma identify_ind (P : state Seq -> Prop) m c :
  (forall st, Start m (c_buf c) (c_quit c) st -> P st) ->
  (forall st i st', P st -> Step st i st' -> P st') ->
  forall st, identify m c = Some st -> P st.
Proof.
  intros H0 HS st H. unfold identify in H.
  refine (@run_invariant P _ (c_inputs c)
            (identify_start m (c_buf c) (c_quit c)) st _ H).
  - intros s i s' Hs Hst. apply (HS s i s' Hs). now apply step_Step.
  - apply H0, start_Start.
Qed.

(** *** The output channel *)

Ltac inv_decode :=
  match goal with
  | H : decode _ ?i = Some _ |- _ =>
      destruct i as [[?|]|[?|]|[?|]|[?|]| |]; simpl in H;
      inversion H; subst; clear H
  end.

Lemma closed_once_proceed st st' :
  Proceed st st' -> closes (trace st) = 0%nat -> closed_once st'.
Proof.
  intros [] Hc; unfold closed_once, all_nil; simpl;
    rewrite ?closes_app, ?rev_app_distr, ?Hc; simpl;
    intuition discriminate.
Qed.

Lemma closed_once_run m c st :
  identify m c = Some st -> closed_once st.
Proof.
  revert st; apply identify_ind.
  - intros st [].
    1-3: unfold closed_once; simpl; auto.
    eapply closed_once_proceed; eauto.
  - intros st i st' IH Hs. unfold closed_once in IH.
    destruct Hs;
      repeat match goal with
        | H : at_pc _ = _ |- _ => rewrite H in IH
        | H : _ \/ _ |- _ => destruct H
        end;
      try (eapply closed_once_proceed; [eassumption|]; simpl;
           rewrite closes_app; destruct IH as [-> _]; reflexivity);
      try inv_decode;
      unfold closed_once, all_nil in *; simpl in *;
      rewrite ?closes_app, ?rev_app_distr; simpl;
      try match goal with H : at_pc _ = _ |- _ => rewrite H end;
      destruct IH as [IH1 IH2]; rewrite ?IH1; simpl;
      intuition (try discriminate; try congruence).
Qed.

Lemma closes_In tr : In EvClose tr -> (1 <= closes tr)%nat.
Proof.
  induction tr as [|e tr IH]; simpl; [tauto|].
  intros [->|H]; unfold closes in *; simpl; [lia|].
  specialize (IH H). destruct (is_close e); simpl; lia.
Qed.

Lemma rev_head tr (e : event Seq) r : rev tr = e :: r -> tr = rev r ++ [e].
Proof.
  intros H. rewrite <- (rev_involutive tr), H. reflexivity.
Qed.

(** One close, and it is the latest event: nothing follows it. *)
Lemma close_is_last tr r :
  closes tr = 1%nat -> rev tr = EvClose :: r ->
  forall t1 t2, tr = t1 ++ EvClose :: t2 -> t2 = [].
Proof.
  intros H1 Hr t1 t2 ->.
  rewrite closes_app in H1.
  change (EvClose :: t2) with ([@EvClose Seq] ++ t2) in H1.
  rewrite closes_app in H1. unfold closes at 2 in H1; simpl in H1.
  rewrite rev_app_distr in Hr; simpl in Hr.
  destruct (rev t2) as [|x l] eqn:E.
  - apply (f_equal (@rev _)) in E. now rewrite rev_involutive in E.
  - simpl in Hr. injection Hr as -> _.
    assert (In (@EvClose Seq) t2).
    { apply in_rev. rewrite E. now left. }
    apply closes_In in H. lia.
Qed.

(** C1: on every path through [identify] the output channel is closed at
    most once and nothing is logged after the close; it is closed if and
    only if the call has returned, and then exactly once, as the last
    action, after which the call takes no step: on each of the three
    returns (cancellation seen at the close of the forward-sequence
    channel, reverse-reader error, exhaustion).  In the second loop the
    return is taken precisely when all four channel variables are nil. *)
Theorem C1_output_closed_exactly_once m c st :
  identify m c = Some st ->
  (closes (trace st) <= 1)%nat /\
  (forall t1 t2, trace st = t1 ++ EvClose :: t2 -> t2 = []) /\
  ((forall x, at_pc st <> Returned x) -> closes (trace st) = 0%nat) /\
  (forall x, at_pc st = Returned x ->
     closes (trace st) = 1%nat /\
     (exists tr, trace st = tr ++ [EvClose] /\ closes tr = 0%nat) /\
     forall i, step st i = None) /\
  (at_pc st = Returned ExitQuit ->
     exists tr, trace st = tr ++ [EvRecvSeq false None; EvClose]) /\
  (at_pc st = Returned ExitErr ->
     exists tr, trace st = tr ++ [EvReverseErr; EvClose]) /\
  (at_pc st = InMerge -> ~ all_nil st) /\
  (forall x, at_pc st = Returned x -> (x = ExitDone <-> all_nil st)).
Proof.
  intros H. apply closed_once_run in H. unfold closed_once in H.
  assert (Hnone : closes (trace st) = 0%nat ->
                  forall t1 t2, trace st = t1 ++ EvClose :: t2 -> t2 = []).
  { intros H0 t1 t2 E. rewrite E, closes_app in H0.
    change (EvClose :: t2) with ([@EvClose Seq] ++ t2) in H0.
    rewrite closes_app in H0. unfold closes at 2 in H0. simpl in H0. lia. }
  destruct (at_pc st) as [| |x|] eqn:Epc.
  - destruct H as [H _].
    refine (conj _ (conj _ (conj _ (conj _ (conj _ (conj _ (conj _ _)))))));
      try congruence; try lia; auto; try (apply Hnone; assumption).
  - destruct H as [H Hn].
    refine (conj _ (conj _ (conj _ (conj _ (conj _ (conj _ (conj _ _)))))));
      try congruence; try lia; auto; try (apply Hnone; assumption).
  - destruct H as [H1 H2].
    assert (Hlast : exists r, rev (trace st) = EvClose :: r).
    { destruct x; destruct (rev (trace st)) as [|[] ?]; try tauto; eauto. }
    destruct Hlast as [r Hr].
    assert (Hsplit : exists tr, trace st = tr ++ [EvClose] /\ closes tr = 0%nat).
    { exists (rev r). split; [now apply rev_head|].
      rewrite (rev_head _ Hr), closes_app in H1.
      unfold closes at 2 in H1; simpl in H1. lia. }
    refine (conj _ (conj _ (conj _ (conj _ (conj _ (conj _ (conj _ _)))))));
      try congruence; try lia.
    + eapply close_is_last; eauto.
    + intros x' [= <-]. split; [auto|]. split; [auto|].
      intros i. unfold step. now rewrite Epc.
    + intros [= ->]. rewrite Hr in H2.
      destruct r as [|[ | | | | | |[] [|]| | | | ] r']; try tauto.
      exists (rev r'). apply rev_head in Hr. rewrite Hr. simpl.
      now rewrite <- app_assoc.
    + intros [= ->]. rewrite Hr in H2.
      destruct r as [|[] r']; try tauto.
      exists (rev r'). apply rev_head in Hr. rewrite Hr. simpl.
      now rewrite <- app_assoc.
    + intros x' [= <-]. rewrite Hr in H2. split.
      * intros ->. assumption.
      * intros Hall. destruct x; auto.
        -- destruct r as [|[ | | | | | |[] [|]| | | | ] r']; tauto.
        -- destruct r as [|[] r']; tauto.
  - refine (conj _ (conj _ (conj _ (conj _ (conj _ (conj _ (conj _ _)))))));
      try congruence; try lia; auto; try (apply Hnone; assumption).
Qed.

(** *** The first loop only logs forward-sequence traffic *)

Lemma strike_b_flags m r s :
  strike_b m r = Some s ->
  index (TestTreeIndex (BOFSeq m)) (fst (wac.Index r)) = Some (nodeRef s) /\
  subKey s = snd (wac.Index r) /\ offset s = wac.Offset r /\
  length s = wac.Length r /\
  reverse s = false /\ frame s = false /\ final s = wac.Final r.
Proof.
  unfold strike_b.
  destruct (index _ _) as [n|]; intros [= <-]; simpl; auto 10.
Qed.

Lemma strike_e_flags m r s :
  strike_e m r = Some s ->
  index (TestTreeIndex (EOFSeq m)) (fst (wac.Index r)) = Some (nodeRef s) /\
  subKey s = snd (wac.Index r) /\ offset s = wac.Offset r /\
  length s = wac.Length r /\
  reverse s = true /\ frame s = false /\ final s = wac.Final r.
Proof.
  unfold strike_e.
  destruct (index _ _) as [n|]; intros [= <-]; simpl; auto 10.
Qed.

Lemma strike_bf_flags m r s :
  strike_bf m r = Some s ->
  index (fTestTreeIndex (BOFFrames m)) (frames.Idx r) = Some (nodeRef s) /\
  subKey s = 0 /\ offset s = frames.Off r /\ length s = frames.Length r /\
  reverse s = false /\ frame s = true /\ final s = true.
Proof.
  unfold strike_bf.
  destruct (index _ _) as [n|]; intros [= <-]; simpl; auto 10.
Qed.

Lemma strike_ef_flags m r s :
  strike_ef m r = Some s ->
  index (fTestTreeIndex (EOFFrames m)) (frames.Idx r) = Some (nodeRef s) /\
  subKey s = 0 /\ offset s = frames.Off r /\ length s = frames.Length r /\
  reverse s = true /\ frame s = true /\ final s = true.
Proof.
  unfold strike_ef.
  destruct (index _ _) as [n|]; intros [= <-]; simpl; auto 10.
Qed.

Lemma Proceed_pc st st' :
  Proceed st st' ->
  at_pc st' = InMerge \/ at_pc st' = Returned ExitErr \/ at_pc st' = Panicked.
Proof. intros []; simpl; auto. Qed.

Lemma forallb_weaken (A : Type) (f g : A -> bool) l :
  (forall x, f x = true -> g x = true) ->
  forallb f l = true -> forallb g l = true.
Proof.
  intros Hfg. rewrite !forallb_forall. auto.
Qed.

Lemma seq_only_inv_run m c st : identify m c = Some st -> seq_only_inv st.
Proof.
  revert st; apply identify_ind.
  - intros st [].
    1-3: unfold seq_only_inv; simpl; auto.
    unfold seq_only_inv.
    destruct (Proceed_pc H0) as [->|[->| ->]]; exact I.
  - intros st i st' IH Hs. unfold seq_only_inv in IH.
    destruct Hs;
      repeat match goal with
        | H : at_pc _ = _ |- _ => rewrite H in IH
        | H : _ \/ _ |- _ => destruct H
        end;
      try (unfold seq_only_inv;
           match goal with
           | H : Proceed _ _ |- _ =>
               destruct (Proceed_pc H) as [->|[->| ->]]; exact I
           end);
      try inv_decode;
      unfold seq_only_inv; simpl;
      try match goal with H : at_pc _ = _ |- _ => rewrite H end;
      rewrite ?forallb_app; simpl; auto.
    + apply strike_b_flags in H1. destruct H1 as (_ & _ & _ & _ & -> & -> & _).
      now rewrite IH.
    + rewrite !andb_true_r.
      eapply forallb_weaken; [|exact IH].
      intros x ->; reflexivity.
Qed.

(** *** Every strike sent wraps a result received *)

Lemma sent_app tr1 tr2 : sent (tr1 ++ tr2) = sent tr1 ++ sent tr2.
Proof. unfold sent. apply flat_map_app. Qed.

Lemma same_config_refl m : same_config m m.
Proof. unfold same_config; auto 10. Qed.

Lemma same_config_strikes m1 m2 :
  same_config m1 m2 ->
  (forall r, strike_b m1 r = strike_b m2 r) /\
  (forall r, strike_e m1 r = strike_e m2 r) /\
  (forall r, strike_bf m1 r = strike_bf m2 r) /\
  (forall r, strike_ef m1 r = strike_ef m2 r).
Proof.
  intros (H1 & H2 & H3 & H4 & _).
  unfold strike_b, strike_e, strike_bf, strike_ef.
  rewrite H1, H2, H3, H4. auto.
Qed.

Lemma explained_proceed m0 st st' :
  Proceed st st' -> explained m0 st -> explained m0 st'.
Proof.
  unfold explained, same_config.
  intros [] [Hc Hs]; simpl; split; auto;
    rewrite !sent_app, !flat_map_app, Hs; simpl; rewrite ?app_nil_r; auto.
Qed.

Lemma explained_run m c st : identify m c = Some st -> explained m st.
Proof.
  revert st; apply identify_ind.
  - intros st [].
    1-3: unfold explained, same_config; simpl; auto 10.
    eapply explained_proceed; eauto.
    unfold explained; simpl; split; auto using same_config_refl.
  - intros st i st' [Hc Hs] Hstep.
    destruct (same_config_strikes Hc) as (Eb & Ee & Ebf & Eef).
    destruct Hstep;
      try (eapply explained_proceed; [eassumption|]);
      try inv_decode; try destruct c0;
      unfold explained; simpl; split; auto;
      rewrite ?sent_app, ?flat_map_app, ?Hs; simpl;
      rewrite <- ?Eb, <- ?Ee, <- ?Ebf, <- ?Eef;
      repeat match goal with H : _ = Some _ |- _ => rewrite H
                        | H : _ = None |- _ => rewrite H end;
      simpl; rewrite ?app_nil_r; auto.
Qed.

(** Where a sent strike comes from. *)
Lemma sent_source m c st s :
  identify m c = Some st -> In s (sent (trace st)) ->
  (exists r, In (EvRecvSeq false (Some r)) (trace st) /\ strike_b m r = Some s) \/
  (exists r, In (EvRecvSeq true (Some r)) (trace st) /\ strike_e m r = Some s) \/
  (exists r, In (EvRecvFrame false (Some r)) (trace st) /\ strike_bf m r = Some s) \/
  (exists r, In (EvRecvFrame true (Some r)) (trace st) /\ strike_ef m r = Some s).
Proof.
  intros H Hin. destruct (explained_run _ _ H) as [_ Hs].
  rewrite Hs in Hin. apply in_flat_map in Hin. destruct Hin as (e & He & Hw).
  destruct e as [ | | | | | |[] [r|]|[] [r|]| | | ]; simpl in Hw; try tauto.
  - right; left. exists r. split; auto.
    destruct (strike_e m r); simpl in Hw; intuition congruence.
  - left. exists r. split; auto.
    destruct (strike_b m r); simpl in Hw; intuition congruence.
  - right; right; right. exists r. split; auto.
    destruct (strike_ef m r); simpl in Hw; intuition congruence.
  - right; right; left. exists r. split; auto.
    destruct (strike_bf m r); simpl in Hw; intuition congruence.
Qed.

(** C8: the strikes sent are, in order, the wrappings of the results
    received; a strike wrapped from a forward-sequence result has
    reverse=false, frame=false and the engine's final flag, one from a
    reverse-sequence result reverse=true, frame=false and the engine's
    final flag, one from the BOF frame matcher reverse=false, frame=true,
    final=true, one from the EOF frame matcher reverse=true, frame=true,
    final=true; in each case nodeRef is the entry, at the engine's index,
    of the table selected by the strike's (reverse, frame). *)
Theorem C8_flags_by_source m c st :
  identify m c = Some st ->
  sent (trace st) = flat_map (wrapped m) (trace st) /\
  forall s, In s (sent (trace st)) ->
    (frame s = true -> final s = true) /\
    ((exists br, In (EvRecvSeq false (Some br)) (trace st) /\
        reverse s = false /\ frame s = false /\ final s = wac.Final br /\
        index (table m (reverse s) (frame s)) (fst (wac.Index br))
          = Some (nodeRef s)) \/
     (exists er, In (EvRecvSeq true (Some er)) (trace st) /\
        reverse s = true /\ frame s = false /\ final s = wac.Final er /\
        index (table m (reverse s) (frame s)) (fst (wac.Index er))
          = Some (nodeRef s)) \/
     (exists bf, In (EvRecvFrame false (Some bf)) (trace st) /\
        reverse s = false /\ frame s = true /\ final s = true /\
        index (table m (reverse s) (frame s)) (frames.Idx bf)
          = Some (nodeRef s)) \/
     (exists ef, In (EvRecvFrame true (Some ef)) (trace st) /\
        reverse s = true /\ frame s = true /\ final s = true /\
        index (table m (reverse s) (frame s)) (frames.Idx ef)
          = Some (nodeRef s))).
Proof.
  intros H. split; [apply (explained_run _ _ H)|].
  intros s Hin.
  destruct (sent_source m c s H Hin) as [(r & Hr & Hs)|[(r & Hr & Hs)|[(r & Hr & Hs)|(r & Hr & Hs)]]].
  - apply strike_b_flags in Hs.
    destruct Hs as (Hi & _ & _ & _ & Hrev & Hfr & Hfin).
    split; [congruence|]. left. exists r. rewrite Hrev, Hfr. auto.
  - apply strike_e_flags in Hs.
    destruct Hs as (Hi & _ & _ & _ & Hrev & Hfr & Hfin).
    split; [congruence|]. right; left. exists r. rewrite Hrev, Hfr. auto.
  - apply strike_bf_flags in Hs.
    destruct Hs as (Hi & _ & _ & _ & Hrev & Hfr & Hfin).
    split; [auto|]. right; right; left. exists r. rewrite Hrev, Hfr. auto.
  - apply strike_ef_flags in Hs.
    destruct Hs as (Hi & _ & _ & _ & Hrev & Hfr & Hfin).
    split; [auto|]. right; right; right. exists r. rewrite Hrev, Hfr. auto.
Qed.

(** C10: a strike sent with frame=true, from either frame matcher, has
    subKey 0; a strike with a non-zero subKey is a sequence strike and its
    subKey is the second index of the engine's result. *)
Theorem C10_frame_subkey_zero m c st s :
  identify m c = Some st -> In s (sent (trace st)) ->
  (frame s = true -> subKey s = 0) /\
  (subKey s <> 0 ->
   frame s = false /\
   exists rev r, In (EvRecvSeq rev (Some r)) (trace st) /\
                 reverse s = rev /\ subKey s = snd (wac.Index r)).
Proof.
  intros H Hin.
  destruct (sent_source m c s H Hin) as [(r & Hr & Hs)|[(r & Hr & Hs)|[(r & Hr & Hs)|(r & Hr & Hs)]]].
  - apply strike_b_flags in Hs.
    destruct Hs as (_ & Hk & _ & _ & Hrev & Hfr & _).
    split; [congruence|]. intros _. split; auto. exists false, r. auto.
  - apply strike_e_flags in Hs.
    destruct Hs as (_ & Hk & _ & _ & Hrev & Hfr & _).
    split; [congruence|]. intros _. split; auto. exists true, r. auto.
  - apply strike_bf_flags in Hs.
    destruct Hs as (_ & Hk & _). split; [auto|]. intros Hn. contradiction.
  - apply strike_ef_flags in Hs.
    destruct Hs as (_ & Hk & _). split; [auto|]. intros Hn. contradiction.
Qed.

(** *** What a call never changes *)

Lemma base_proceed m bf st st' : Proceed st st' -> base m bf st -> base m bf st'.
Proof.
  unfold base, same_config. intros Hp Hb; destruct Hp; simpl; exact Hb.
Qed.

Lemma base_start m bf q st : Start m bf q st -> base m bf st.
Proof.
  intros Hs; destruct Hs.
  1-3: unfold base, same_config; simpl; auto 10.
  eapply base_proceed; eauto. split; simpl; auto using same_config_refl.
Qed.

Lemma base_step m bf st i st' : Step st i st' -> base m bf st -> base m bf st'.
Proof.
  intros Hs Hb; destruct Hs; try (eapply base_proceed; [eassumption|]);
    try destruct c; exact Hb.
Qed.

Lemma base_run m c st : identify m c = Some st -> base m (c_buf c) st.
Proof.
  revert st; apply identify_ind.
  - intros st. apply base_start.
  - intros st i st' H Hs. eapply base_step; eauto.
Qed.

(** Induction over the runs of one call, with [base] at hand. *)
Lemma identify_ind_base (P : state Seq -> Prop) m c :
  (forall st, Start m (c_buf c) (c_quit c) st -> P st) ->
  (forall st i st', base m (c_buf c) st -> P st -> Step st i st' -> P st') ->
  forall st, identify m c = Some st -> P st.
Proof.
  intros H0 HS st H.
  enough (base m (c_buf c) st /\ P st) by tauto.
  revert st H. apply identify_ind.
  - intros st Hs. split; [eapply base_start; eauto | auto].
  - intros st i st' [Hb HP] Hs. split; [eapply base_step; eauto | eauto].
Qed.

Lemma reverse_reader_config m1 m2 bf :
  same_config m1 m2 -> reverse_reader m1 bf = reverse_reader m2 bf.
Proof.
  intros (_ & _ & _ & _ & _ & H). unfold reverse_reader. now rewrite H.
Qed.

Lemma base_reverse_reader m bf st :
  base m bf st -> reverse_reader (b st) (buf st) = reverse_reader m bf.
Proof. intros [-> H]. now apply reverse_reader_config. Qed.

(** *** A sequence channel that was never made *)

Lemma chan_inv_proceed m bf st st' :
  Proceed st st' -> base m bf st -> chan_inv m bf st -> chan_inv m bf st'.
Proof.
  intros Hp Hb [H1 H2]. pose proof (base_reverse_reader Hb) as Er.
  unfold chan_inv, rrdr_some in *.
  destruct Hp; rewrite Er in *;
    match goal with H : reverse_reader _ _ = _ |- _ => rewrite H in * end;
    simpl; split; intros Hx; try discriminate;
    try (destruct (H1 Hx) as [-> E]);
    try (destruct (H2 Hx) as [-> E]);
    split; auto; rewrite ?existsb_app, E; reflexivity.
Qed.

Lemma chan_inv_run m c st :
  identify m c = Some st -> chan_inv m (c_buf c) st.
Proof.
  revert st; apply identify_ind_base.
  - intros st Hs. destruct Hs as [ | | |st Hf Hp].
    1-3: unfold chan_inv; simpl; split; intros Hx; try congruence; auto.
    eapply chan_inv_proceed; [eassumption| |].
    + split; simpl; auto using same_config_refl.
    + unfold chan_inv; simpl; auto.
  - intros st i st' Hb [H1 H2] Hs.
    destruct Hs;
      try (eapply chan_inv_proceed; [eassumption| exact Hb |]);
      try inv_decode; try destruct c0;
      unfold chan_inv in *; simpl in *;
      (split; intros Hx;
       [ destruct (H1 Hx) as [E1 E2] | destruct (H2 Hx) as [E1 E2] ]);
      try congruence;
      rewrite ?existsb_app, ?E2; simpl; auto.
Qed.

(** *** The engines: built when, started on what *)

Lemma builds_app rev tr1 tr2 :
  builds rev (tr1 ++ tr2) = (builds rev tr1 + builds rev tr2)%nat.
Proof. unfold builds. now rewrite filter_app, length_app. Qed.

Lemma quiet_builds rev (evs : list (event Seq)) :
  forallb quiet_evb evs = true -> builds rev evs = 0%nat.
Proof.
  induction evs as [|e evs IH]; simpl; auto.
  intros H. apply andb_true_iff in H. destruct H as [He H].
  unfold builds in *; simpl. destruct e; simpl in *; try discriminate; auto.
Qed.

Lemma quiet_frames (evs : list (event Seq)) :
  forallb quiet_evb evs = true -> existsb is_frames evs = false.
Proof.
  induction evs as [|e evs IH]; simpl; auto.
  intros H. apply andb_true_iff in H. destruct H as [He H].
  destruct e; simpl in *; try discriminate; auto.
Qed.

Lemma quiet_index_ok m bf (evs : list (event Seq)) :
  forallb quiet_evb evs = true -> Forall (index_ok m bf) evs.
Proof.
  induction evs as [|e evs IH]; simpl; auto.
  intros H. apply andb_true_iff in H. destruct H as [He H].
  constructor; auto. destruct e; simpl in *; try discriminate; auto.
Qed.

Lemma after_init_keeps m bf :
  same_config (after_init m bf) m /\
  estarted (after_init m bf) = estarted m /\
  eAho (after_init m bf) = eAho m.
Proof.
  unfold after_init, start_bof, same_config.
  destruct (isSome (forward_reader m bf) && negb (bstarted m)); simpl; auto 10.
Qed.

Lemma after_setup_keeps m bf :
  same_config (after_setup m bf) m /\
  bstarted (after_setup m bf) = bstarted (after_init m bf) /\
  bAho (after_setup m bf) = bAho (after_init m bf).
Proof.
  destruct (after_init_keeps m bf) as (Hc & _).
  unfold after_setup, start_eof.
  destruct (reverse_reader m bf) as [rrdr|]; auto.
  destruct (isSome rrdr && negb (estarted (after_init m bf))); simpl; auto.
Qed.

Lemma engine_inv_quiet m bf st st' evs :
  engine_inv m bf st ->
  buf st' = buf st -> b st' = b st -> trace st' = trace st ++ evs ->
  forallb quiet_evb evs = true ->
  (at_pc st' = InSeqOnly -> at_pc st = InSeqOnly) ->
  engine_inv m bf st'.
Proof.
  intros (H0 & H1 & H2 & H3 & H4 & H5) Eb Em Et Hq Hpc.
  unfold engine_inv. rewrite Eb, Em, Et.
  rewrite !builds_app, existsb_app, Forall_app.
  rewrite (quiet_builds _ _ Hq), (quiet_builds _ _ Hq), (quiet_frames _ Hq).
  rewrite !Nat.add_0_r, orb_false_r.
  repeat split; auto using quiet_index_ok.
Qed.

Lemma engine_inv_proceed m bf st st' :
  Proceed st st' -> engine_inv m bf st ->
  existsb is_frames (trace st) = false -> engine_inv m bf st'.
Proof.
  intros Hp (_ & Hb & Hm & Hbf & Hbr & Hix) Hfr.
  rewrite Hfr in Hm, Hbr. simpl in Hbr.
  destruct (after_init_keeps m bf) as (Hc & Hes & Hea).
  assert (Er : reverse_reader (b st) (buf st) = reverse_reader m bf).
  { rewrite Hb, Hm. now apply reverse_reader_config. }
  assert (Hset : EOFSeq (b st) = EOFSeq m).
  { rewrite Hm. apply Hc. }
  assert (Hsetup : forall r,
             reverse_reader m bf = inl (Some r) ->
             after_setup m bf = fst (start_eof (after_init m bf) (Some r))).
  { intros r E. unfold after_setup. now rewrite E. }
  unfold engine_inv, rrdr_some, after_setup.
  destruct Hp as [E|E|r a E Hs Ha|r a E Hs Ha|r E Hs Ha];
    rewrite Er in E; simpl;
    rewrite !builds_app, !existsb_app, !Forall_app, E, Hbf, Hbr; simpl;
    rewrite ?orb_true_r; simpl;
    try rewrite Hm in Hs; try rewrite Hm in Ha;
    (split; [discriminate|]); (split; [assumption|]);
    unfold builds; simpl; rewrite ?Nat.add_0_r.
  - repeat split; auto; repeat constructor; simpl; auto.
  - repeat split; auto; repeat constructor; simpl; auto.
  - rewrite <- Hes, Hs; simpl.
    repeat split; auto; repeat constructor; simpl; auto.
    + unfold start_eof. rewrite Hs; simpl. rewrite Hm. now subst a.
    + subst a. destruct Hc as (_ & -> & _). reflexivity.
    + rewrite (Hsetup r E). unfold start_eof. rewrite Hs; simpl.
      now subst a.
  - rewrite <- Hes, Hs; simpl.
    repeat split; auto; repeat constructor; simpl; auto.
    + unfold start_eof. rewrite Hs; simpl. exact Hm.
    + rewrite (Hsetup r E). unfold start_eof. rewrite Hs; simpl. exact Ha.
  - rewrite <- Hes, Hs; simpl.
    repeat split; auto; repeat constructor; simpl; auto.
    unfold start_eof. rewrite Hs; simpl. exact Hm.
Qed.

Lemma engine_inv_run m c st :
  identify m c = Some st -> engine_inv m (c_buf c) st.
Proof.
  revert st; apply identify_ind.
  - intros st Hs. destruct Hs as [r a Hr Hb Ha|r a Hr Hb Ha|r Hr Hb Ha|st Hr Hp].
    + unfold engine_inv, after_init, start_bof, builds; simpl.
      rewrite Hr, Hb; simpl. subst a.
      repeat split; auto; repeat constructor; simpl; auto.
      unfold after_init, start_bof. now rewrite Hr, Hb.
    + unfold engine_inv, after_init, start_bof, builds; simpl.
      rewrite Hr, Hb; simpl.
      repeat split; auto; repeat constructor; simpl; auto.
      unfold after_init, start_bof. now rewrite Hr, Hb.
    + unfold engine_inv, after_init, start_bof, builds; simpl.
      rewrite Hr, Hb; simpl.
      repeat split; auto; try discriminate; repeat constructor; simpl; auto.
    + eapply engine_inv_proceed; [eassumption| |reflexivity].
      unfold engine_inv, after_init, start_bof, builds; simpl.
      rewrite Hr; simpl.
      repeat split; auto; repeat constructor; simpl; auto.
  - intros st i st' IH Hs.
    assert (Hfr : at_pc st = InSeqOnly -> existsb is_frames (trace st) = false)
      by apply IH.
    destruct Hs;
      try (eapply engine_inv_proceed; [eassumption| |];
           [ eapply engine_inv_quiet with (st := st);
             [exact IH|reflexivity|reflexivity|reflexivity|reflexivity|auto]
           | simpl; rewrite existsb_app, Hfr by assumption; reflexivity ]);
      try inv_decode; try destruct c0;
      try (eapply engine_inv_quiet with (st := st) (evs := [_; _]);
           [exact IH|reflexivity|reflexivity|
             simpl; now rewrite <- app_assoc|reflexivity|
             simpl; congruence]);
      try (eapply engine_inv_quiet with (st := st) (evs := [_]);
           [exact IH|reflexivity|reflexivity|reflexivity|reflexivity|
             simpl; congruence]);
      try (eapply engine_inv_quiet with (st := st) (evs := []);
           [exact IH|reflexivity|reflexivity|
             simpl; now rewrite app_nil_r|reflexivity|
             simpl; congruence]).
Qed.

(** *** Readers by the sign of the limits *)

Lemma forward_reader_sign m bf :
  (0 < MaxBOF m -> forward_reader m bf = Some (LimitReader (MaxBOF m))) /\
  (MaxBOF m < 0 -> forward_reader m bf = Some FullReader) /\
  (MaxBOF m = 0 -> forward_reader m bf = None).
Proof.
  unfold forward_reader, NewLimitReader, NewReader.
  destruct (0 <? MaxBOF m) eqn:E1; destruct (MaxBOF m <? 0) eqn:E2;
    rewrite ?Z.ltb_lt, ?Z.ltb_ge in *; repeat split; intros; auto; lia.
Qed.

Lemma reverse_reader_sign m bf :
  (0 < MaxEOF m ->
   reverse_reader m bf =
   if limit_reverse_fails bf (MaxEOF m) then inr tt
   else inl (Some (LimitReverseReader (MaxEOF m)))) /\
  (MaxEOF m < 0 ->
   reverse_reader m bf =
   if reverse_fails bf then inr tt else inl (Some ReverseReader)) /\
  (MaxEOF m = 0 -> reverse_reader m bf = inl None).
Proof.
  unfold reverse_reader, NewLimitReverseReader, NewReverseReader.
  destruct (0 <? MaxEOF m) eqn:E1; destruct (MaxEOF m <? 0) eqn:E2;
    rewrite ?Z.ltb_lt, ?Z.ltb_ge in *; repeat split; intros; try lia;
    try destruct (limit_reverse_fails bf (MaxEOF m));
    try destruct (reverse_fails bf); auto.
Qed.

Lemma forward_reader_which m bf r :
  forward_reader m bf = Some r ->
  (0 < MaxBOF m /\ r = LimitReader (MaxBOF m)) \/
  (MaxBOF m < 0 /\ r = FullReader).
Proof.
  destruct (forward_reader_sign m bf) as (H1 & H2 & H3).
  destruct (Z.lt_trichotomy (MaxBOF m) 0) as [H|[H|H]]; intros E.
  - rewrite (H2 H) in E. injection E as <-. auto.
  - rewrite (H3 H) in E. discriminate.
  - rewrite (H1 H) in E. injection E as <-. auto.
Qed.

Lemma reverse_reader_which m bf r :
  reverse_reader m bf = inl (Some r) ->
  (0 < MaxEOF m /\ r = LimitReverseReader (MaxEOF m)) \/
  (MaxEOF m < 0 /\ r = ReverseReader).
Proof.
  destruct (reverse_reader_sign m bf) as (H1 & H2 & H3).
  destruct (Z.lt_trichotomy (MaxEOF m) 0) as [H|[H|H]]; intros E.
  - rewrite (H2 H) in E. destruct (reverse_fails bf); [discriminate|].
    injection E as <-. auto.
  - rewrite (H3 H) in E. discriminate.
  - rewrite (H1 H) in E.
    destruct (limit_reverse_fails bf (MaxEOF m)); [discriminate|].
    injection E as <-. auto.
Qed.

(** The trace only grows. *)
Lemma Proceed_extends st st' :
  Proceed st st' -> exists evs, trace st' = trace st ++ evs.
Proof.
  intros Hp; destruct Hp; simpl; rewrite <- ?app_assoc; eauto.
Qed.

Lemma Step_extends st i st' :
  Step st i st' -> exists evs, trace st' = trace st ++ evs.
Proof.
  intros Hs; destruct Hs;
    try (match goal with H : Proceed _ _ |- _ =>
           apply Proceed_extends in H; destruct H as [evs ->] end);
    try destruct c; simpl; rewrite <- ?app_assoc; eauto.
  exists []. now rewrite app_nil_r.
Qed.

Lemma run_extends ins : forall st st',
  run st ins = Some st' -> exists evs, trace st' = trace st ++ evs.
Proof.
  induction ins as [|i ins IH]; simpl; intros st st' H.
  - injection H as <-. exists []. now rewrite app_nil_r.
  - destruct (step st i) as [st1|] eqn:E; [|discriminate].
    apply step_Step, Step_extends in E. destruct E as [e1 E1].
    destruct (IH _ _ H) as [e2 E2]. exists (e1 ++ e2).
    now rewrite E2, E1, app_assoc.
Qed.

(** *** Well-formed Matchers stay well-formed, and do not panic on a
    nil engine *)

Lemma wf_after_init m bf : wf m -> wf (after_init m bf).
Proof.
  unfold wf, after_init, start_bof. intros [H1 H2].
  destruct (isSome (forward_reader m bf) && negb (bstarted m)); simpl; auto.
Qed.

Lemma wf_after_setup m bf : wf m -> wf (after_setup m bf).
Proof.
  intros H. apply (wf_after_init bf) in H. revert H.
  unfold after_setup, start_eof.
  destruct (reverse_reader m bf) as [rrdr|]; auto.
  unfold wf. intros [H1 H2].
  destruct (isSome rrdr && negb (estarted (after_init m bf))); simpl; auto.
Qed.

Lemma wf_run m c st : identify m c = Some st -> wf m -> wf (b st).
Proof.
  intros H Hw. destruct (engine_inv_run _ _ H) as (_ & _ & -> & _).
  destruct (existsb is_frames (trace st));
    auto using wf_after_init, wf_after_setup.
Qed.

(** *** Moves that are always possible *)

Lemma step_gate st :
  at_pc st = InSeqOnly -> step st FromGate = Some (proceed (emit st [EvGate])).
Proof. intros H. unfold step. now rewrite H. Qed.

Lemma step_seq_value st r s :
  at_pc st = InSeqOnly -> bchan st = open_chan ->
  strike_b (b st) r = Some s ->
  step st (FromB (Some r)) =
  Some (emit (emit st [EvRecvSeq false (Some r)]) [EvSend SEQ_ONLY s]).
Proof.
  intros Hpc Hc Hs. unfold step, step_seq_only. rewrite Hpc, Hc; simpl.
  now rewrite Hs.
Qed.

Lemma step_seq_closed st :
  at_pc st = InSeqOnly -> bchan st = open_chan ->
  step st (FromB None) =
  Some (if quit st
        then close_return
               (with_bchan (emit st [EvRecvSeq false None]) closed_chan)
               ExitQuit
        else proceed
               (with_bchan (emit st [EvRecvSeq false None]) closed_chan)).
Proof.
  intros Hpc Hc. unfold step, step_seq_only. rewrite Hpc, Hc; simpl.
  now destruct (quit st).
Qed.

Lemma step_merge_b st r s :
  at_pc st = InMerge -> bchan st = open_chan ->
  strike_b (b st) r = Some s ->
  step st (FromB (Some r)) =
  Some (emit (emit st [EvRecvSeq false (Some r)]) [EvSend MERGE s]).
Proof.
  intros Hpc Hc Hs. unfold step, step_merge. rewrite Hpc, Hc; simpl.
  rewrite Hs; simpl. f_equal. now apply after_select_send with SrcB.
Qed.

Lemma step_merge_bf st r s :
  at_pc st = InMerge -> bfchan st = open_chan ->
  strike_bf (b st) r = Some s ->
  step st (FromBF (Some r)) =
  Some (emit (emit st [EvRecvFrame false (Some r)]) [EvSend MERGE s]).
Proof.
  intros Hpc Hc Hs. unfold step, step_merge. rewrite Hpc, Hc; simpl.
  rewrite Hs; simpl. f_equal. now apply after_select_send with SrcBF.
Qed.

Lemma step_merge_ef st r s :
  at_pc st = InMerge -> efchan st = open_chan ->
  strike_ef (b st) r = Some s ->
  step st (FromEF (Some r)) =
  Some (emit (emit st [EvRecvFrame true (Some r)]) [EvSend MERGE s]).
Proof.
  intros Hpc Hc Hs. unfold step, step_merge. rewrite Hpc, Hc; simpl.
  rewrite Hs; simpl. f_equal. now apply after_select_send with SrcEF.
Qed.

(** With a well-formed Matcher and a buffer whose reverse reader can be
    made, [proceed] reaches the second loop with both frame channels
    open. *)
Lemma proceed_reaches_merge st :
  wf (b st) -> reverse_reader (b st) (buf st) <> inr tt ->
  at_pc (proceed st) = InMerge /\
  bfchan (proceed st) = open_chan /\ efchan (proceed st) = open_chan /\
  bchan (proceed st) = bchan st /\
  same_config (b (proceed st)) (b st) /\
  sent (trace (proceed st)) = sent (trace st).
Proof.
  intros [_ Hw] Hr. unfold same_config.
  destruct (proceed_Proceed st) as [E|E|r a E Hs Ha|r a E Hs Ha|r E Hs Ha];
    simpl; rewrite ?sent_app; simpl; rewrite ?app_nil_r;
    try congruence; try (repeat split; reflexivity).
  rewrite (Hw Hs) in Ha. discriminate.
Qed.

Lemma reach_merge m bf :
  wf m -> reverse_reader m bf <> inr tt ->
  exists ins st,
    run (identify_start m bf false) ins = Some st /\
    at_pc st = InMerge /\
    bfchan st = open_chan /\ efchan st = open_chan /\
    same_config (b st) m /\ sent (trace st) = [].
Proof.
  intros Hw Hr. pose proof Hw as [Hwb Hwe]. unfold identify_start, start_bof.
  destruct (forward_reader m bf) as [r|] eqn:Ef; simpl.
  - assert (Hgo : forall S,
               at_pc S = InSeqOnly -> wf (b S) -> buf S = bf ->
               same_config (b S) m -> sent (trace S) = [] ->
               exists ins st,
                 run S ins = Some st /\ at_pc st = InMerge /\
                 bfchan st = open_chan /\ efchan st = open_chan /\
                 same_config (b st) m /\ sent (trace st) = []).
    { intros S Hpc HwS Hbuf Hc Hsent.
      exists [FromGate], (proceed (emit S [EvGate])). simpl.
      rewrite (step_gate _ Hpc).
      destruct (@proceed_reaches_merge (emit S [EvGate])) as (H1 & H2 & H3 & _ & H5 & H6).
      - exact HwS.
      - simpl. rewrite Hbuf, (reverse_reader_config bf Hc). exact Hr.
      - split; [reflexivity|]. split; [exact H1|].
        split; [exact H2|]. split; [exact H3|]. split.
        + destruct H5 as (A1 & A2 & A3 & A4 & A5 & A6).
          destruct Hc as (B1 & B2 & B3 & B4 & B5 & B6). simpl in *.
          unfold same_config. repeat split; congruence.
        + rewrite H6. simpl. rewrite sent_app, Hsent. reflexivity. }
    destruct (bstarted m) eqn:Es; simpl.
    + rewrite (Hwb eq_refl). apply Hgo; simpl; auto using same_config_refl.
    + apply Hgo; simpl; auto.
      * unfold wf; simpl. auto.
      * unfold same_config; simpl; auto 10.
  - exists [].
    match goal with |- context [proceed ?S] =>
      destruct (@proceed_reaches_merge S) as (H1 & H2 & H3 & _ & H5 & H6);
      [exact Hw | exact Hr | eexists; split; [reflexivity|]; auto 10]
    end.
Qed.

(** Both frame matchers can get a strike through, whatever the limits. *)
Lemma frames_possible m bf r1 r2 s1 s2 :
  wf m -> reverse_reader m bf <> inr tt ->
  strike_bf m r1 = Some s1 -> strike_ef m r2 = Some s2 ->
  exists c st,
    c_buf c = bf /\ identify m c = Some st /\ sent (trace st) = [s1; s2].
Proof.
  intros Hw Hr E1 E2.
  destruct (@reach_merge m bf Hw Hr) as (ins & st & Hrun & Hpc & Hbf & Hef & Hc & Hs).
  destruct (same_config_strikes Hc) as (_ & _ & Ebf & Eef).
  exists (mkCall bf false (ins ++ [FromBF (Some r1); FromEF (Some r2)])).
  eexists. split; [reflexivity|]. unfold identify; simpl.
  rewrite run_app, Hrun. simpl.
  rewrite (@step_merge_bf st r1 s1) by (auto; now rewrite Ebf).
  rewrite (@step_merge_ef _ r2 s2) by (auto; simpl; now rewrite Eef).
  split; [reflexivity|]. simpl. rewrite !sent_app, Hs. reflexivity.
Qed.

(** A call that is in, or returned from, the second loop got past the
    reverse reader, and started the reverse engine if it got a reader. *)
Lemma merge_indexed m c st :
  identify m c = Some st ->
  at_pc st = InMerge \/ at_pc st = Returned ExitDone ->
  reverse_reader m (c_buf c) <> inr tt /\
  (rrdr_some m (c_buf c) = true -> existsb (is_index true) (trace st) = true).
Proof.
  intros H; pattern st; revert st H; apply identify_ind_base.
  - intros st Hs.
    destruct Hs as [r a Hr Hb Ha|r a Hr Hb Ha|r Hr Hb Ha|st Hr Hp];
      try (simpl; intros [?|?]; discriminate).
    unfold rrdr_some.
    destruct Hp as [E|E|r a E Hs Ha|r a E Hs Ha|r E Hs Ha]; simpl in *;
      intros [?|?]; try discriminate; rewrite E;
      (split; [discriminate|]); intros Hx; try discriminate Hx;
      rewrite ?existsb_app; simpl; now rewrite ?orb_true_r.
  - intros st i st' Hb IH Hs.
    pose proof (base_reverse_reader Hb) as Er. unfold rrdr_some in *.
    destruct Hs;
      try (match goal with Hp : Proceed _ _ |- _ =>
             destruct Hp as [E|E|r a E Hs Ha|r a E Hs Ha|r E Hs Ha];
             simpl in *; rewrite Er in E;
             intros [?|?]; try discriminate; rewrite E;
             (split; [discriminate|]); intros Hx; try discriminate Hx;
             rewrite ?existsb_app; simpl; now rewrite ?orb_true_r
           end);
      try inv_decode; try destruct c0; simpl;
      try (intros [?|?]; congruence);
      intros Hpc;
      assert (Hpc0 : at_pc st = InMerge \/ at_pc st = Returned ExitDone)
        by (first [left; assumption | exact Hpc]);
      destruct (IH Hpc0) as [IH1 IH2]; (split; [exact IH1|]); intros Hx;
      rewrite ?existsb_app, (IH2 Hx); reflexivity.
Qed.

Lemma start_indexes m bf q r :
  wf m -> forward_reader m bf = Some r ->
  exists a, In (EvIndex false a r) (trace (identify_start m bf q)).
Proof.
  intros [Hw _] Hr. unfold identify_start, start_bof. rewrite Hr; simpl.
  destruct (bstarted m) eqn:Es; simpl.
  - rewrite (Hw eq_refl). simpl. eexists. right; right; left. reflexivity.
  - eexists. right; right; right; left. reflexivity.
Qed.

Lemma existsb_index_In rev (tr : list (event Seq)) :
  existsb (is_index rev) tr = true -> exists a r, In (EvIndex rev a r) tr.
Proof.
  intros H. apply existsb_exists in H. destruct H as (e & He & Hi).
  destruct e; simpl in Hi; try discriminate.
  apply eqb_prop in Hi. subst. eauto.
Qed.

Lemma existsb_false_In (A : Type) (f : A -> bool) l x :
  existsb f l = false -> In x l -> f x = false.
Proof.
  intros H Hin. destruct (f x) eqn:E; auto.
  assert (existsb f l = true) by (apply existsb_exists; eauto). congruence.
Qed.

Lemma no_seq_strikes m c st rev :
  identify m c = Some st ->
  existsb (is_recv_seq rev) (trace st) = false ->
  forall s, In s (sent (trace st)) -> ~ (reverse s = rev /\ frame s = false).
Proof.
  intros H Hno s Hin [Hrev Hfr].
  destruct (sent_source m c s H Hin)
    as [(r & Hr & Hs)|[(r & Hr & Hs)|[(r & Hr & Hs)|(r & Hr & Hs)]]].
  - apply strike_b_flags in Hs. destruct Hs as (_ & _ & _ & _ & Hv & _).
    apply (existsb_false_In _ _ _ Hno) in Hr. simpl in Hr.
    rewrite <- Hrev, Hv in Hr. discriminate.
  - apply strike_e_flags in Hs. destruct Hs as (_ & _ & _ & _ & Hv & _).
    apply (existsb_false_In _ _ _ Hno) in Hr. simpl in Hr.
    rewrite <- Hrev, Hv in Hr. discriminate.
  - apply strike_bf_flags in Hs. destruct Hs as (_ & _ & _ & _ & _ & Hv & _).
    congruence.
  - apply strike_ef_flags in Hs. destruct Hs as (_ & _ & _ & _ & _ & Hv & _).
    congruence.
Qed.

(** C3: each limit selects its reader by sign (positive: the
    length-limited reader over that end; negative: the full reader; zero:
    none), every start of a sequence engine logged by a call is on the
    reader so selected, and the engine is started whenever the limit is
    not zero (the forward one at once, the reverse one once the call is in
    the second loop).  With a limit of zero the engine of that end is not
    started, nothing is received from its channel and no sequence strike
    of that end is sent.  Whatever the limits, a call can send a strike
    from each of the two frame matchers. *)
Theorem C3_scan_limits_tri_state m c st :
  identify m c = Some st ->
  ((0 < MaxBOF m ->
    forward_reader m (c_buf c) = Some (LimitReader (MaxBOF m))) /\
   (MaxBOF m < 0 -> forward_reader m (c_buf c) = Some FullReader) /\
   (MaxBOF m = 0 -> forward_reader m (c_buf c) = None)) /\
  ((0 < MaxEOF m ->
    reverse_reader m (c_buf c) =
    if limit_reverse_fails (c_buf c) (MaxEOF m) then inr tt
    else inl (Some (LimitReverseReader (MaxEOF m)))) /\
   (MaxEOF m < 0 ->
    reverse_reader m (c_buf c) =
    if reverse_fails (c_buf c) then inr tt else inl (Some ReverseReader)) /\
   (MaxEOF m = 0 -> reverse_reader m (c_buf c) = inl None)) /\
  (forall a r, In (EvIndex false a r) (trace st) ->
     (0 < MaxBOF m /\ r = LimitReader (MaxBOF m)) \/
     (MaxBOF m < 0 /\ r = FullReader)) /\
  (forall a r, In (EvIndex true a r) (trace st) ->
     (0 < MaxEOF m /\ r = LimitReverseReader (MaxEOF m)) \/
     (MaxEOF m < 0 /\ r = ReverseReader)) /\
  (MaxBOF m <> 0 -> wf m -> exists a r, In (EvIndex false a r) (trace st)) /\
  (MaxEOF m <> 0 ->
   at_pc st = InMerge \/ at_pc st = Returned ExitDone ->
   exists a r, In (EvIndex true a r) (trace st)) /\
  (MaxBOF m = 0 ->
   (forall a r, ~ In (EvIndex false a r) (trace st)) /\
   (forall r, ~ In (EvRecvSeq false r) (trace st)) /\
   (forall s, In s (sent (trace st)) ->
              ~ (reverse s = false /\ frame s = false))) /\
  (MaxEOF m = 0 ->
   (forall a r, ~ In (EvIndex true a r) (trace st)) /\
   (forall r, ~ In (EvRecvSeq true r) (trace st)) /\
   (forall s, In s (sent (trace st)) ->
              ~ (reverse s = true /\ frame s = false))) /\
  (forall bf r1 r2 s1 s2,
     wf m -> reverse_reader m bf <> inr tt ->
     strike_bf m r1 = Some s1 -> strike_ef m r2 = Some s2 ->
     exists c' st',
       c_buf c' = bf /\ identify m c' = Some st' /\
       sent (trace st') = [s1; s2] /\
       reverse s1 = false /\ frame s1 = true /\
       reverse s2 = true /\ frame s2 = true).
Proof.
  intros H.
  destruct (engine_inv_run _ _ H) as (_ & _ & _ & _ & _ & Hix).
  rewrite Forall_forall in Hix.
  destruct (chan_inv_run _ _ H) as [Hcb Hce].
  destruct (forward_reader_sign m (c_buf c)) as (F1 & F2 & F3).
  destruct (reverse_reader_sign m (c_buf c)) as (R1 & R2 & R3).
  split; [auto|]. split; [auto|].
  split; [|split; [|split; [|split; [|split; [|split]]]]].
  - intros a r Hin. apply Hix in Hin. simpl in Hin.
    apply forward_reader_which with (c_buf c). tauto.
  - intros a r Hin. apply Hix in Hin. simpl in Hin.
    apply reverse_reader_which with (c_buf c). tauto.
  - intros Hne Hw.
    destruct (forward_reader m (c_buf c)) as [r|] eqn:Er.
    + destruct (start_indexes (c_buf c) (c_quit c) Hw Er) as [a Ha].
      unfold identify in H. destruct (run_extends _ _ H) as [evs ->].
      exists a, r. apply in_or_app. now left.
    + destruct (Z.lt_trichotomy (MaxBOF m) 0) as [Hs|[Hs|Hs]];
        [specialize (F2 Hs) | contradiction | specialize (F1 Hs)];
        discriminate.
  - intros Hne Hpc. destruct (merge_indexed _ _ H Hpc) as [Hok Hsome].
    apply existsb_index_In, Hsome. unfold rrdr_some.
    destruct (Z.lt_trichotomy (MaxEOF m) 0) as [Hs|[Hs|Hs]];
      [rewrite (R2 Hs) in * | contradiction | rewrite (R1 Hs) in *].
    + destruct (reverse_fails (c_buf c)); [now elim Hok | reflexivity].
    + destruct (limit_reverse_fails (c_buf c) (MaxEOF m));
        [now elim Hok | reflexivity].
  - intros H0. destruct (Hcb (F3 H0)) as [_ Hno]. split; [|split].
    + intros a r Hin. apply Hix in Hin. simpl in Hin.
      rewrite (F3 H0) in Hin. destruct Hin; discriminate.
    + intros r Hin. apply (existsb_false_In _ _ _ Hno) in Hin.
      discriminate.
    + now apply no_seq_strikes with m c.
  - intros H0.
    assert (Hn : rrdr_some m (c_buf c) = false)
      by (unfold rrdr_some; now rewrite (R3 H0)).
    destruct (Hce Hn) as [_ Hno]. split; [|split].
    + intros a r Hin. apply Hix in Hin. simpl in Hin.
      rewrite (R3 H0) in Hin. destruct Hin; discriminate.
    + intros r Hin. apply (existsb_false_In _ _ _ Hno) in Hin.
      discriminate.
    + now apply no_seq_strikes with m c.
  - intros bf r1 r2 s1 s2 Hw Hr E1 E2.
    destruct (@frames_possible m bf r1 r2 s1 s2 Hw Hr E1 E2)
      as (c' & st' & Hb & Hi & Hs).
    exists c', st'.
    apply strike_bf_flags in E1. apply strike_ef_flags in E2.
    intuition.
Qed.

(** *** Cancellation seen in the first loop; reverse-reader failure *)

Lemma sent_In tr s : In s (sent tr) <-> exists ph, In (EvSend ph s) tr.
Proof.
  unfold sent. rewrite in_flat_map. split.
  - intros (e & He & Hs). destruct e; simpl in Hs; try tauto.
    destruct Hs as [->|[]]. eauto.
  - intros (ph & H). exists (EvSend ph s). simpl. auto.
Qed.

Lemma pre_merge_events (tr : list (event Seq)) :
  forallb pre_merge_evb tr = true ->
  (forall ph s, In (EvSend ph s) tr ->
                ph = SEQ_ONLY /\ reverse s = false /\ frame s = false) /\
  (forall rev r, ~ In (EvRecvFrame rev r) tr) /\
  (forall r, ~ In (EvRecvSeq true r) tr) /\
  (forall a r, ~ In (EvIndex true a r) tr) /\
  (forall a, ~ In (EvBuild true a) tr).
Proof.
  rewrite forallb_forall. intros H.
  split; [|split; [|split; [|split]]].
  - intros ph s Hin. apply H in Hin. unfold pre_merge_evb in Hin.
    simpl in Hin. rewrite !orb_false_r in Hin.
    destruct ph; [|discriminate].
    apply andb_true_iff in Hin. destruct Hin as [A B].
    split; auto. split; [now destruct (reverse s) | now destruct (frame s)].
  - intros rev r Hin. apply H in Hin. discriminate.
  - intros r Hin. apply H in Hin. discriminate.
  - intros a r Hin. apply H in Hin. discriminate.
  - intros a Hin. apply H in Hin. discriminate.
Qed.

Lemma seq_only_pre_merge (tr : list (event Seq)) :
  forallb (fun e => seq_only_evb e || is_close e) tr = true ->
  forallb pre_merge_evb tr = true /\ existsb is_frames tr = false.
Proof.
  induction tr as [|e tr IH]; simpl; auto.
  intros H. apply andb_true_iff in H. destruct H as [He H].
  destruct (IH H) as [-> ->]. unfold pre_merge_evb.
  destruct e; simpl in *; try discriminate; auto;
    rewrite ?orb_false_r in *; rewrite ?He; auto.
Qed.

Lemma rev_fail_inv_run m c st :
  identify m c = Some st -> reverse_reader m (c_buf c) = inr tt ->
  rev_fail_inv st.
Proof.
  intros H Hfail; revert st H; apply identify_ind_base.
  - intros st Hs.
    destruct Hs as [r a Hr Hb Ha|r a Hr Hb Ha|r Hr Hb Ha|st Hr Hp];
      try (unfold rev_fail_inv; simpl; now auto).
    destruct Hp as [E|E|r a E Hs Ha|r a E Hs Ha|r E Hs Ha]; simpl in E;
      try congruence.
    unfold rev_fail_inv; simpl; auto.
  - intros st i st' Hb [IH1 IH2] Hs.
    pose proof (base_reverse_reader Hb) as Er. rewrite Hfail in Er.
    destruct Hs;
      try (match goal with Hp : Proceed _ _ |- _ =>
             destruct Hp as [E|E|r a E Hs Ha|r a E Hs Ha|r E Hs Ha];
             simpl in E; try congruence
           end);
      repeat match goal with
        | H : at_pc _ = _ |- _ => rewrite H in IH2
        | H : _ \/ _ |- _ => destruct H
        end; try contradiction;
      unfold rev_fail_inv; simpl;
      try match goal with H : at_pc _ = _ |- _ => rewrite H end;
      rewrite ?forallb_app, ?rev_app_distr, ?IH1; simpl; auto.
    apply strike_b_flags in H1. destruct H1 as (_ & _ & _ & _ & Hv & Hf & _).
    unfold pre_merge_evb; simpl. rewrite Hv, Hf. auto.
Qed.

Lemma identify_snoc m c st i st' :
  identify m c = Some st -> step st i = Some st' ->
  identify m (mkCall (c_buf c) (c_quit c) (c_inputs c ++ [i])) = Some st'.
Proof.
  unfold identify; simpl. intros H Hs. rewrite run_app, H. simpl.
  now rewrite Hs.
Qed.

(** C4: when, in the first loop, the forward-sequence channel is found
    closed while [quit] is closed, the call closes the output channel and
    returns at once: the receive and the close are the only events added,
    no step follows, the frame matchers were never started, nothing was
    received from a frame channel or from the reverse-sequence channel,
    and every strike sent is a forward-sequence strike of the first loop;
    in particular, if nothing had been sent before, the output channel is
    closed with zero strikes. *)
Theorem C4_cancelled_in_first_loop m c st :
  identify m c = Some st -> at_pc st = InSeqOnly -> quit st = true ->
  exists st',
    step st (FromB None) = Some st' /\
    identify m (mkCall (c_buf c) (c_quit c) (c_inputs c ++ [FromB None]))
      = Some st' /\
    at_pc st' = Returned ExitQuit /\
    trace st' = trace st ++ [EvRecvSeq false None; EvClose] /\
    (forall i, step st' i = None) /\
    existsb is_frames (trace st') = false /\
    (forall ph s, In (EvSend ph s) (trace st') ->
       ph = SEQ_ONLY /\ reverse s = false /\ frame s = false) /\
    (forall rev r, ~ In (EvRecvFrame rev r) (trace st')) /\
    (forall r, ~ In (EvRecvSeq true r) (trace st')) /\
    sent (trace st') = sent (trace st) /\
    closes (trace st') = 1%nat /\
    (sent (trace st) = [] -> sent (trace st') = []).
Proof.
  intros H Hpc Hq.
  pose proof (closed_once_run _ _ H) as Hc. unfold closed_once in Hc.
  rewrite Hpc in Hc. destruct Hc as [Hc0 Hb].
  pose proof (step_seq_closed _ Hpc Hb) as Hstep. rewrite Hq in Hstep.
  eexists. split; [exact Hstep|].
  pose proof (identify_snoc m c (FromB None) H Hstep) as H'.
  split; [exact H'|].
  pose proof (seq_only_inv_run _ _ H') as Hs. unfold seq_only_inv in Hs.
  simpl in Hs. destruct (seq_only_pre_merge _ Hs) as [Hpm Hfr].
  destruct (pre_merge_events _ Hpm) as (E1 & E2 & E3 & _).
  split; [reflexivity|]. split; [simpl; now rewrite <- app_assoc|].
  split; [reflexivity|]. split; [exact Hfr|].
  split; [exact E1|]. split; [exact E2|]. split; [exact E3|].
  assert (Es : sent (trace (close_return
                 (with_bchan (emit st [EvRecvSeq false None]) closed_chan)
                 ExitQuit)) = sent (trace st)).
  { simpl. rewrite !sent_app. simpl. now rewrite !app_nil_r. }
  split; [exact Es|]. split.
  - simpl. rewrite !closes_app, Hc0. reflexivity.
  - intros E. now rewrite Es.
Qed.

(** C5: on a buffer whose reverse reader cannot be made (which needs a
    non-zero MaxEOF), a call never enters the second loop: when it gets to
    the reverse reader it closes the output channel right after starting
    the frame matchers, with nothing received or sent in between.  No
    strike other than forward-sequence strikes of the first loop is sent,
    nothing is received from a frame channel or the reverse-sequence
    channel, the reverse engine is neither built nor started.  The Matcher
    is left as the start of the forward engine left it: configuration
    and reverse engine are those of before the call, so a later call on it
    is a call on that Matcher. *)
Theorem C5_reverse_reader_failure m c st :
  identify m c = Some st -> reverse_reader m (c_buf c) = inr tt ->
  MaxEOF m <> 0 /\
  at_pc st <> InMerge /\ at_pc st <> Returned ExitDone /\
  (at_pc st = Returned ExitErr ->
   closes (trace st) = 1%nat /\
   exists tr, trace st =
              tr ++ [EvFrames false; EvFrames true; EvReverseErr; EvClose]) /\
  (forall ph s, In (EvSend ph s) (trace st) ->
     ph = SEQ_ONLY /\ reverse s = false /\ frame s = false) /\
  (forall rev r, ~ In (EvRecvFrame rev r) (trace st)) /\
  (forall r, ~ In (EvRecvSeq true r) (trace st)) /\
  (forall a r, ~ In (EvIndex true a r) (trace st)) /\
  (forall a, ~ In (EvBuild true a) (trace st)) /\
  b st = after_init m (c_buf c) /\
  same_config (b st) m /\
  eAho (b st) = eAho m /\ estarted (b st) = estarted m /\
  (forall c', identify (b st) c' = identify (after_init m (c_buf c)) c').
Proof.
  intros H Hfail.
  destruct (rev_fail_inv_run _ _ H Hfail) as [Hev Hpc].
  destruct (pre_merge_events _ Hev) as (E1 & E2 & E3 & E4 & E5).
  destruct (engine_inv_run _ _ H) as (_ & _ & Hm & _).
  assert (Hb : b st = after_init m (c_buf c)).
  { rewrite Hm. unfold after_setup. rewrite Hfail.
    now destruct (existsb is_frames (trace st)). }
  destruct (after_init_keeps m (c_buf c)) as (K1 & K2 & K3).
  split.
  { intros H0. destruct (reverse_reader_sign m (c_buf c)) as (_ & _ & R3).
    rewrite (R3 H0) in Hfail. discriminate. }
  split; [intros E; now rewrite E in Hpc|].
  split; [intros E; now rewrite E in Hpc|].
  split.
  { intros E. rewrite E in Hpc.
    pose proof (closed_once_run _ _ H) as Hc. unfold closed_once in Hc.
    rewrite E in Hc. split; [apply Hc|].
    destruct (rev (trace st)) as [|e1 r] eqn:Er; [contradiction|].
    destruct e1; try contradiction.
    destruct r as [|e2 r]; [contradiction|].
    destruct e2; try contradiction.
    destruct r as [|e3 r]; [contradiction|].
    destruct e3 as [ | | | |v| | | | | | ]; try contradiction.
    destruct v; try contradiction.
    destruct r as [|e4 r]; [contradiction|].
    destruct e4 as [ | | | |v| | | | | | ]; try contradiction.
    destruct v; try contradiction.
    exists (rev r). apply (f_equal (@rev _)) in Er.
    rewrite rev_involutive in Er. rewrite Er. simpl.
    now rewrite <- !app_assoc. }
  repeat (split; [assumption|]).
  rewrite Hb. repeat (split; [assumption|]). reflexivity.
Qed.

(** *** The gate *)

Lemma Proceed_bchan st st' : Proceed st st' -> bchan st' = bchan st.
Proof. intros Hp; destruct Hp; reflexivity. Qed.

(** Only the receive of its own close changes [bchan]. *)
Lemma Step_bchan st i st' :
  Step st i st' -> i <> FromB None -> bchan st' = bchan st.
Proof.
  intros Hs Hi; destruct Hs;
    try (match goal with Hp : Proceed _ _ |- _ =>
           apply Proceed_bchan in Hp; rewrite Hp end);
    try reflexivity; try congruence;
    inv_decode; try reflexivity; congruence.
Qed.

Lemma run_bchan ins : forall st st',
  run st ins = Some st' -> ~ In (FromB None) ins -> bchan st' = bchan st.
Proof.
  induction ins as [|i ins IH]; simpl; intros st st' H Hn.
  - now injection H as <-.
  - destruct (step st i) as [st1|] eqn:E; [|discriminate].
    rewrite (IH _ _ H) by tauto.
    apply step_Step, Step_bchan in E; auto.
Qed.

Lemma step_gate_only_in_first_loop st :
  at_pc st <> InSeqOnly -> step st FromGate = None.
Proof.
  intros H. unfold step. destruct (at_pc st); try reflexivity.
  contradiction.
Qed.

(** C9: in the first loop the gate signal is taken in one step, which
    logs it and goes straight to the set-up of the second loop, leaving
    [bchan] the open channel it was; with a well-formed Matcher and a
    reverse reader that can be made the call is then in the second loop.
    From there, as long as the close of [bchan] has not been received,
    [bchan] stays open and each result received from it is wrapped and
    sent from the second loop.  Outside the first loop no step takes the
    gate signal. *)
Theorem C9_gate_escalates m c st :
  identify m c = Some st -> at_pc st = InSeqOnly ->
  let st' := proceed (emit st [EvGate]) in
  step st FromGate = Some st' /\
  bchan st = open_chan /\ bchan st' = open_chan /\
  (exists evs, trace st' = trace st ++ EvGate :: EvFrames false :: evs) /\
  (wf m -> reverse_reader m (c_buf c) <> inr tt -> at_pc st' = InMerge) /\
  (forall ins st2,
     run st' ins = Some st2 -> ~ In (FromB None) ins ->
     bchan st2 = open_chan /\
     (at_pc st2 = InMerge ->
      forall r s, strike_b (b st2) r = Some s ->
        step st2 (FromB (Some r)) =
        Some (emit (emit st2 [EvRecvSeq false (Some r)]) [EvSend MERGE s]))) /\
  (forall ins st2,
     run st' ins = Some st2 -> step st2 FromGate = None) /\
  (forall st2, at_pc st2 = InMerge -> step st2 FromGate = None).
Proof.
  intros H Hpc st'.
  pose proof (closed_once_run _ _ H) as Hc. unfold closed_once in Hc.
  rewrite Hpc in Hc. destruct Hc as [_ Hb].
  assert (Hb' : bchan st' = open_chan).
  { unfold st'. rewrite (Proceed_bchan (proceed_Proceed _)). exact Hb. }
  assert (Hpc' : at_pc st' <> InSeqOnly).
  { unfold st'. destruct (Proceed_pc (proceed_Proceed (emit st [EvGate])))
      as [E|[E|E]]; rewrite E; discriminate. }
  split; [now apply step_gate|]. split; [exact Hb|]. split; [exact Hb'|].
  split.
  { unfold st'. destruct (proceed_Proceed (emit st [EvGate]));
      simpl; rewrite <- ?app_assoc; simpl; eauto. }
  split.
  { intros Hw Hr. unfold st'.
    destruct (base_run _ _ H) as [Hbuf Hcfg].
    apply proceed_reaches_merge; simpl.
    - exact (@wf_run m c st H Hw).
    - rewrite Hbuf, (reverse_reader_config (c_buf c) Hcfg). exact Hr. }
  split; [|split].
  - intros ins st2 Hrun Hn.
    assert (Hb2 : bchan st2 = open_chan)
      by (rewrite (run_bchan _ _ Hrun Hn); exact Hb').
    split; [exact Hb2|]. intros Hpc2 r s Hs. now apply step_merge_b.
  - intros ins st2 Hrun. apply step_gate_only_in_first_loop.
    intros E.
    assert (Hinv : forall st0 i st1, at_pc st0 <> InSeqOnly ->
                     step st0 i = Some st1 -> at_pc st1 <> InSeqOnly).
    { intros st0 i st1 Hs Hst. apply step_Step in Hst.
      destruct Hst;
        try (match goal with Hp : Proceed _ _ |- _ =>
               destruct (Proceed_pc Hp) as [E'|[E'|E']]; rewrite E';
               discriminate end);
        try congruence; try destruct c0; simpl; try congruence. }
    apply (run_invariant _ Hinv _ _ Hpc' Hrun). exact E.
  - intros st2 E. apply step_gate_only_in_first_loop. congruence.
Qed.

(** *** Staging of the two loops *)

Lemma prefixed_snoc (P : list (event Seq) -> event Seq -> Prop) tr e :
  prefixed P tr -> P tr e -> prefixed P (tr ++ [e]).
Proof.
  intros Hp He t1 x t2 E.
  destruct (exists_last (l := x :: t2)) as (t2' & y & E2); [discriminate|].
  rewrite E2, app_assoc in E. apply app_inj_tail in E. destruct E as [E <-].
  destruct t2' as [|x' t2'].
  - simpl in E2. injection E2 as <-. rewrite app_nil_r in E. now subst.
  - simpl in E2. injection E2 as <- _. apply (Hp t1 x t2'). exact E.
Qed.

Lemma prefixed_app (P : list (event Seq) -> event Seq -> Prop) evs :
  forall tr,
    prefixed P tr -> (forall t e, In e evs -> P t e) ->
    prefixed P (tr ++ evs).
Proof.
  induction evs as [|e evs IH]; intros tr Hp Hq.
  - now rewrite app_nil_r.
  - change (e :: evs) with ([e] ++ evs). rewrite app_assoc.
    apply IH.
    + apply prefixed_snoc; auto. apply Hq. now left.
    + intros t x Hx. apply Hq. now right.
Qed.

Lemma prefixed_nil (P : list (event Seq) -> event Seq -> Prop) :
  prefixed P [].
Proof. intros [|? ?] x t2 E; discriminate. Qed.

Lemma staged_not_send g t (e : event Seq) : is_send e = false -> staged g t e.
Proof. destruct e; simpl; auto; discriminate. Qed.

Lemma staged_quiet g tr (evs : list (event Seq)) :
  prefixed (staged g) tr -> forallb (fun e => negb (is_send e)) evs = true ->
  prefixed (staged g) (tr ++ evs).
Proof.
  intros Hp Hq. apply prefixed_app; auto.
  rewrite forallb_forall in Hq. intros t e He.
  apply staged_not_send. specialize (Hq e He). now destruct (is_send e).
Qed.

Lemma forward_reader_none m bf : forward_reader m bf = None -> MaxBOF m = 0.
Proof.
  destruct (forward_reader_sign m bf) as (F1 & F2 & _). intros E.
  destruct (Z.lt_trichotomy (MaxBOF m) 0) as [H|[H|H]]; auto;
    [rewrite (F2 H) in E | rewrite (F1 H) in E]; discriminate.
Qed.

Lemma phase_inv_proceed m st st' :
  Proceed st st' ->
  prefixed (staged (MaxBOF m <> 0)) (trace st) ->
  (MaxBOF m <> 0 -> existsb opens_mergeb (trace st) = true) ->
  phase_inv m st'.
Proof.
  intros Hp Hpre Hop.
  assert (Hq : exists evs,
             trace st' = trace st ++ evs /\
             forallb (fun e : event Seq => negb (is_send e)) evs = true).
  { destruct Hp; simpl; rewrite <- ?app_assoc; simpl;
      eexists; split; reflexivity. }
  destruct Hq as (evs & Et & Hq). unfold phase_inv. rewrite Et. split.
  - now apply staged_quiet.
  - destruct (Proceed_pc Hp) as [->|[->| ->]]; auto.
    intros Hg. rewrite existsb_app, (Hop Hg). reflexivity.
Qed.

Lemma phase_inv_run m c st : identify m c = Some st -> phase_inv m st.
Proof.
  revert st; apply identify_ind.
  - intros st Hs.
    destruct Hs as [r a Hr Hb Ha|r a Hr Hb Ha|r Hr Hb Ha|st Hr Hp].
    1-3: unfold phase_inv; simpl; split; auto;
      apply (@staged_quiet _ [] _ (prefixed_nil _)); reflexivity.
    eapply phase_inv_proceed; [exact Hp| |].
    + apply (@staged_quiet _ [] _ (prefixed_nil _)); reflexivity.
    + intros Hg. apply forward_reader_none in Hr. contradiction.
  - intros st i st' [IH1 IH2] Hs.
    destruct Hs;
      repeat match goal with
        | H : at_pc _ = _ |- _ => rewrite H in IH2
        | H : _ \/ _ |- _ => destruct H
        end;
      try (eapply phase_inv_proceed; [eassumption| |];
           [ simpl; apply staged_quiet; [exact IH1|reflexivity]
           | intros _; simpl; rewrite existsb_app; simpl;
             now rewrite orb_true_r ]);
      try inv_decode; try destruct c0;
      unfold phase_inv; simpl;
      try match goal with H : at_pc _ = _ |- _ => rewrite H end;
      rewrite ?existsb_app; simpl; rewrite ?orb_false_r;
      (split; [|try exact I; try exact IH2; auto]);
      try (apply staged_quiet; [exact IH1|reflexivity]);
      try (rewrite app_nil_r; exact IH1);
      try exact IH1;
      try (apply prefixed_snoc;
           [apply staged_quiet; [exact IH1|reflexivity]|]; simpl);
      try exact I;
      try (intros Hg; rewrite ?existsb_app, (IH2 Hg); reflexivity);
      try (intros _; apply orb_true_r).
    apply strike_b_flags in H1. destruct H1 as (_ & _ & _ & _ & Hv & Hf & _).
    rewrite existsb_app, IH2. auto.
Qed.

Lemma existsb_opens tr :
  existsb opens_mergeb tr = true -> exists e, In e tr /\ opens_merge e.
Proof.
  intros H. apply existsb_exists in H. destruct H as (e & He & Ho).
  exists e. split; auto. unfold opens_merge.
  destruct e as [ | | | | | |[] [r|]| | | | ]; simpl in Ho;
    try discriminate; auto.
Qed.

(** C2, as the code has it: a strike from the BOF frame matcher, the EOF
    frame matcher or the reverse-sequence engine is sent from the second
    loop only; a strike sent from the first loop has no strike of the
    second loop before it; and when the call has a forward reader
    (MaxBOF is not 0), every strike sent from the second loop comes after
    the receive of the close of the forward-sequence channel or after the
    gate signal.  With MaxBOF = 0 every strike is sent from the second
    loop. *)
Theorem C2_phase_ordering m c st t1 ph s t2 :
  identify m c = Some st ->
  trace st = t1 ++ EvSend ph s :: t2 ->
  (reverse s = true \/ frame s = true -> ph = MERGE) /\
  (ph = SEQ_ONLY -> forall s', ~ In (EvSend MERGE s') t1) /\
  (ph = MERGE -> MaxBOF m <> 0 -> exists e, In e t1 /\ opens_merge e) /\
  (MaxBOF m = 0 -> ph = MERGE).
Proof.
  intros H Et. destruct (phase_inv_run _ _ H) as [Hp _].
  specialize (Hp t1 (EvSend ph s) t2 Et). simpl in Hp.
  destruct ph.
  - destruct Hp as (Hn & Hv & Hf).
    split; [intros [E|E]; congruence|].
    split.
    { intros _ s' Hin. apply (existsb_false_In _ _ _ Hn) in Hin.
      discriminate. }
    split; [discriminate|].
    intros H0. exfalso.
    destruct (chan_inv_run _ _ H) as [Hcb _].
    destruct (forward_reader_sign m (c_buf c)) as (_ & _ & F3).
    destruct (Hcb (F3 H0)) as [_ Hno].
    assert (Hin : In s (sent (trace st))).
    { apply sent_In. exists SEQ_ONLY. rewrite Et. apply in_or_app.
      right; now left. }
    exact (@no_seq_strikes m c st false H Hno s Hin (conj Hv Hf)).
  - split; [auto|]. split; [discriminate|]. split; [|auto].
    intros _ Hg. apply existsb_opens. auto.
Qed.

(** *** Build once, over a sequence of calls *)

(** Induction over the runs of one call, each state met being known to be
    reached by a call. *)
Lemma identify_ind_reach (P : state Seq -> Prop) m bf q :
  (forall st, Start m bf q st -> P st) ->
  (forall ins st i st',
     identify m (mkCall bf q ins) = Some st -> P st -> Step st i st' ->
     P st') ->
  forall ins st, identify m (mkCall bf q ins) = Some st -> P st.
Proof.
  intros H0 HS. induction ins as [|i ins IH] using rev_ind; intros st H.
  - unfold identify in H; simpl in H. injection H as <-.
    apply H0, start_Start.
  - unfold identify in H; simpl in H. rewrite run_app in H.
    destruct (run (identify_start m bf q) ins) as [st0|] eqn:E;
      [|discriminate].
    simpl in H. destruct (step st0 i) as [st1|] eqn:Es; [|discriminate].
    injection H as <-.
    apply (HS ins st0 i st1); auto. now apply step_Step.
Qed.

Lemma rev_index_run m c st :
  identify m c = Some st -> wf m ->
  existsb (is_index true) (trace st) =
  existsb is_frames (trace st) && rrdr_some m (c_buf c).
Proof.
  intros H Hw. destruct c as [bf q ins]. simpl.
  revert ins st H. apply identify_ind_reach.
  - intros st Hs.
    destruct Hs as [r a Hr Hb Ha|r a Hr Hb Ha|r Hr Hb Ha|st Hr Hp];
      try reflexivity.
    unfold rrdr_some.
    destruct Hp as [E|E|r a E Hs Ha|r a E Hs Ha|r E Hs Ha]; simpl in *;
      rewrite E; try reflexivity.
    destruct Hw as [_ Hw]. rewrite (Hw Hs) in Ha. discriminate.
  - intros ins st i st' Hreach IH Hs.
    pose proof (base_run _ _ Hreach) as Hb. simpl in Hb.
    pose proof (base_reverse_reader Hb) as Er.
    destruct (engine_inv_run _ _ Hreach) as (Hnf & _).
    pose proof (wf_run _ Hreach Hw) as [_ Hwe].
    unfold rrdr_some in *.
    destruct Hs;
      try (match goal with Hp : Proceed _ _ |- _ =>
             destruct Hp as [E|E|r a E Hs Ha|r a E Hs Ha|r E Hs Ha];
             simpl in *; rewrite Er in E;
             rewrite ?existsb_app, ?Hnf in * by assumption;
             rewrite IH, E; simpl; try reflexivity;
             rewrite (Hwe Hs) in Ha; discriminate
           end);
      try inv_decode; try destruct c; simpl;
      rewrite ?existsb_app, ?IH; simpl; rewrite ?orb_false_r; reflexivity.
Qed.

Lemma after_init_bstarted m bf :
  bstarted (after_init m bf) = bstarted m || isSome (forward_reader m bf) /\
  (bstarted m = true -> bAho (after_init m bf) = bAho m) /\
  (bstarted m = false -> isSome (forward_reader m bf) = true ->
   bAho (after_init m bf) = Some (wac.New (Set' (BOFSeq m)))).
Proof.
  unfold after_init, start_bof.
  destruct (isSome (forward_reader m bf)) eqn:E1, (bstarted m) eqn:E2;
    simpl; rewrite ?E2; repeat split; intros; try congruence; auto.
Qed.

Lemma after_setup_estarted m bf :
  estarted (after_setup m bf) = estarted m || rrdr_some m bf /\
  (estarted m = true -> eAho (after_setup m bf) = eAho m).
Proof.
  destruct (after_init_keeps m bf) as (_ & Hs & Ha).
  unfold after_setup, rrdr_some, start_eof.
  destruct (reverse_reader m bf) as [[r|]|]; simpl;
    rewrite ?Hs; destruct (estarted m); simpl; auto.
  split; [reflexivity|discriminate].
Qed.

(** What one call does to the engines of a well-formed Matcher. *)
Lemma call_summary m c st :
  identify m c = Some st -> wf m ->
  same_config (b st) m /\ wf (b st) /\
  builds false (trace st) =
    (if isSome (forward_reader m (c_buf c)) && negb (bstarted m)
     then 1 else 0)%nat /\
  bstarted (b st) = bstarted m || isSome (forward_reader m (c_buf c)) /\
  (bstarted m = true -> bAho (b st) = bAho m) /\
  (bstarted m = false -> isSome (forward_reader m (c_buf c)) = true ->
   bAho (b st) = Some (wac.New (Set' (BOFSeq m)))) /\
  (forall a r, In (EvIndex false a r) (trace st) -> bAho (b st) = Some a) /\
  builds true (trace st) =
    (if existsb (is_index true) (trace st) && negb (estarted m)
     then 1 else 0)%nat /\
  estarted (b st) = estarted m || existsb (is_index true) (trace st) /\
  (estarted m = true -> eAho (b st) = eAho m) /\
  (forall a r, In (EvIndex true a r) (trace st) -> eAho (b st) = Some a).
Proof.
  intros H Hw.
  destruct (engine_inv_run _ _ H) as (_ & _ & Hm & Hbf & Hbr & Hix).
  rewrite Forall_forall in Hix.
  pose proof (rev_index_run _ H Hw) as Hri.
  destruct (base_run _ _ H) as [_ Hcfg].
  destruct (after_init_bstarted m (c_buf c)) as (I1 & I2 & I3).
  destruct (after_init_keeps m (c_buf c)) as (_ & I4 & I5).
  destruct (after_setup_keeps m (c_buf c)) as (_ & S1 & S2).
  destruct (after_setup_estarted m (c_buf c)) as (S3 & S4).
  assert (Hba : bAho (b st) = bAho (after_init m (c_buf c))).
  { rewrite Hm. now destruct (existsb is_frames (trace st)). }
  assert (Hbs : bstarted (b st) = bstarted (after_init m (c_buf c))).
  { rewrite Hm. now destruct (existsb is_frames (trace st)). }
  split; [exact Hcfg|]. split; [exact (@wf_run m c st H Hw)|].
  split; [exact Hbf|]. split; [now rewrite Hbs|].
  split; [intros E; now rewrite Hba, I2|].
  split; [intros E1 E2; now rewrite Hba, I3|].
  split.
  { intros a r Hin. apply Hix in Hin. simpl in Hin. rewrite Hba. tauto. }
  split; [now rewrite Hbr, Hri|].
  split.
  { rewrite Hm, Hri.
    destruct (existsb is_frames (trace st)); simpl.
    - exact S3.
    - now rewrite I4, orb_false_r. }
  split.
  { intros E. rewrite Hm.
    destruct (existsb is_frames (trace st)); [now apply S4|exact I5]. }
  intros a r Hin.
  assert (Hfr : existsb is_frames (trace st) = true).
  { assert (Hi : existsb (is_index true) (trace st) = true).
    { apply existsb_exists. exists (EvIndex true a r). split; auto. }
    rewrite Hri in Hi. now apply andb_true_iff in Hi. }
  apply Hix in Hin. simpl in Hin. rewrite Hm, Hfr. tauto.
Qed.

Lemma total_builds_cons rev st (sts : list (state Seq)) :
  total_builds rev (st :: sts) =
  (builds rev (trace st) + total_builds rev sts)%nat.
Proof. reflexivity. Qed.

Lemma total_builds_zero rev (sts : list (state Seq)) :
  Forall (fun st => builds rev (trace st) = 0%nat) sts ->
  total_builds rev sts = 0%nat.
Proof.
  induction 1 as [|st sts H _ IH]; [reflexivity|].
  now rewrite total_builds_cons, H, IH.
Qed.

Lemma identify_all_cons m c cs sts :
  identify_all m (c :: cs) = Some sts ->
  exists st rest,
    sts = st :: rest /\ identify m c = Some st /\
    identify_all (b st) cs = Some rest.
Proof.
  simpl. destruct (identify m c) as [st|]; [|discriminate].
  destruct (identify_all (b st) cs) as [rest|] eqn:E; [|discriminate].
  intros [= <-]. exists st, rest. auto.
Qed.

(** Once started, the forward engine is neither rebuilt nor replaced. *)
Lemma forward_cached cs : forall m sts,
  identify_all m cs = Some sts -> wf m -> bstarted m = true ->
  Forall (fun st =>
            builds false (trace st) = 0%nat /\ bAho (b st) = bAho m /\
            forall a r, In (EvIndex false a r) (trace st) -> bAho m = Some a)
         sts.
Proof.
  induction cs as [|c cs IH]; intros m sts H Hw Hs.
  - injection H as <-. constructor.
  - apply identify_all_cons in H. destruct H as (st & rest & -> & Hc & Hr).
    destruct (call_summary _ Hc Hw)
      as (_ & Hw' & Hb & Hst & Ha & _ & Hix & _).
    rewrite Hs in Hb, Hst. rewrite andb_false_r in Hb. simpl in Hst.
    specialize (Ha Hs). constructor.
    + split; [exact Hb|]. split; [exact Ha|].
      intros a r Hin. rewrite <- Ha. eauto.
    + specialize (IH _ _ Hr Hw' Hst). rewrite Ha in IH. exact IH.
Qed.

(** Once started, the reverse engine is neither rebuilt nor replaced. *)
Lemma reverse_cached cs : forall m sts,
  identify_all m cs = Some sts -> wf m -> estarted m = true ->
  Forall (fun st =>
            builds true (trace st) = 0%nat /\ eAho (b st) = eAho m /\
            forall a r, In (EvIndex true a r) (trace st) -> eAho m = Some a)
         sts.
Proof.
  induction cs as [|c cs IH]; intros m sts H Hw Hs.
  - injection H as <-. constructor.
  - apply identify_all_cons in H. destruct H as (st & rest & -> & Hc & Hr).
    destruct (call_summary _ Hc Hw)
      as (_ & Hw' & _ & _ & _ & _ & _ & Hb & Hst & Ha & Hix).
    rewrite Hs in Hb, Hst. rewrite andb_false_r in Hb. simpl in Hst.
    specialize (Ha Hs). constructor.
    + split; [exact Hb|]. split; [exact Ha|].
      intros a r Hin. rewrite <- Ha. eauto.
    + specialize (IH _ _ Hr Hw' Hst). rewrite Ha in IH. exact IH.
Qed.

Lemma reverse_total cs : forall m sts,
  identify_all m cs = Some sts -> wf m -> estarted m = false ->
  total_builds true sts =
  if existsb (fun st => existsb (is_index true) (trace st)) sts
  then 1%nat else 0%nat.
Proof.
  induction cs as [|c cs IH]; intros m sts H Hw Hs.
  - injection H as <-. reflexivity.
  - apply identify_all_cons in H. destruct H as (st & rest & -> & Hc & Hr).
    destruct (call_summary _ Hc Hw)
      as (_ & Hw' & _ & _ & _ & _ & _ & Hb & Hst & _).
    rewrite Hs in Hb, Hst. simpl in Hst. rewrite andb_true_r in Hb.
    rewrite total_builds_cons, Hb. simpl.
    destruct (existsb (is_index true) (trace st)); simpl.
    + rewrite total_builds_zero; [reflexivity|].
      eapply Forall_impl; [|exact (@reverse_cached cs (b st) rest Hr Hw' Hst)].
      simpl; tauto.
    + exact (IH _ _ Hr Hw' Hst).
Qed.

Lemma reverse_first_use cs : forall m sts pre st post,
  identify_all m cs = Some sts -> wf m -> estarted m = false ->
  sts = pre ++ st :: post ->
  Forall (fun st0 => existsb (is_index true) (trace st0) = false) pre ->
  existsb (is_index true) (trace st) = true ->
  Forall (fun st0 => builds true (trace st0) = 0%nat) pre /\
  builds true (trace st) = 1%nat /\
  eAho (b st) = Some (wac.New (Set' (EOFSeq m))) /\
  Forall (fun st0 =>
            builds true (trace st0) = 0%nat /\ eAho (b st0) = eAho (b st) /\
            forall a r, In (EvIndex true a r) (trace st0) ->
                        eAho (b st) = Some a)
         post.
Proof.
  induction cs as [|c cs IH]; intros m sts pre st post H Hw Hs E Hpre Hi.
  - injection H as <-. destruct pre; discriminate.
  - apply identify_all_cons in H. destruct H as (st0 & rest & -> & Hc & Hr).
    destruct (call_summary _ Hc Hw)
      as (Hcfg & Hw' & _ & _ & _ & _ & _ & Hb & Hst & _ & Hix).
    rewrite Hs in Hb, Hst. simpl in Hst. rewrite andb_true_r in Hb.
    destruct pre as [|p pre]; simpl in E; injection E as <- ->.
    + rewrite Hi in Hb, Hst. split; [constructor|]. split; [exact Hb|].
      split.
      * apply existsb_index_In in Hi. destruct Hi as (a & r & Hin).
        rewrite (Hix _ _ Hin).
        destruct (engine_inv_run _ _ Hc) as (_ & _ & _ & _ & _ & Hok).
        rewrite Forall_forall in Hok. apply Hok in Hin. simpl in Hin.
        f_equal.
        destruct (after_init_keeps m (c_buf c)) as (_ & Es & Ea).
        destruct Hin as [Er Hin]. unfold after_setup in Hin.
        rewrite Er in Hin. unfold start_eof in Hin. simpl in Hin.
        rewrite Es, Hs in Hin. simpl in Hin. injection Hin as <-.
        destruct (after_init_keeps m (c_buf c)) as ((_ & -> & _) & _).
        reflexivity.
      * exact (@reverse_cached cs _ _ Hr Hw' Hst).
    + inversion Hpre as [|? ? Hp Hpre']; subst.
      rewrite Hp in Hb, Hst.
      destruct (IH _ _ _ _ _ Hr Hw' Hst eq_refl Hpre' Hi)
        as (A1 & A2 & A3 & A4).
      split; [constructor; auto|]. split; [exact A2|].
      split; [|exact A4].
      rewrite A3. destruct Hcfg as (_ & -> & _). reflexivity.
Qed.

Lemma wf_fresh m : bstarted m = false -> estarted m = false -> wf m.
Proof. unfold wf. intros -> ->. split; discriminate. Qed.

Lemma In_existsb_index rev a r (tr : list (event Seq)) :
  In (EvIndex rev a r) tr -> existsb (is_index rev) tr = true.
Proof.
  intros H. apply existsb_exists. exists (EvIndex rev a r). split; auto.
  simpl. apply eqb_reflx.
Qed.

Lemma no_index_existsb rev (tr : list (event Seq)) :
  (forall a r, ~ In (EvIndex rev a r) tr) ->
  existsb (is_index rev) tr = false.
Proof.
  intros H. destruct (existsb (is_index rev) tr) eqn:E; auto.
  apply existsb_index_In in E. destruct E as (a & r & Hin).
  now elim (H a r).
Qed.

Lemma same_config_trans m1 m2 m3 :
  same_config m1 m2 -> same_config m2 m3 -> same_config m1 m3.
Proof. unfold same_config. intuition congruence. Qed.

Lemma same_config_sym m1 m2 : same_config m1 m2 -> same_config m2 m1.
Proof. unfold same_config. intuition congruence. Qed.

(** Every call of a sequence is a call on a well-formed Matcher with the
    configuration of the first. *)
Lemma identify_all_each cs : forall m sts,
  identify_all m cs = Some sts -> wf m ->
  Forall (fun st => exists m' c',
            identify m' c' = Some st /\ same_config m' m /\ wf m') sts.
Proof.
  induction cs as [|c cs IH]; intros m sts H Hw.
  - injection H as <-. constructor.
  - apply identify_all_cons in H. destruct H as (st & rest & -> & Hc & Hr).
    destruct (call_summary _ Hc Hw) as (Hcfg & Hw' & _).
    constructor.
    + exists m, c. auto using same_config_refl.
    + eapply Forall_impl; [|exact (IH _ _ Hr Hw')].
      intros st' (m' & c' & H1 & H2 & H3). exists m', c'.
      eauto using same_config_trans.
Qed.

(** C6, as the code has it: over any non-empty sequence of calls on a
    Matcher that starts with no engine, with MaxBOF not 0 the forward
    engine is built exactly once, by the first call, from the Matcher's
    BOF set, and every later call builds nothing and starts the engine the
    first call cached.  The reverse engine is built at most once: exactly
    once if some call starts it, by the first call that does, and then no
    later call builds it and every later start is of the cached engine;
    with MaxEOF not 0 that is the first call to reach the second loop.
    A sequence in which no call gets that far builds no reverse engine. *)
Theorem C6_engines_built_once m cs sts :
  identify_all m cs = Some sts ->
  bstarted m = false -> estarted m = false -> cs <> [] ->
  (MaxBOF m <> 0 ->
   total_builds false sts = 1%nat /\
   exists st0 rest,
     sts = st0 :: rest /\ builds false (trace st0) = 1%nat /\
     bAho (b st0) = Some (wac.New (Set' (BOFSeq m))) /\
     Forall (fun st =>
               builds false (trace st) = 0%nat /\
               bAho (b st) = bAho (b st0) /\
               forall a r, In (EvIndex false a r) (trace st) ->
                           bAho (b st0) = Some a) rest) /\
  (total_builds true sts <= 1)%nat /\
  (total_builds true sts = 1%nat <->
   exists st a r, In st sts /\ In (EvIndex true a r) (trace st)) /\
  (MaxEOF m <> 0 ->
   (exists st, In st sts /\
               (at_pc st = InMerge \/ at_pc st = Returned ExitDone)) ->
   total_builds true sts = 1%nat) /\
  (forall pre st post,
     sts = pre ++ st :: post ->
     Forall (fun st0 => forall a r, ~ In (EvIndex true a r) (trace st0)) pre ->
     (exists a r, In (EvIndex true a r) (trace st)) ->
     Forall (fun st0 => builds true (trace st0) = 0%nat) pre /\
     builds true (trace st) = 1%nat /\
     eAho (b st) = Some (wac.New (Set' (EOFSeq m))) /\
     Forall (fun st0 =>
               builds true (trace st0) = 0%nat /\
               eAho (b st0) = eAho (b st) /\
               forall a r, In (EvIndex true a r) (trace st0) ->
                           eAho (b st) = Some a) post).
Proof.
  intros H Hbs Hes Hne. pose proof (wf_fresh _ Hbs Hes) as Hw.
  pose proof (reverse_total _ H Hw Hes) as Htot.
  assert (Hiff : existsb (fun st => existsb (is_index true) (trace st)) sts
                 = true <->
                 exists st a r, In st sts /\ In (EvIndex true a r) (trace st)).
  { rewrite existsb_exists. split.
    - intros (st & Hin & He). apply existsb_index_In in He.
      destruct He as (a & r & He). eauto.
    - intros (st & a & r & Hin & He). exists st. split; auto.
      eapply In_existsb_index; eauto. }
  split; [|split; [|split; [|split]]].
  - intros Hmax. destruct cs as [|c cs]; [contradiction|].
    apply identify_all_cons in H. destruct H as (st & rest & -> & Hc & Hr).
    destruct (call_summary _ Hc Hw)
      as (_ & Hw' & Hb & Hst & _ & Ha & _).
    assert (Hsome : isSome (forward_reader m (c_buf c)) = true).
    { destruct (forward_reader m (c_buf c)) eqn:E; auto.
      apply forward_reader_none in E. contradiction. }
    rewrite Hsome, Hbs in Hb, Hst. simpl in Hb, Hst.
    pose proof (@forward_cached cs _ _ Hr Hw' Hst) as Hrest.
    split.
    + rewrite total_builds_cons, Hb, total_builds_zero; [reflexivity|].
      eapply Forall_impl; [|exact Hrest]. simpl; tauto.
    + exists st, rest. auto.
  - rewrite Htot. destruct (existsb _ sts); lia.
  - rewrite Htot, <- Hiff. destruct (existsb _ sts); split; congruence.
  - intros Hmax (st & Hin & Hpc). rewrite Htot.
    assert (Hex : exists st a r, In st sts /\ In (EvIndex true a r) (trace st)).
    { pose proof (identify_all_each _ H Hw) as Hall.
      rewrite Forall_forall in Hall.
      destruct (Hall st Hin) as (m' & c' & Hc' & Hcfg & Hw').
      destruct (merge_indexed _ _ Hc' Hpc) as [Hok Hsome].
      assert (Hmax' : MaxEOF m' <> 0)
        by (destruct Hcfg as (_ & _ & _ & _ & _ & ->); exact Hmax).
      destruct (reverse_reader_sign m' (c_buf c')) as (R1 & R2 & _).
      assert (Hs : rrdr_some m' (c_buf c') = true).
      { unfold rrdr_some.
        destruct (Z.lt_trichotomy (MaxEOF m') 0) as [Hs|[Hs|Hs]];
          [rewrite (R2 Hs) in * | contradiction | rewrite (R1 Hs) in *].
        - destruct (reverse_fails (c_buf c')); [now elim Hok | reflexivity].
        - destruct (limit_reverse_fails (c_buf c') (MaxEOF m'));
            [now elim Hok | reflexivity]. }
      apply Hsome, existsb_index_In in Hs. destruct Hs as (a & r & Hs).
      eauto. }
    apply Hiff in Hex. now rewrite Hex.
  - intros pre st post E Hpre (a & r & Hin).
    apply (@reverse_first_use cs m sts pre st post H Hw Hes E).
    + eapply Forall_impl; [|exact Hpre].
      intros st0 Hn. now apply no_index_existsb.
    + eapply In_existsb_index; eauto.
Qed.

(** *** Build once, under interleaving *)

Lemma run_thread_bof m log r :
  run_thread false (m, log) =
  ((fst (start_bof m (Some r)), log ++ snd (start_bof m (Some r))), AtPast).
Proof.
  unfold run_thread, thread_step, start_bof, started, set_aho, set_started,
    patterns; simpl.
  destruct (bstarted m) eqn:E; simpl; [now rewrite app_nil_r|reflexivity].
Qed.

Lemma run_thread_eof m log r :
  run_thread true (m, log) =
  ((fst (start_eof m (Some r)), log ++ snd (start_eof m (Some r))), AtPast).
Proof.
  unfold run_thread, thread_step, start_eof, started, set_aho, set_started,
    patterns; simpl.
  destruct (estarted m) eqn:E; simpl; [now rewrite app_nil_r|reflexivity].
Qed.

Lemma set_nth_length (A : Type) t (x : A) l :
  List.length (set_nth t x l) = List.length l.
Proof.
  revert t; induction l as [|y l IH]; intros [|t]; simpl; auto.
Qed.

Lemma set_nth_count (A : Type) (f : A -> bool) l : forall t p p',
  nth_error l t = Some p ->
  (List.length (filter f (set_nth t p' l)) + (if f p then 1 else 0) =
   List.length (filter f l) + (if f p' then 1 else 0))%nat.
Proof.
  induction l as [|y l IH]; intros [|t] p p' H; simpl in *; try discriminate.
  - injection H as ->. destruct (f p), (f p'); simpl; lia.
  - specialize (IH t p p' H). destruct (f y); simpl; lia.
Qed.

Lemma set_nth_existsb (A : Type) (f : A -> bool) l : forall t p',
  existsb f (set_nth t p' l) = true -> f p' = true \/ existsb f l = true.
Proof.
  induction l as [|y l IH]; intros [|t] p'; simpl; auto.
  - rewrite !orb_true_iff. tauto.
  - rewrite !orb_true_iff. intros [H|H]; auto.
    apply IH in H. tauto.
Qed.

Lemma set_nth_forallb (A : Type) (f : A -> bool) l : forall t p',
  forallb f l = true -> f p' = true -> forallb f (set_nth t p' l) = true.
Proof.
  induction l as [|y l IH]; intros [|t] p'; simpl; auto;
    rewrite !andb_true_iff; intros [H1 H2] H; auto.
Qed.

Lemma nth_error_existsb (A : Type) (f : A -> bool) l t p :
  nth_error l t = Some p -> f p = true -> existsb f l = true.
Proof.
  intros H Hf. apply existsb_exists. exists p. split; auto.
  eapply nth_error_In; eauto.
Qed.

Lemma nth_error_forallb (A : Type) (f : A -> bool) l t p :
  nth_error l t = Some p -> forallb f l = true -> f p = true.
Proof.
  intros H Hf. rewrite forallb_forall in Hf. apply Hf.
  eapply nth_error_In; eauto.
Qed.

Lemma started_set_aho rev m a : started rev (set_aho rev m a) = started rev m.
Proof. now destruct rev. Qed.

Lemma started_set_started rev m : started rev (set_started rev m) = true.
Proof. now destruct rev. Qed.

Lemma builds_snoc_build rev (log : list (event Seq)) a :
  builds rev (log ++ [EvBuild rev a]) = S (builds rev log).
Proof.
  rewrite builds_app. unfold builds at 2. simpl. rewrite eqb_reflx. simpl.
  lia.
Qed.

(** No schedule makes an invocation build twice. *)
Lemma interleave_at_most rev sched :
  forall cfg : (Matcher Seq * list (event Seq)) * list tpc,
  (builds rev (snd (fst (interleave rev cfg sched)))
   + List.length (filter pending (snd (interleave rev cfg sched)))
   <= builds rev (snd (fst cfg)) + List.length (filter pending (snd cfg)))%nat.
Proof.
  induction sched as [|t sched IH]; intros cfg; simpl; [lia|].
  etransitivity; [apply IH|].
  destruct cfg as [[m log] ps]. unfold sched_step; simpl.
  destruct (nth_error ps t) as [p|] eqn:E; [|simpl; lia].
  pose proof (fun p' => set_nth_count pending ps t p' E) as Hc.
  destruct p; simpl.
  - destruct (negb (started rev m)); simpl.
    + specialize (Hc AtBuild). simpl in Hc. lia.
    + specialize (Hc AtPast). simpl in Hc. lia.
  - specialize (Hc AtFlag). simpl in Hc. rewrite builds_snoc_build. lia.
  - specialize (Hc AtPast). simpl in Hc. lia.
  - specialize (Hc AtPast). simpl in Hc. lia.
Qed.

(** Whoever is past the build, or sees the flag set, has a build behind. *)
Lemma interleave_at_least rev sched :
  forall cfg : (Matcher Seq * list (event Seq)) * list tpc,
  (started rev (fst (fst cfg)) = true \/ existsb built (snd cfg) = true ->
   1 <= builds rev (snd (fst cfg)))%nat ->
  (started rev (fst (fst (interleave rev cfg sched))) = true \/
   existsb built (snd (interleave rev cfg sched)) = true ->
   1 <= builds rev (snd (fst (interleave rev cfg sched))))%nat.
Proof.
  induction sched as [|t sched IH]; intros cfg Hinv; simpl; [exact Hinv|].
  apply IH. clear IH.
  destruct cfg as [[m log] ps]. unfold sched_step; simpl in *.
  destruct (nth_error ps t) as [p|] eqn:E; [|exact Hinv].
  destruct p; simpl.
  - destruct (started rev m) eqn:Es; simpl.
    + intros _. apply Hinv. now left.
    + intros [H|H]; [congruence|].
      apply set_nth_existsb in H. destruct H; [discriminate|]. auto.
  - intros _. rewrite builds_snoc_build. lia.
  - intros _. apply Hinv. right. eapply nth_error_existsb; eauto.
  - intros _. apply Hinv. right. eapply nth_error_existsb; eauto.
Qed.

(** With the flag set and nobody between check and flag, nothing is built
    any more. *)
Lemma interleave_settled rev sched :
  forall cfg : (Matcher Seq * list (event Seq)) * list tpc,
  started rev (fst (fst cfg)) = true -> forallb idle (snd cfg) = true ->
  snd (fst (interleave rev cfg sched)) = snd (fst cfg) /\
  fst (fst (interleave rev cfg sched)) = fst (fst cfg).
Proof.
  induction sched as [|t sched IH]; intros cfg Hs Hi; simpl; [auto|].
  assert (Hstep : started rev (fst (fst (sched_step rev cfg t))) = true /\
                  forallb idle (snd (sched_step rev cfg t)) = true /\
                  snd (fst (sched_step rev cfg t)) = snd (fst cfg) /\
                  fst (fst (sched_step rev cfg t)) = fst (fst cfg)).
  { destruct cfg as [[m log] ps]. unfold sched_step; simpl in *.
    destruct (nth_error ps t) as [p|] eqn:E; [|auto].
    pose proof (nth_error_forallb _ _ _ E Hi) as Hp.
    destruct p; simpl in Hp; try discriminate; simpl; rewrite ?Hs; simpl;
      auto using set_nth_forallb. }
  destruct Hstep as (H1 & H2 & H3 & H4).
  destruct (IH _ H1 H2) as [E1 E2].
  unfold interleave in *. rewrite E1, E2. auto.
Qed.

Lemma nth_error_set_nth (A : Type) (x : A) l : forall t,
  (t < List.length l)%nat -> nth_error (set_nth t x l) t = Some x.
Proof.
  induction l as [|y l IH]; intros [|t] H; simpl in *; try lia; auto.
  apply IH. lia.
Qed.

Lemma set_nth_set_nth (A : Type) (x y : A) l : forall t,
  set_nth t x (set_nth t y l) = set_nth t x l.
Proof.
  induction l as [|z l IH]; intros [|t]; simpl; auto. now rewrite IH.
Qed.

Lemma interleave_length rev sched :
  forall cfg : (Matcher Seq * list (event Seq)) * list tpc,
  List.length (snd (interleave rev cfg sched)) = List.length (snd cfg).
Proof.
  induction sched as [|t sched IH]; intros cfg; simpl; auto.
  unfold interleave in *. simpl. rewrite IH.
  destruct cfg as [s ps]. unfold sched_step; simpl.
  destruct (nth_error ps t) as [p|]; auto.
  destruct (thread_step rev s p). simpl. apply set_nth_length.
Qed.

Lemma all_past_built ps :
  forallb is_past ps = true -> (1 <= List.length ps)%nat ->
  existsb built ps = true.
Proof.
  destruct ps as [|p ps]; simpl; [lia|].
  intros H _. apply andb_true_iff in H. destruct H as [H _].
  now destruct p.
Qed.

Lemma forallb_repeat (A : Type) (f : A -> bool) x n :
  f x = true -> forallb f (repeat x n) = true.
Proof. intros H. induction n; simpl; auto. now rewrite H. Qed.

Lemma existsb_repeat (A : Type) (f : A -> bool) x n :
  f x = false -> existsb f (repeat x n) = false.
Proof. intros H. induction n; simpl; auto. now rewrite H. Qed.

Lemma filter_repeat_length (A : Type) (f : A -> bool) x n :
  f x = true -> List.length (filter f (repeat x n)) = n.
Proof. intros H. induction n; simpl; auto. rewrite H. simpl. now f_equal. Qed.

(** C7, as the code has it: nothing synchronizes the check of the
    started flag with the build and the store of the flag.  Interleaved
    in any way, k invocations that each hold a reader build at most k
    engines and, once all are through, at least one; exactly one engine is
    built when the invocation that checks first has also stored the flag
    before any other invocation checks, as when calls do not overlap. *)
Theorem C7_build_once_not_synchronized rev m k sched :
  started rev m = false ->
  let cfg := interleave rev ((m, []), repeat AtCheck k) sched in
  (builds rev (snd (fst cfg)) <= k)%nat /\
  (forallb is_past (snd cfg) = true -> (1 <= k)%nat ->
   (1 <= builds rev (snd (fst cfg)))%nat) /\
  (forall t rest,
     (t < k)%nat -> sched = t :: t :: t :: rest ->
     builds rev (snd (fst cfg)) = 1%nat /\
     started rev (fst (fst cfg)) = true).
Proof.
  intros Hs cfg. split; [|split].
  - pose proof (interleave_at_most rev sched ((m, []), repeat AtCheck k)) as H.
    simpl in H. rewrite filter_repeat_length in H by reflexivity.
    unfold cfg. change (builds rev (@nil (event Seq))) with 0%nat in H. lia.
  - intros Hp Hk.
    apply (interleave_at_least rev sched ((m, []), repeat AtCheck k)).
    + simpl. rewrite Hs, existsb_repeat by reflexivity.
      intros [?|?]; discriminate.
    + right. apply all_past_built; auto.
      unfold cfg. rewrite interleave_length. simpl. now rewrite repeat_length.
  - intros t rest Ht ->. unfold cfg.
    assert (Hlen : (t < List.length (repeat AtCheck k))%nat)
      by now rewrite repeat_length.
    assert (E0 : nth_error (repeat AtCheck k) t = Some AtCheck).
    { apply nth_error_repeat. exact Ht. }
    set (a := wac.New (patterns rev m)).
    assert (E1 : sched_step rev ((m, []), repeat AtCheck k) t =
                 ((m, []), set_nth t AtBuild (repeat AtCheck k))).
    { unfold sched_step; simpl. rewrite E0; simpl. now rewrite Hs. }
    assert (E2 : sched_step rev
                   ((m, []), set_nth t AtBuild (repeat AtCheck k)) t =
                 ((set_aho rev m a, [EvBuild rev a]),
                  set_nth t AtFlag (repeat AtCheck k))).
    { unfold sched_step; simpl.
      rewrite nth_error_set_nth by exact Hlen. simpl.
      now rewrite set_nth_set_nth. }
    assert (E3 : sched_step rev
                   ((set_aho rev m a, [EvBuild rev a]),
                    set_nth t AtFlag (repeat AtCheck k)) t =
                 ((set_started rev (set_aho rev m a), [EvBuild rev a]),
                  set_nth t AtPast (repeat AtCheck k))).
    { unfold sched_step; simpl.
      rewrite nth_error_set_nth by exact Hlen. simpl.
      now rewrite set_nth_set_nth. }
    unfold interleave. simpl. rewrite E1, E2, E3.
    destruct (interleave_settled rev rest
                ((set_started rev (set_aho rev m a), [EvBuild rev a]),
                 set_nth t AtPast (repeat AtCheck k))) as [F1 F2].
    + simpl. apply started_set_started.
    + simpl. apply set_nth_forallb; [|reflexivity].
      now apply forallb_repeat.
    + unfold interleave in F1, F2. rewrite F1, F2. simpl.
      split; [|apply started_set_started].
      unfold builds. simpl. now rewrite eqb_reflx.
Qed.

(** ** Further properties of [identify] *)

(** *** Panics: an index outside its table *)

(** Induction over the runs of one call, with the inputs consumed. *)
Lemma identify_ind_inputs (P : list input -> state Seq -> Prop) m bf q :
  (forall st, Start m bf q st -> P [] st) ->
  (forall ins st i st',
     identify m (mkCall bf q ins) = Some st -> P ins st -> Step st i st' ->
     P (ins ++ [i]) st') ->
  forall ins st, identify m (mkCall bf q ins) = Some st -> P ins st.
Proof.
  intros H0 HS. induction ins as [|i ins IH] using rev_ind; intros st H.
  - unfold identify in H; simpl in H. injection H as <-.
    apply H0, start_Start.
  - unfold identify in H; simpl in H. rewrite run_app in H.
    destruct (run (identify_start m bf q) ins) as [st0|] eqn:E;
      [|discriminate].
    simpl in H. destruct (step st0 i) as [st1|] eqn:Es; [|discriminate].
    injection H as <-.
    apply (HS ins st0 i st1); auto. now apply step_Step.
Qed.

Lemma index_in_table tbl i : isSome (index tbl i) = in_table tbl i.
Proof.
  unfold index, in_table.
  destruct (Z.ltb_spec i 0), (Z.leb_spec 0 i); try lia; simpl; auto.
  destruct (Z.ltb_spec i (Z.of_nat (List.length tbl))) as [Hl|Hl];
    destruct (nth_error tbl (Z.to_nat i)) eqn:E; simpl; auto.
  - apply nth_error_None in E. lia.
  - assert (Hn : nth_error tbl (Z.to_nat i) <> None) by congruence.
    apply nth_error_Some in Hn. lia.
Qed.

(** The lookup of a strike literal fails exactly on an index outside the
    table. *)
Lemma valid_decode m0 m i c ev o :
  same_config m m0 -> decode m i = Some (c, ev, o) ->
  valid_input m0 i =
  match o with Some None => false | _ => true end.
Proof.
  intros (E1 & E2 & E3 & E4 & _) H.
  destruct i as [[r|]|[r|]|[r|]|[r|]| |]; simpl in H;
    inversion H; subst; clear H; simpl; try reflexivity;
    unfold strike_b, strike_e, strike_bf, strike_ef;
    rewrite ?E1, ?E2, ?E3, ?E4, <- index_in_table;
    match goal with |- context [index ?t ?j] => destruct (index t j) end;
    reflexivity.
Qed.

Lemma Proceed_no_panic st st' :
  Proceed st st' -> wf (b st) -> at_pc st' <> Panicked.
Proof.
  intros Hp [_ Hw].
  destruct Hp as [E|E|r a E Hs Ha|r a E Hs Ha|r E Hs Ha]; simpl;
    try discriminate.
  rewrite (Hw Hs) in Ha. discriminate.
Qed.

Lemma Start_no_panic m bf q st :
  Start m bf q st -> wf m -> at_pc st <> Panicked.
Proof.
  intros Hs Hw. destruct Hs as [r a Hr Hb Ha|r a Hr Hb Ha|r Hr Hb Ha|st Hr Hp];
    simpl; try discriminate.
  - destruct Hw as [Hw _]. rewrite (Hw Hb) in Ha. discriminate.
  - eapply Proceed_no_panic; eauto.
Qed.

Lemma Step_panic m0 st i st' :
  same_config (b st) m0 -> wf (b st) -> Step st i st' ->
  (at_pc st' = Panicked <-> valid_input m0 i = false).
Proof.
  intros Hc Hw Hs.
  destruct Hs as [r s Hpc Hb Hk|r Hpc Hb Hk|Hpc Hb Hq|st' Hpc Hb Hq Hp
                 |st' Hpc Hp|i c ev s Hpc Hd Hch|i c ev Hpc Hd Hch
                 |i c ev Hpc Hd Hch Hn|i c ev Hpc Hd Hch Hn|Hpc].
  - assert (Hd : decode (b st) (FromB (Some r)) =
                 Some (SrcB, EvRecvSeq false (Some r), Some (Some s)))
      by (simpl; now rewrite Hk).
    rewrite (@valid_decode _ _ _ _ _ _ Hc Hd); simpl. rewrite Hpc.
    split; discriminate.
  - assert (Hd : decode (b st) (FromB (Some r)) =
                 Some (SrcB, EvRecvSeq false (Some r), Some None))
      by (simpl; now rewrite Hk).
    rewrite (@valid_decode _ _ _ _ _ _ Hc Hd); simpl. tauto.
  - simpl. split; discriminate.
  - simpl. split; [|discriminate].
    intros E. exfalso. revert E. eapply Proceed_no_panic; eauto.
  - simpl. split; [|discriminate].
    intros E. exfalso. revert E. eapply Proceed_no_panic; eauto.
  - rewrite (@valid_decode _ _ _ _ _ _ Hc Hd); simpl. rewrite Hpc. split; discriminate.
  - rewrite (@valid_decode _ _ _ _ _ _ Hc Hd); simpl. tauto.
  - rewrite (@valid_decode _ _ _ _ _ _ Hc Hd).
    assert (E : at_pc (set_nil c (emit st [ev])) = InMerge)
      by (destruct c; exact Hpc).
    rewrite E. split; discriminate.
  - rewrite (@valid_decode _ _ _ _ _ _ Hc Hd). simpl. split; discriminate.
  - simpl. destruct Hpc as [-> | ->]; split; discriminate.
Qed.

(** X1: A call on a well-formed Matcher panics on exactly one occasion: the
    result it has just received carries an index outside the test-tree
    table of its source.  The panic is at the latest input, and a call
    whose latest input is such a result has panicked. *)
Theorem panic_iff_bad_index m c st :
  wf m -> identify m c = Some st ->
  (at_pc st = Panicked <->
   exists ins i, c_inputs c = ins ++ [i] /\ valid_input m i = false).
Proof.
  intros Hw H. destruct c as [bf q ins]. simpl.
  revert ins st H.
  apply (@identify_ind_inputs
           (fun ins st =>
              at_pc st = Panicked <->
              exists ins0 i, ins = ins0 ++ [i] /\ valid_input m i = false)).
  - intros st Hs. split.
    + intros E. exfalso. revert E. eapply Start_no_panic; eauto.
    + intros (ins0 & i & E & _). destruct ins0; discriminate.
  - intros ins st i st' Hreach _ Hs.
    destruct (base_run _ _ Hreach) as [_ Hc].
    pose proof (wf_run _ Hreach Hw) as Hw'.
    rewrite (Step_panic Hc Hw' Hs). split.
    + intros E. now exists ins, i.
    + intros (ins0 & i0 & E & Hv). apply app_inj_tail in E.
      destruct E as [_ ->]. exact Hv.
Qed.

(** *** Cancellation *)

Lemma Proceed_quit st st' :
  Proceed st st' -> quit st' = quit st /\ at_pc st' <> Returned ExitQuit.
Proof. intros Hp; destruct Hp; simpl; split; auto; discriminate. Qed.

(** X2: [identify] returns on cancellation only when [quit] has been closed,
    before the call or during it. *)
Theorem cancel_needs_quit m c st :
  identify m c = Some st -> at_pc st = Returned ExitQuit ->
  quit st = true /\ (c_quit c = true \/ In QuitClosed (c_inputs c)).
Proof.
  intros H. destruct c as [bf q ins]. simpl.
  enough (Hx : (at_pc st = Returned ExitQuit -> quit st = true) /\
               (quit st = true -> q = true \/ In QuitClosed ins))
    by (destruct Hx as [H1 H2]; intros E; split; auto).
  revert ins st H.
  apply (@identify_ind_inputs
           (fun ins st =>
              (at_pc st = Returned ExitQuit -> quit st = true) /\
              (quit st = true -> q = true \/ In QuitClosed ins))).
  - intros st Hs.
    destruct Hs as [r a Hr Hb Ha|r a Hr Hb Ha|r Hr Hb Ha|st Hr Hp];
      simpl; try (split; [discriminate|now left]).
    destruct (Proceed_quit Hp) as [-> Hn]. simpl.
    split; [intros E; now destruct Hn | now left].
  - intros ins st i st' _ [IH1 IH2] Hs.
    assert (Hin : forall x, In x ins -> In x (ins ++ [i]))
      by (intros x Hx; apply in_or_app; now left).
    destruct Hs;
      try (match goal with Hp : Proceed _ _ |- _ =>
             destruct (Proceed_quit Hp) as [-> Hn]; simpl;
             split; [intros E; now destruct Hn|];
             intros E; destruct (IH2 E); auto
           end);
      try (destruct c); simpl;
      try match goal with Hpc : at_pc st = _ |- _ => rewrite Hpc end;
      (split; [try discriminate; auto|]);
      try (intros E; destruct (IH2 E); now auto).
    intros _. right. apply in_or_app. right. now left.
Qed.

(** *** The second loop *)

Lemma Step_merge_pc st i st' :
  Step st i st' -> at_pc st = InMerge ->
  at_pc st' = InMerge \/ at_pc st' = Panicked \/
  (at_pc st' = Returned ExitDone /\ all_nil st').
Proof.
  intros Hs Hpc.
  destruct Hs; try congruence; simpl; auto.
  left. destruct c; exact Hpc.
Qed.

Lemma run_stopped ins : forall st st',
  at_pc st <> InSeqOnly -> at_pc st <> InMerge ->
  run st ins = Some st' -> st' = st.
Proof.
  destruct ins as [|i ins]; simpl; intros st st' H1 H2 H.
  - congruence.
  - unfold step in H. destruct (at_pc st); try discriminate; congruence.
Qed.

(** X3: Once in the second loop, a call leaves it only by the return of line
    128, with all four channel variables nil (or by a panic): [quit] is
    not looked at again. *)
Theorem merge_exits_by_exhaustion ins : forall st st',
  at_pc st = InMerge -> run st ins = Some st' ->
  at_pc st' = InMerge \/ at_pc st' = Panicked \/
  (at_pc st' = Returned ExitDone /\ all_nil st').
Proof.
  induction ins as [|i ins IH]; simpl; intros st st' Hpc H.
  - injection H as <-. auto.
  - destruct (step st i) as [st1|] eqn:E; [|discriminate].
    apply step_Step in E.
    destruct (Step_merge_pc E Hpc) as [H1|[H1|[H1 H2]]].
    + eauto.
    + apply run_stopped in H; try congruence. subst. auto.
    + apply run_stopped in H; try congruence. subst. auto.
Qed.

Lemma step_with_quit st i :
  at_pc st <> InSeqOnly ->
  step (with_quit st true) i =
  option_map (fun s => with_quit s true) (step st i).
Proof.
  destruct st as [m bf q p cb cbf cef ce tr]; simpl; intros Hp.
  destruct p; try reflexivity; try congruence.
  unfold step; simpl.
  destruct i as [[r|]|[r|]|[r|]|[r|]| |]; simpl; try reflexivity.
  - destruct cb; simpl; try reflexivity.
    destruct (strike_b m r); simpl; norm_state;
      destruct cbf, cef, ce; reflexivity.
  - destruct cb; simpl; try reflexivity;
      norm_state; destruct cbf, cef, ce; reflexivity.
  - destruct cbf; simpl; try reflexivity.
    destruct (strike_bf m r); simpl; norm_state;
      destruct cb, cef, ce; reflexivity.
  - destruct cbf; simpl; try reflexivity;
      norm_state; destruct cb, cef, ce; reflexivity.
  - destruct cef; simpl; try reflexivity.
    destruct (strike_ef m r); simpl; norm_state;
      destruct cb, cbf, ce; reflexivity.
  - destruct cef; simpl; try reflexivity;
      norm_state; destruct cb, cbf, ce; reflexivity.
  - destruct ce; simpl; try reflexivity.
    destruct (strike_e m r); simpl; norm_state;
      destruct cb, cbf, cef; reflexivity.
  - destruct ce; simpl; try reflexivity;
      norm_state; destruct cb, cbf, cef; reflexivity.
Qed.

Lemma step_leaves_first_loop st i st' :
  at_pc st <> InSeqOnly -> step st i = Some st' -> at_pc st' <> InSeqOnly.
Proof.
  intros Hp H. apply step_Step in H.
  destruct (at_pc st) eqn:E; try congruence.
  - destruct (Step_merge_pc H E) as [H1|[H1|[H1 _]]]; congruence.
  - destruct H; congruence || (destruct H; congruence).
  - destruct H; congruence || (destruct H; congruence).
Qed.

(** X4: Closing [quit] while a call is in its second loop changes nothing of
    what the call does: the same receives, the same strikes, the same
    return. *)
Theorem merge_ignores_quit ins : forall st,
  at_pc st = InMerge ->
  run (with_quit st true) ins =
  option_map (fun s => with_quit s true) (run st ins).
Proof.
  enough (Hx : forall st, at_pc st <> InSeqOnly ->
                run (with_quit st true) ins =
                option_map (fun s => with_quit s true) (run st ins))
    by (intros st E; apply Hx; congruence).
  induction ins as [|i ins IH]; simpl; intros st Hpc; auto.
  rewrite (@step_with_quit st i Hpc).
  destruct (step st i) as [st1|] eqn:E; simpl; auto.
  apply IH. eapply step_leaves_first_loop; eauto.
Qed.

(** *** Every result received is sent on *)

Lemma received_app tr1 tr2 :
  received (tr1 ++ tr2) = (received tr1 + received tr2)%nat.
Proof. unfold received. now rewrite filter_app, length_app. Qed.

Lemma Proceed_counts st st' :
  Proceed st st' ->
  received (trace st') = received (trace st) /\
  sent (trace st') = sent (trace st).
Proof.
  intros Hp; destruct Hp; simpl;
    rewrite ?received_app, ?sent_app; simpl;
    rewrite ?app_nil_r, ?Nat.add_0_r; auto.
Qed.

(** X5: At every [select], and when the call has returned, as many strikes
    have been sent as results have been received: a result is wrapped and
    sent before anything else is received, none is dropped and none sent
    twice.  A call that panicked did so on the one result it had received
    and not sent, or before any. *)
Theorem one_in_one_out m c st :
  identify m c = Some st ->
  (List.length (sent (trace st)) <= received (trace st) <=
   S (List.length (sent (trace st))))%nat /\
  (at_pc st <> Panicked ->
   List.length (sent (trace st)) = received (trace st)).
Proof.
  enough (Hx : identify m c = Some st ->
               match at_pc st with
               | Panicked =>
                   (List.length (sent (trace st)) <= received (trace st) <=
                    S (List.length (sent (trace st))))%nat
               | _ => List.length (sent (trace st)) = received (trace st)
               end).
  { intros H. specialize (Hx H).
    destruct (at_pc st); split; try lia; congruence. }
  revert st; apply identify_ind.
  - intros st Hs.
    destruct Hs as [r a Hr Hb Ha|r a Hr Hb Ha|r Hr Hb Ha|st Hr Hp];
      simpl; try reflexivity; try (unfold received; simpl; lia).
    destruct (Proceed_counts Hp) as [-> ->]. simpl.
    destruct (at_pc st); unfold received; simpl; lia.
  - intros st i st' IH Hs.
    destruct Hs;
      try (match goal with Hp : Proceed _ _ |- _ =>
             let E1 := fresh "E" in
             let E2 := fresh "E" in
             destruct (Proceed_counts Hp) as [E1 E2]; rewrite E1, E2;
             simpl; rewrite ?received_app, ?sent_app, ?length_app;
             change (received [@EvRecvSeq Seq false None]) with 0%nat;
             change (received [@EvGate Seq]) with 0%nat; simpl;
             repeat match goal with
                    | H : at_pc st = _ |- _ => rewrite H in IH
                    end;
             destruct (at_pc st'); lia
           end);
      try inv_decode; try destruct c0; simpl;
      rewrite ?received_app, ?sent_app, ?length_app; simpl;
      repeat match goal with
             | H : at_pc st = _ |- _ => rewrite H in *
             | H : _ \/ _ |- _ => destruct H
             end;
      unfold received in *; simpl; rewrite ?length_app; simpl; lia.
Qed.

(** *** Return on exhaustion *)

Ltac eval_closes :=
  repeat match goal with
         | |- context [closes [?e]] =>
             let v := eval compute in (closes [e]) in
             change (closes [e]) with v
         end.

Lemma closing_returns st :
  at_pc st = InMerge -> ~ all_nil st ->
  exists st', run st (closing st) = Some st' /\
              at_pc st' = Returned ExitDone /\
              b st' = b st /\
              sent (trace st') = sent (trace st) /\
              closes (trace st') = S (closes (trace st)).
Proof.
  destruct st as [m bf q p cb cbf cef ce tr]; simpl; intros -> Hn.
  unfold all_nil in Hn; simpl in Hn.
  destruct cbf, cef, cb, ce; try (exfalso; apply Hn; now auto);
    unfold closing; simpl;
    (eexists; split; [reflexivity|]); simpl;
    rewrite ?sent_app, ?closes_app; simpl; rewrite ?app_nil_r;
    eval_closes; repeat split; lia.
Qed.

(** X6: A call on a well-formed Matcher can always be brought to its return:
    whatever it has consumed so far, once the producers close their
    channels it closes the output channel and returns, without sending
    anything more.  From the first loop the close of the forward-sequence
    channel is enough when [quit] is closed or the reverse reader fails;
    otherwise the closes of the channels still in use follow. *)
Theorem can_always_return m c st :
  wf m -> identify m c = Some st ->
  at_pc st = InSeqOnly \/ at_pc st = InMerge ->
  exists ins st' x,
    identify m (mkCall (c_buf c) (c_quit c) (c_inputs c ++ ins)) = Some st' /\
    at_pc st' = Returned x /\
    sent (trace st') = sent (trace st) /\
    closes (trace st') = 1%nat /\
    Forall (fun i => i = FromB None \/ i = FromBF None \/
                     i = FromEF None \/ i = FromE None) ins.
Proof.
  intros Hw H Hpc.
  pose proof (closed_once_run _ _ H) as Hco. unfold closed_once in Hco.
  pose proof (wf_run _ H Hw) as Hw'.
  assert (Hall : forall s : state Seq,
             Forall (fun i : input => i = FromB None \/ i = FromBF None \/
                              i = FromEF None \/ i = FromE None)
                    (closing s)).
  { intros s. unfold closing.
    destruct (bfchan s), (efchan s), (bchan s), (echan s); simpl;
      repeat apply Forall_cons; try apply Forall_nil; auto 6. }
  unfold identify in *; simpl. setoid_rewrite run_app. rewrite H.
  destruct Hpc as [Hpc|Hpc]; rewrite Hpc in Hco; destruct Hco as [Hc0 Hch].
  - pose proof (@step_seq_closed st Hpc Hch) as Es.
    destruct (quit st) eqn:Eq.
    + exists [FromB None]. eexists. exists ExitQuit. simpl. rewrite Es.
      split; [reflexivity|]. simpl. rewrite !sent_app, !closes_app, Hc0; simpl.
      rewrite !app_nil_r. eval_closes.
      repeat split; auto.
    + set (st0 := with_bchan (emit st [EvRecvSeq false None]) closed_chan)
        in *.
      assert (Hs0 : sent (trace st0) = sent (trace st)).
      { unfold st0; simpl. rewrite sent_app; simpl. apply app_nil_r. }
      assert (Hc1 : closes (trace st0) = 0%nat).
      { unfold st0; simpl. rewrite closes_app, Hc0. reflexivity. }
      assert (Hw0 : wf (b st0)) by exact Hw'.
      assert (Hp := proceed_Proceed st0).
      set (st1 := proceed st0) in *. clearbody st1.
      assert (Hmerge : at_pc st1 = InMerge ->
                       bfchan st1 = open_chan ->
                       sent (trace st1) = sent (trace st0) ->
                       closes (trace st1) = 0%nat ->
                       exists ins st' x,
                         run st ins = Some st' /\
                         at_pc st' = Returned x /\
                         sent (trace st') = sent (trace st) /\
                         closes (trace st') = 1%nat /\
                         Forall (fun i : input =>
                                   i = FromB None \/ i = FromBF None \/
                                   i = FromEF None \/ i = FromE None) ins).
      { intros E1 E2 E3 E4.
        destruct (@closing_returns st1 E1)
          as (st' & R1 & R2 & _ & R3 & R4).
        { unfold all_nil. rewrite E2. intros (X & _). discriminate. }
        exists (FromB None :: closing st1), st', ExitDone.
        simpl. rewrite Es, R1. repeat split; auto; congruence. }
      clearbody st0.
      destruct Hp as [E|E|r a E Hs Ha|r a E Hs Ha|r E Hs Ha].
      * exists [FromB None]. eexists. exists ExitErr. simpl. rewrite Es.
        split; [reflexivity|]. simpl.
        rewrite !sent_app, !closes_app, Hs0, Hc1; simpl.
        rewrite !app_nil_r. eval_closes. repeat split; auto.
      * apply Hmerge; simpl; auto.
        -- rewrite !sent_app; simpl. now rewrite !app_nil_r.
        -- rewrite !closes_app, Hc1. reflexivity.
      * apply Hmerge; simpl; auto.
        -- rewrite !sent_app; simpl. now rewrite !app_nil_r.
        -- rewrite !closes_app, Hc1. reflexivity.
      * apply Hmerge; simpl; auto.
        -- rewrite !sent_app; simpl. now rewrite !app_nil_r.
        -- rewrite !closes_app, Hc1. reflexivity.
      * exfalso. destruct Hw0 as [_ Hw0].
        rewrite (Hw0 Hs) in Ha. discriminate.
  - destruct (@closing_returns st Hpc Hch) as (st' & R1 & R2 & _ & R3 & R4).
    exists (closing st), st', ExitDone. rewrite R1.
    repeat split; auto. lia.
Qed.

(** *** The Matcher after a call *)

(** X7: A call leaves the configuration of its Matcher alone and only ever
    adds engines: an engine that was started stays, with its flag; a flag
    that is newly set goes with the engine compiled from the Matcher's own
    pattern set, and with a non-zero limit on that side. *)
Theorem matcher_only_gains_engines m c st :
  identify m c = Some st ->
  same_config (b st) m /\
  (bstarted m = true -> bstarted (b st) = true /\ bAho (b st) = bAho m) /\
  (estarted m = true -> estarted (b st) = true /\ eAho (b st) = eAho m) /\
  (bstarted m = false -> bstarted (b st) = true ->
   MaxBOF m <> 0 /\ bAho (b st) = Some (wac.New (Set' (BOFSeq m)))) /\
  (estarted m = false -> estarted (b st) = true ->
   MaxEOF m <> 0 /\ eAho (b st) = Some (wac.New (Set' (EOFSeq m)))).
Proof.
  intros H.
  destruct (engine_inv_run _ _ H) as (_ & _ & Hm & _).
  destruct (base_run _ _ H) as [_ Hcfg].
  destruct (after_init_bstarted m (c_buf c)) as (I1 & I2 & I3).
  destruct (after_init_keeps m (c_buf c)) as ((_ & I0 & _) & I4 & I5).
  destruct (after_setup_keeps m (c_buf c)) as (_ & S1 & S2).
  destruct (after_setup_estarted m (c_buf c)) as (S3 & S4).
  assert (Hba : bAho (b st) = bAho (after_init m (c_buf c))).
  { rewrite Hm. now destruct (existsb is_frames (trace st)). }
  assert (Hbs : bstarted (b st) = bstarted (after_init m (c_buf c))).
  { rewrite Hm. now destruct (existsb is_frames (trace st)). }
  split; [exact Hcfg|].
  split; [intros E; rewrite Hbs, Hba, I1, E; auto|].
  split.
  { intros E. rewrite Hm.
    destruct (existsb is_frames (trace st)).
    - rewrite S3, E. auto.
    - rewrite I4, I5. auto. }
  split.
  { intros E1 E2. rewrite Hbs, I1, E1 in E2. simpl in E2.
    split; [|rewrite Hba; now apply I3].
    intros E0. unfold forward_reader in E2. rewrite E0 in E2. discriminate. }
  intros E1 E2. rewrite Hm in E2 |- *.
  destruct (existsb is_frames (trace st)); [|congruence].
  rewrite S3, E1 in E2. simpl in E2.
  unfold rrdr_some in E2. unfold after_setup, start_eof.
  destruct (reverse_reader m (c_buf c)) as [[r|]|] eqn:Er; try discriminate.
  rewrite I4, E1. simpl. rewrite I0. split; [|reflexivity].
  intros E0. unfold reverse_reader in Er. rewrite E0 in Er. discriminate.
Qed.

(** *** The close of the forward-sequence channel *)

Lemma bcloses_app tr1 tr2 :
  bcloses (tr1 ++ tr2) = (bcloses tr1 + bcloses tr2)%nat.
Proof. unfold bcloses. now rewrite filter_app, length_app. Qed.

Lemma Proceed_bcloses st st' :
  Proceed st st' ->
  bcloses (trace st') = bcloses (trace st) /\
  existsb is_gate (trace st') = existsb is_gate (trace st) /\
  bchan st' = bchan st /\
  (at_pc st' = InMerge \/ at_pc st' = Returned ExitErr \/
   at_pc st' = Panicked).
Proof.
  intros Hp; destruct Hp; simpl;
    rewrite ?bcloses_app, ?existsb_app; simpl;
    rewrite ?Nat.add_0_r, ?orb_false_r; auto 6.
Qed.

Lemma bclose_inv_run m c st :
  identify m c = Some st -> bclose_inv m (c_buf c) st.
Proof.
  destruct c as [bf q ins]. simpl. revert ins st.
  apply identify_ind_reach.
  - intros st Hs.
    destruct Hs as [r a Hr Hb Ha|r a Hr Hb Ha|r Hr Hb Ha|st Hr Hp];
      try (unfold bclose_inv; simpl; now auto).
    destruct (Proceed_bcloses Hp) as (E1 & E2 & E3 & E4).
    unfold bclose_inv. simpl in *. rewrite E1, E2, E3, Hr. simpl.
    destruct E4 as [->|[->| ->]]; auto.
  - intros ins st i st' Hreach IH Hs.
    pose proof (chan_inv_run _ _ Hreach) as [Hch _]. simpl in Hch.
    pose proof (closed_once_run _ _ Hreach) as Hco.
    unfold bclose_inv, closed_once in *.
    destruct Hs as [r s Hpc Hb Hk|r Hpc Hb Hk|Hpc Hb Hq|st' Hpc Hb Hq Hp
                   |st' Hpc Hp|i c ev s Hpc Hd Hc|i c ev Hpc Hd Hc
                   |i c ev Hpc Hd Hc Hn|i c ev Hpc Hd Hc Hn|Hpc];
      try (destruct Hpc as [Hpc|Hpc]);
      rewrite Hpc in IH, Hco; simpl;
      try inv_decode; simpl in *;
      try (rewrite Hpc);
      rewrite ?bcloses_app, ?existsb_app; simpl;
      rewrite ?Nat.add_0_r, ?orb_false_r; auto.
    + destruct (Proceed_bcloses Hp) as (E1 & E2 & E3 & E4).
      rewrite E1, E2, E3; simpl. rewrite bcloses_app, existsb_app.
      destruct IH as [-> ->]. simpl.
      destruct E4 as [->|[->| ->]]; auto.
    + destruct (Proceed_bcloses Hp) as (E1 & E2 & E3 & E4).
      rewrite E1, E2, E3; simpl. rewrite bcloses_app, existsb_app.
      destruct IH as [-> ->]. destruct Hco as [_ ->]. simpl.
      destruct E4 as [->|[->| ->]]; auto.
    + change (bcloses [@EvRecvSeq Seq false None]) with 1%nat.
      destruct (forward_reader m bf) eqn:Ef; simpl.
      * destruct (bchan st); try congruence; destruct IH as [-> ->];
          reflexivity.
      * destruct (Hch eq_refl) as [E _]. congruence.
    + change (bcloses [@EvRecvSeq Seq false None]) with 1%nat.
      destruct (forward_reader m bf) eqn:Ef; simpl.
      * destruct (bchan st); try congruence; destruct IH as [-> ->];
          reflexivity.
      * destruct (Hch eq_refl) as [E _]. congruence.
Qed.

(** X8: A call that returns by exhaustion has received the close of the
    forward-sequence channel once when the gate ended its first loop, and
    twice when that close ended it: the channel seen closed at line 52 is
    carried into the second loop as it is and read once more before line
    113 disables it.  Without a forward reader the channel is never
    received from. *)
Theorem forward_close_received m c st :
  identify m c = Some st -> at_pc st = Returned ExitDone ->
  bcloses (trace st) =
  if MaxBOF m =? 0 then 0%nat
  else if existsb is_gate (trace st) then 1%nat else 2%nat.
Proof.
  intros H Hpc.
  pose proof (bclose_inv_run _ _ H) as Hi.
  pose proof (closed_once_run _ _ H) as Hco.
  unfold bclose_inv, closed_once in *. rewrite Hpc in *.
  destruct Hco as [_ Hco].
  assert (Hn : bchan st = nil_chan).
  { destruct (rev (trace st)) as [|[] ?]; try contradiction.
    now destruct Hco as (_ & _ & ? & _). }
  rewrite Hn in Hi.
  destruct (forward_reader_sign m (c_buf c)) as (F1 & F2 & F3).
  destruct (Z.eqb_spec (MaxBOF m) 0) as [E|E].
  - rewrite (F3 E) in Hi. exact Hi.
  - assert (E' : 0 < MaxBOF m \/ MaxBOF m < 0) by lia.
    destruct E' as [E'|E']; [rewrite (F1 E') in Hi|rewrite (F2 E') in Hi];
      exact Hi.
Qed.

(** *** The lazy construction is not seen by a caller *)

Lemma visible_app tr1 tr2 : visible (tr1 ++ tr2) = visible tr1 ++ visible tr2.
Proof. unfold visible. apply filter_app. Qed.

Lemma sent_visible tr : sent (visible tr) = sent tr.
Proof.
  induction tr as [|e tr IH]; simpl; auto.
  destruct e; simpl; rewrite ?IH; reflexivity.
Qed.

Lemma closes_visible tr : closes (visible tr) = closes tr.
Proof.
  unfold closes. induction tr as [|e tr IH]; simpl; auto.
  destruct e; simpl; rewrite ?IH; reflexivity.
Qed.

(** The listed moves are the moves of the functions. *)
Lemma Proceed_proceed st st' : Proceed st st' -> st' = proceed st.
Proof.
  destruct st as [m bf q p cb cbf cef ce tr]. intros Hp.
  destruct Hp as [E|E|r a E Hs Ha|r a E Hs Ha|r E Hs Ha]; simpl in *;
    norm_state; rewrite E; try reflexivity;
    unfold start_eof; simpl; rewrite Hs; simpl; rewrite ?Ha; subst;
    reflexivity.
Qed.

Lemma can_recv_open_closed (A : Type) c :
  c <> nil_chan -> can_recv c (@None A) = true.
Proof. destruct c; simpl; congruence. Qed.

Lemma Step_step st i st' : Step st i st' -> step st i = Some st'.
Proof.
  intros Hs.
  destruct Hs as [r s Hpc Hb Hk|r Hpc Hb Hk|Hpc Hb Hq|st' Hpc Hb Hq Hp
                 |st' Hpc Hp|i c ev s Hpc Hd Hc|i c ev Hpc Hd Hc
                 |i c ev Hpc Hd Hc Hn|i c ev Hpc Hd Hc Hn|Hpc].
  - now apply step_seq_value.
  - unfold step, step_seq_only. rewrite Hpc, Hb; simpl. now rewrite Hk.
  - unfold step, step_seq_only.
    rewrite Hpc, (can_recv_open_closed _ Hb); simpl. now rewrite Hq.
  - unfold step, step_seq_only.
    rewrite Hpc, (can_recv_open_closed _ Hb); simpl. rewrite Hq.
    now rewrite (Proceed_proceed Hp).
  - rewrite (step_gate _ Hpc). now rewrite (Proceed_proceed Hp).
  - inv_decode; simpl in Hc; unfold step, step_merge; rewrite Hpc, Hc; simpl;
      match goal with H : _ = Some s |- _ => rewrite H end; simpl; f_equal;
      [ now apply after_select_send with SrcB
      | now apply after_select_send with SrcBF
      | now apply after_select_send with SrcEF
      | now apply after_select_send with SrcE ].
  - inv_decode; simpl in Hc; unfold step, step_merge; rewrite Hpc, Hc; simpl;
      match goal with H : _ = None |- _ => rewrite H end; reflexivity.
  - inv_decode; simpl in Hc; unfold step, step_merge;
      rewrite Hpc, (can_recv_open_closed _ Hc); f_equal;
      apply after_select_more; auto.
  - inv_decode; simpl in Hc; unfold step, step_merge;
      rewrite Hpc, (can_recv_open_closed _ Hc); f_equal;
      apply after_select_done; auto.
  - unfold step. destruct Hpc as [-> | ->]; reflexivity.
Qed.

Lemma sim_emit st1 st2 evs1 evs2 :
  sim st1 st2 -> visible evs1 = visible evs2 ->
  sim (emit st1 evs1) (emit st2 evs2).
Proof.
  unfold sim; simpl. rewrite !visible_app.
  intros (H1 & H2 & H3 & H4 & H5 & H6 & H7 & H8 & H9 & H10 & H11) ->.
  rewrite H11. auto 12.
Qed.

Lemma sim_goto st1 st2 p : sim st1 st2 -> sim (goto st1 p) (goto st2 p).
Proof. unfold sim; simpl. intuition. Qed.

Lemma sim_with_quit st1 st2 q :
  sim st1 st2 -> sim (with_quit st1 q) (with_quit st2 q).
Proof. unfold sim; simpl. intuition. Qed.

Lemma sim_with_bchan st1 st2 c :
  sim st1 st2 -> sim (with_bchan st1 c) (with_bchan st2 c).
Proof. unfold sim; simpl. intuition. Qed.

Lemma sim_set_nil st1 st2 c :
  sim st1 st2 -> sim (set_nil c st1) (set_nil c st2).
Proof. destruct c; unfold sim; simpl; intuition. Qed.

Lemma sim_close_return st1 st2 x :
  sim st1 st2 -> sim (close_return st1 x) (close_return st2 x).
Proof. intros H. unfold close_return. now apply sim_goto, sim_emit. Qed.

Lemma sim_all_nil st1 st2 : sim st1 st2 -> all_nil st1 -> all_nil st2.
Proof.
  unfold sim, all_nil.
  intros (_ & _ & _ & <- & <- & <- & <- & _). auto.
Qed.

Lemma sim_sym st1 st2 : sim st1 st2 -> sim st2 st1.
Proof.
  unfold sim. intros (H1 & H2 & H3 & H4 & H5 & H6 & H7 & H8 & H9 & H10 & H11).
  apply same_config_sym in H8. auto 12.
Qed.

Lemma sim_chan_of st1 st2 c : sim st1 st2 -> chan_of c st2 = chan_of c st1.
Proof.
  intros (_ & _ & _ & H4 & H5 & H6 & H7 & _). destruct c; simpl; auto.
Qed.

Lemma sim_decode st1 st2 i : sim st1 st2 -> decode (b st2) i = decode (b st1) i.
Proof.
  intros (_ & _ & _ & _ & _ & _ & _ & Hc & _).
  destruct (same_config_strikes Hc) as (S1 & S2 & S3 & S4).
  destruct i as [[r|]|[r|]|[r|]|[r|]| |]; simpl; try reflexivity;
    now rewrite ?S1, ?S2, ?S3, ?S4.
Qed.

Lemma sim_Proceed st1 st2 st1' st2' :
  sim st1 st2 -> Proceed st1 st1' -> Proceed st2 st2' -> sim st1' st2'.
Proof.
  intros (Hpc & Hq & Hbuf & Hb & Hbf & Hef & He & Hcfg & Hw1 & Hw2 & Hv) P1 P2.
  assert (Er : reverse_reader (b st1) (buf st1) =
               reverse_reader (b st2) (buf st2)).
  { rewrite Hbuf. now apply reverse_reader_config. }
  pose proof Hw1 as [_ Hw1e]. pose proof Hw2 as [_ Hw2e].
  pose proof Hcfg as (_ & Ce & _).
  destruct P1 as [E1|E1|r1 a1 E1 Hs1 Ha1|r1 a1 E1 Hs1 Ha1|r1 E1 Hs1 Ha1];
    destruct P2 as [E2|E2|r2 a2 E2 Hs2 Ha2|r2 a2 E2 Hs2 Ha2|r2 E2 Hs2 Ha2];
    try congruence;
    try (specialize (Hw1e Hs1)); try (specialize (Hw2e Hs2));
    try congruence;
    unfold sim; simpl; unfold wf in *; simpl;
    rewrite !visible_app, Hv; simpl;
    repeat match goal with |- _ /\ _ => split end; auto; try congruence;
    try (destruct Hw1 as [Hx _]; exact Hx);
    destruct Hw2 as [Hx _]; exact Hx.
Qed.

Lemma sim_Step st1 st2 i st1' :
  sim st1 st2 -> Step st1 i st1' ->
  exists st2', Step st2 i st2' /\ sim st1' st2'.
Proof.
  intros Hsim Hs.
  pose proof Hsim as (Hpc & Hq & Hbuf & Hb & _ & _ & _ & Hcfg & _).
  destruct (same_config_strikes Hcfg) as (S1 & _).
  pose proof (fun c => @sim_chan_of st1 st2 c Hsim) as Hch.
  pose proof (fun i => @sim_decode st1 st2 i Hsim) as Hdec.
  destruct Hs as [r s Hp Hc Hk|r Hp Hc Hk|Hp Hc Hk|st' Hp Hc Hk HP
                 |st' Hp HP|i c ev s Hp Hd Hc|i c ev Hp Hd Hc
                 |i c ev Hp Hd Hc Hn|i c ev Hp Hd Hc Hn|Hp].
  - eexists; split.
    + apply Q_send; [congruence|congruence|rewrite <- S1; exact Hk].
    + auto using sim_emit.
  - eexists; split.
    + apply Q_panic; [congruence|congruence|rewrite <- S1; exact Hk].
    + auto using sim_emit, sim_goto.
  - eexists; split.
    + apply Q_cancel; congruence.
    + auto using sim_emit, sim_with_bchan, sim_close_return.
  - eexists; split.
    + apply Q_exhausted; [congruence|congruence|congruence|].
      apply proceed_Proceed.
    + eapply sim_Proceed; [|exact HP|apply proceed_Proceed].
      auto using sim_emit, sim_with_bchan.
  - eexists; split.
    + apply Q_gate; [congruence|]. apply proceed_Proceed.
    + eapply sim_Proceed; [|exact HP|apply proceed_Proceed].
      auto using sim_emit.
  - eexists; split.
    + apply (@M_send _ st2 i c ev s); [congruence|now rewrite Hdec|now rewrite Hch].
    + auto using sim_emit.
  - eexists; split.
    + apply (@M_panic _ st2 i c ev); [congruence|now rewrite Hdec|now rewrite Hch].
    + auto using sim_emit, sim_goto.
  - eexists; split.
    + apply (@M_close _ st2 i c ev); [congruence|now rewrite Hdec|now rewrite Hch|].
      intros Hx. apply Hn.
      eapply sim_all_nil; [|exact Hx].
      apply sim_sym. auto using sim_emit, sim_set_nil.
    + auto using sim_emit, sim_set_nil.
  - eexists; split.
    + apply (@M_done _ st2 i c ev); [congruence|now rewrite Hdec|now rewrite Hch|].
      eapply sim_all_nil; [|exact Hn]. auto using sim_emit, sim_set_nil.
    + auto using sim_emit, sim_set_nil, sim_close_return.
  - eexists; split.
    + apply X_quit. rewrite <- Hpc. exact Hp.
    + auto using sim_with_quit.
Qed.

Lemma sim_run ins : forall st1 st2 st1',
  sim st1 st2 -> run st1 ins = Some st1' ->
  exists st2', run st2 ins = Some st2' /\ sim st1' st2'.
Proof.
  induction ins as [|i ins IH]; simpl; intros st1 st2 st1' Hsim H.
  - injection H as <-. eauto.
  - destruct (step st1 i) as [s1|] eqn:E; [|discriminate].
    apply step_Step in E.
    destruct (sim_Step Hsim E) as (s2 & E2 & Hsim2).
    rewrite (Step_step E2). eauto.
Qed.

Lemma sim_Start m1 m2 bf q st1 st2 :
  wf m1 -> wf m2 -> same_config m1 m2 ->
  Start m1 bf q st1 -> Start m2 bf q st2 -> sim st1 st2.
Proof.
  intros Hw1 Hw2 Hcfg H1 H2.
  assert (Er : forward_reader m1 bf = forward_reader m2 bf).
  { destruct Hcfg as (_ & _ & _ & _ & E & _). unfold forward_reader.
    now rewrite E. }
  pose proof Hw1 as [Hw1b _]. pose proof Hw2 as [Hw2b _].
  pose proof Hcfg as (Cb & _).
  destruct H1 as [r1 a1 E1 Hs1 Ha1|r1 a1 E1 Hs1 Ha1|r1 E1 Hs1 Ha1|st1 E1 P1];
    destruct H2 as [r2 a2 E2 Hs2 Ha2|r2 a2 E2 Hs2 Ha2|r2 E2 Hs2 Ha2|st2 E2 P2];
    try congruence;
    try (specialize (Hw1b Hs1)); try (specialize (Hw2b Hs2));
    try congruence;
    try (eapply sim_Proceed; [|exact P1|exact P2]);
    unfold sim; simpl; unfold wf in *; simpl;
    repeat match goal with |- _ /\ _ => split end; auto; try congruence;
    try (destruct Hw1 as [_ Hx]; exact Hx);
    try (destruct Hw2 as [_ Hx]; exact Hx).
Qed.

(** X9: Whether the engines of a Matcher are already there or are built by
    the call makes no difference to what the call does: on two
    well-formed Matchers with the same configuration, the same call
    consuming the same inputs ends at the same place with the same trace
    up to the engine builds, hence the same strikes in the same order
    and the same close of the output channel; and it is blocked on the one
    exactly when it is blocked on the other. *)
Theorem caching_is_transparent m1 m2 c :
  wf m1 -> wf m2 -> same_config m1 m2 ->
  match identify m1 c, identify m2 c with
  | Some st1, Some st2 =>
      at_pc st1 = at_pc st2 /\
      visible (trace st1) = visible (trace st2) /\
      sent (trace st1) = sent (trace st2) /\
      closes (trace st1) = closes (trace st2) /\
      same_config (b st1) (b st2)
  | None, None => True
  | _, _ => False
  end.
Proof.
  intros Hw1 Hw2 Hcfg.
  assert (H0 : sim (identify_start m1 (c_buf c) (c_quit c))
                   (identify_start m2 (c_buf c) (c_quit c))).
  { apply (@sim_Start m1 m2 (c_buf c) (c_quit c)); auto;
      apply start_Start. }
  unfold identify.
  destruct (run (identify_start m1 (c_buf c) (c_quit c)) (c_inputs c))
    as [st1|] eqn:E1.
  - destruct (sim_run _ H0 E1) as (st2 & -> & Hs).
    destruct Hs as (Hpc & _ & _ & _ & _ & _ & _ & Hc & _ & _ & Hv).
    rewrite <- (sent_visible (trace st1)), <- (sent_visible (trace st2)).
    rewrite <- (closes_visible (trace st1)), <- (closes_visible (trace st2)).
    rewrite Hv. auto.
  - destruct (run (identify_start m2 (c_buf c) (c_quit c)) (c_inputs c))
      as [st2|] eqn:E2; auto.
    destruct (sim_run _ (sim_sym H0) E2) as (st1 & E & _). congruence.
Qed.
End Properties.

(** * Properties of package [config] *)

Section ConfigProperties.

Implicit Types (p : config.pronom.t) (puids ex : list String.string).
Implicit Types (x v : String.string).

(** ** [Limit] *)

Lemma fold_append (A B : Type) (f : B -> list A) (l : list B) :
  forall acc, fold_left (fun ret y => ret ++ f y) l acc = acc ++ flat_map f l.
Proof.
  induction l as [|y l IH]; intros acc; simpl.
  - now rewrite app_nil_r.
  - now rewrite IH, app_assoc.
Qed.

Lemma fold_left_ext (A B : Type) (f g : A -> B -> A) (l : list B) :
  (forall a y, f a y = g a y) ->
  forall acc, fold_left f l acc = fold_left g l acc.
Proof.
  intros H. induction l as [|y l IH]; intros acc; simpl; auto.
  now rewrite H, IH.
Qed.

Lemma Limit_inner v puids : forall ret,
  fold_left (fun ret w => if String.eqb v w then ret ++ [v] else ret)
            puids ret =
  ret ++ filter (String.eqb v) puids.
Proof.
  induction puids as [|w puids IH]; intros ret; simpl.
  - now rewrite app_nil_r.
  - rewrite IH. destruct (String.eqb_spec v w) as [->|Hn].
    + now rewrite <- app_assoc.
    + reflexivity.
Qed.

(** The two nested loops of [Limit], from any [ret]. *)
Lemma Limit_fold puids (l : list String.string) : forall ret,
  fold_left
    (fun ret v =>
       fold_left (fun ret w => if String.eqb v w then ret ++ [v] else ret)
                 puids ret)
    l ret =
  ret ++ flat_map (fun v => filter (String.eqb v) puids) l.
Proof.
  intros ret.
  rewrite (@fold_left_ext _ _ _
             (fun ret v => ret ++ filter (String.eqb v) puids)).
  - apply fold_append.
  - intros a y. apply Limit_inner.
Qed.

(** X10: [Limit] in closed form: the result runs through the limit set in its
    order, and gives for each of its members the occurrences of that
    member in [puids]; the order of [puids] plays no part. *)
Theorem Limit_closed_form p puids :
  config.Limit p puids =
  flat_map (fun v => filter (String.eqb v) puids) (config.pronom.limit p).
Proof.
  unfold config.Limit. rewrite Limit_fold. reflexivity.
Qed.

(** X11: Membership: a puid is in the result exactly when it is in the limit
    set and in [puids]. *)
Theorem Limit_In p puids x :
  In x (config.Limit p puids) <->
  In x (config.pronom.limit p) /\ In x puids.
Proof.
  unfold config.Limit. rewrite Limit_fold. simpl. rewrite in_flat_map. split.
  - intros (v & Hv & Hx). apply filter_In in Hx. destruct Hx as [Hx E].
    apply String.eqb_eq in E. subst. auto.
  - intros [H1 H2]. exists x. split; auto.
    apply filter_In. split; auto. apply String.eqb_refl.
Qed.

Lemma count_occ_filter_eqb v puids x :
  count_occ String.string_dec (filter (String.eqb v) puids) x =
  if String.string_dec v x then count_occ String.string_dec puids x else 0%nat.
Proof.
  induction puids as [|w puids IH]; simpl.
  - now destruct (String.string_dec v x).
  - destruct (String.eqb_spec v w) as [->|Hn]; simpl; rewrite IH.
    + destruct (String.string_dec w x); reflexivity.
    + destruct (String.string_dec w x), (String.string_dec v x); congruence.
Qed.

Lemma count_occ_limited (l : list String.string) puids x :
  count_occ String.string_dec
            (flat_map (fun v => filter (String.eqb v) puids) l) x =
  (count_occ String.string_dec l x * count_occ String.string_dec puids x)%nat.
Proof.
  induction l as [|v l IH]; simpl; auto.
  rewrite count_occ_app, IH, count_occ_filter_eqb.
  destruct (String.string_dec v x); lia.
Qed.

(** X12: Multiplicities multiply: a puid listed [a] times in the limit set and
    [b] times in [puids] comes out [a * b] times. *)
Theorem Limit_count p puids x :
  count_occ String.string_dec (config.Limit p puids) x =
  (count_occ String.string_dec (config.pronom.limit p) x *
   count_occ String.string_dec puids x)%nat.
Proof.
  unfold config.Limit. rewrite Limit_fold. simpl.
  apply count_occ_limited.
Qed.

(** X13: With no limit set, [Limit] keeps nothing: it is for the caller to
    ask [HasLimit] first. *)
Theorem Limit_unset p puids :
  config.HasLimit p = false -> config.Limit p puids = [].
Proof.
  unfold config.HasLimit, config.Limit.
  destruct (config.pronom.limit p); simpl; [reflexivity|discriminate].
Qed.

(** ** [exclude] *)

Lemma excluded_In v ex : config.excluded v ex = true <-> In v ex.
Proof.
  induction ex as [|w ex IH]; simpl.
  - split; [discriminate|tauto].
  - destruct (String.eqb_spec v w) as [->|Hn].
    + tauto.
    + rewrite IH. split; [tauto|]. intros [E|E]; congruence.
Qed.

(** The loop of [exclude], from any [ret]. *)
Lemma exclude_fold ex puids : forall ret,
  fold_left (fun ret v => if negb (config.excluded v ex)
                          then ret ++ [v] else ret) puids ret =
  ret ++ filter (fun v => negb (config.excluded v ex)) puids.
Proof.
  induction puids as [|v puids IH]; intros ret; simpl.
  - now rewrite app_nil_r.
  - rewrite IH. destruct (negb (config.excluded v ex)); auto.
    now rewrite <- app_assoc.
Qed.

(** X14: [exclude] in closed form: [puids] in its order, without the members
    of [ex]. *)
Theorem exclude_closed_form puids ex :
  config.exclude puids ex =
  filter (fun v => negb (config.excluded v ex)) puids.
Proof.
  unfold config.exclude. rewrite exclude_fold. reflexivity.
Qed.

Lemma count_occ_kept puids ex x :
  count_occ String.string_dec
            (filter (fun v => negb (config.excluded v ex)) puids) x =
  if in_dec String.string_dec x ex then 0%nat
  else count_occ String.string_dec puids x.
Proof.
  induction puids as [|v puids IH]; simpl.
  - now destruct (in_dec String.string_dec x ex).
  - destruct (config.excluded v ex) eqn:E; simpl.
    + rewrite IH. apply excluded_In in E.
      destruct (in_dec String.string_dec x ex), (String.string_dec v x);
        congruence.
    + rewrite IH.
      assert (Hn : ~ In v ex).
      { rewrite <- excluded_In. congruence. }
      destruct (in_dec String.string_dec x ex), (String.string_dec v x);
        congruence.
Qed.

(** X15: Membership and multiplicity: what is in [ex] is gone, everything
    else is kept as often as it was there. *)
Theorem exclude_count puids ex x :
  (In x (config.exclude puids ex) <-> In x puids /\ ~ In x ex) /\
  count_occ String.string_dec (config.exclude puids ex) x =
  if in_dec String.string_dec x ex then 0%nat
  else count_occ String.string_dec puids x.
Proof.
  unfold config.exclude. rewrite exclude_fold. simpl. split.
  - rewrite filter_In, negb_true_iff, <- not_true_iff_false, excluded_In.
    tauto.
  - apply count_occ_kept.
Qed.

(** X16: Excluding nothing changes nothing; excluding two sets one after the
    other is excluding both at once, in either order, and excluding the
    same set again changes nothing more. *)
Theorem exclude_compose puids ex1 ex2 :
  config.exclude puids [] = puids /\
  config.exclude (config.exclude puids ex1) ex2 =
    config.exclude puids (ex1 ++ ex2) /\
  config.exclude (config.exclude puids ex1) ex2 =
    config.exclude (config.exclude puids ex2) ex1 /\
  config.exclude (config.exclude puids ex1) ex1 = config.exclude puids ex1.
Proof.
  assert (Hx : forall v a b,
             config.excluded v (a ++ b) =
             config.excluded v a || config.excluded v b).
  { intros v a b. induction a as [|w a IH]; simpl; auto.
    destruct (String.eqb v w); auto. }
  assert (Hf : forall a b l,
             filter (fun v => negb (config.excluded v b))
                    (filter (fun v => negb (config.excluded v a)) l) =
             filter (fun v => negb (config.excluded v (a ++ b))) l).
  { intros a b l. induction l as [|v l IH]; simpl; auto.
    rewrite Hx. destruct (config.excluded v a) eqn:Ea; simpl; auto.
    destruct (config.excluded v b); simpl; now rewrite IH. }
  unfold config.exclude. rewrite !exclude_fold. simpl. repeat split.
  - induction puids as [|v l IH]; simpl in *; auto. now rewrite IH.
  - apply Hf.
  - rewrite !Hf. apply filter_ext. intros v. rewrite !Hx. now rewrite orb_comm.
  - rewrite Hf. apply filter_ext. intros v. rewrite Hx.
    now destruct (config.excluded v ex1).
Qed.

(** X17: [Limit] and [exclude] split a list between them: for a limit set
    without repetitions, each puid of [puids] is, with all its
    occurrences, either in [Limit puids] or in [puids] less the limit
    set. *)
Theorem Limit_exclude_partition p puids x :
  NoDup (config.pronom.limit p) ->
  (count_occ String.string_dec (config.Limit p puids) x +
   count_occ String.string_dec
             (config.exclude puids (config.pronom.limit p)) x)%nat =
  count_occ String.string_dec puids x.
Proof.
  intros Hn. unfold config.Limit, config.exclude.
  rewrite Limit_fold, exclude_fold. simpl.
  rewrite count_occ_limited, count_occ_kept.
  destruct (in_dec String.string_dec x (config.pronom.limit p)) as [Hi|Hi].
  - apply (NoDup_count_occ' String.string_dec) in Hi; auto. rewrite Hi. lia.
  - apply (count_occ_not_In String.string_dec) in Hi. rewrite Hi. lia.
Qed.

(** ** [IsArchive] and the setters *)

(** X18: A puid is no archive exactly when it is none of the six archive
    puids of the settings. *)
Theorem IsArchive_None_iff p x :
  config.IsArchive p x = config.Archive.None <->
  x <> config.pronom.zip p /\ x <> config.pronom.gzip p /\
  x <> config.pronom.tar p /\ x <> config.pronom.arc p /\
  x <> config.pronom.arc1_1 p /\ x <> config.pronom.warc p.
Proof.
  unfold config.IsArchive.
  destruct (String.eqb_spec x (config.pronom.zip p)),
           (String.eqb_spec x (config.pronom.gzip p)),
           (String.eqb_spec x (config.pronom.tar p)),
           (String.eqb_spec x (config.pronom.arc p)),
           (String.eqb_spec x (config.pronom.arc1_1 p)),
           (String.eqb_spec x (config.pronom.warc p)); simpl;
    split; try discriminate; try tauto; auto 10.
Qed.

Lemma Setter_keeps f p :
  config.Setter f ->
  config.pronom.zip (f p) = config.pronom.zip p /\
  config.pronom.gzip (f p) = config.pronom.gzip p /\
  config.pronom.tar (f p) = config.pronom.tar p /\
  config.pronom.arc (f p) = config.pronom.arc p /\
  config.pronom.arc1_1 (f p) = config.pronom.arc1_1 p /\
  config.pronom.warc (f p) = config.pronom.warc p /\
  config.pronom.text (f p) = config.pronom.text p /\
  (config.pronom.noreports p = true -> config.pronom.noreports (f p) = true) /\
  (config.pronom.doubleup p = true -> config.pronom.doubleup (f p) = true) /\
  (config.pronom.inspect p = true -> config.pronom.inspect (f p) = true).
Proof. intros []; simpl; auto 20. Qed.

Lemma configure_keeps fs : forall p,
  Forall config.Setter fs ->
  config.pronom.zip (config.configure fs p) = config.pronom.zip p /\
  config.pronom.gzip (config.configure fs p) = config.pronom.gzip p /\
  config.pronom.tar (config.configure fs p) = config.pronom.tar p /\
  config.pronom.arc (config.configure fs p) = config.pronom.arc p /\
  config.pronom.arc1_1 (config.configure fs p) = config.pronom.arc1_1 p /\
  config.pronom.warc (config.configure fs p) = config.pronom.warc p /\
  config.pronom.text (config.configure fs p) = config.pronom.text p /\
  (config.pronom.noreports p = true ->
   config.pronom.noreports (config.configure fs p) = true) /\
  (config.pronom.doubleup p = true ->
   config.pronom.doubleup (config.configure fs p) = true) /\
  (config.pronom.inspect p = true ->
   config.pronom.inspect (config.configure fs p) = true).
Proof.
  induction fs as [|f fs IH]; intros p Hf.
  - simpl. auto 20.
  - apply Forall_cons_iff in Hf. destruct Hf as [Hs Hf].
    change (config.configure (f :: fs) p) with (config.configure fs (f p)).
    destruct (IH (f p) Hf) as (-> & -> & -> & -> & -> & -> & -> & F1 & F2 & F3).
    destruct (@Setter_keeps f p Hs)
      as (-> & -> & -> & -> & -> & -> & -> & G1 & G2 & G3).
    auto 20.
Qed.

(** X19: No setter touches the archive puids or the text puid: after any
    series of setters [IsArchive], [ZipPuid] and [TextPuid] answer as
    before; the zip puid is a zip archive; and, from the initial
    settings, the text puid is never taken for an archive. *)
Theorem setters_keep_archive_puids fs p x :
  Forall config.Setter fs ->
  config.IsArchive (config.configure fs p) x = config.IsArchive p x /\
  config.ZipPuid (config.configure fs p) = config.ZipPuid p /\
  config.TextPuid (config.configure fs p) = config.TextPuid p /\
  config.IsArchive (config.configure fs p)
                   (config.ZipPuid (config.configure fs p)) =
    config.Archive.Zip /\
  config.IsArchive (config.configure fs config.initial)
                   (config.TextPuid (config.configure fs config.initial)) =
    config.Archive.None.
Proof.
  intros Hf.
  destruct (configure_keeps p Hf) as (E1 & E2 & E3 & E4 & E5 & E6 & E7 & _).
  destruct (configure_keeps config.initial Hf)
    as (I1 & I2 & I3 & I4 & I5 & I6 & I7 & _).
  unfold config.IsArchive, config.ZipPuid, config.TextPuid.
  rewrite E1, E2, E3, E4, E5, E6, E7, I1, I2, I3, I4, I5, I6, I7.
  rewrite String.eqb_refl. repeat split; reflexivity.
Qed.

Lemma configure_app fs1 fs2 p :
  config.configure (fs1 ++ fs2) p =
  config.configure fs2 (config.configure fs1 p).
Proof. unfold config.configure. apply fold_left_app. Qed.

(** X20: The three flags are only ever set: once [SetNoReports] has been
    called, [Reports] returns the empty String.string whatever other setters are
    called before or after it, [SetReports] included; and likewise
    [DoubleUp] and [Inspect] stay true. *)
Theorem flags_are_never_reset
        (home : String.string) (Dir : String.string -> String.string)
        (Join : list String.string -> String.string)
        fs p :
  Forall config.Setter fs ->
  (In config.SetNoReports fs ->
   config.Reports home Dir Join (config.configure fs p) =
     String.EmptyString) /\
  (In config.SetDoubleUp fs ->
   config.DoubleUp (config.configure fs p) = true) /\
  (In config.SetInspect fs ->
   config.Inspect (config.configure fs p) = true).
Proof.
  intros Hf.
  assert (Hkey : forall f, In f fs ->
            exists fs1 fs2, Forall config.Setter fs2 /\
              config.configure fs p =
              config.configure fs2 (f (config.configure fs1 p))).
  { intros f Hin. apply in_split in Hin. destruct Hin as (fs1 & fs2 & ->).
    exists fs1, fs2. rewrite configure_app. split; [|reflexivity].
    apply Forall_app in Hf. destruct Hf as [_ Hf].
    now apply Forall_cons_iff in Hf. }
  repeat split; intros Hin; destruct (Hkey _ Hin) as (fs1 & fs2 & H2 & ->).
  - unfold config.Reports.
    destruct (configure_keeps (config.SetNoReports (config.configure fs1 p)) H2)
      as (_ & _ & _ & _ & _ & _ & _ & G1 & _).
    rewrite G1; auto.
  - destruct (configure_keeps (config.SetDoubleUp (config.configure fs1 p)) H2)
      as (_ & _ & _ & _ & _ & _ & _ & _ & G2 & _).
    unfold config.DoubleUp. auto.
  - destruct (configure_keeps (config.SetInspect (config.configure fs1 p)) H2)
      as (_ & _ & _ & _ & _ & _ & _ & _ & _ & G3).
    unfold config.Inspect. auto.
Qed.


(** ** [latest] *)

Section Latest.

Variable home : String.string.
Variable ReadDir : String.string -> option (list String.string).
Variable Atoi : String.string -> option Z.
Variables prefix suffix : String.string.

Lemma scan_spec files : forall hits ids,
  match config.scan Atoi prefix suffix files hits ids with
  | inr (hits', ids') =>
      exists new,
        hits' = hits ++ filter (config.matches prefix suffix) files /\
        ids' = ids ++ new /\
        Forall2 (fun nm id => config.version Atoi prefix suffix nm = Some id)
                (filter (config.matches prefix suffix) files) new
  | inl e =>
      exists pre nm post,
        files = pre ++ nm :: post /\
        config.matches prefix suffix nm = true /\
        config.version Atoi prefix suffix nm = None /\
        e = config.ErrAtoi
              (config.TrimSuffix (config.TrimPrefix nm prefix) suffix) /\
        forall y, In y pre -> config.matches prefix suffix y = true ->
                  config.version Atoi prefix suffix y <> None
  end.
Proof.
  induction files as [|a files IH]; intros hits ids; simpl.
  - exists []. rewrite !app_nil_r. auto.
  - destruct (config.matches prefix suffix a) eqn:Em.
    + destruct (config.version Atoi prefix suffix a) as [z|] eqn:Ev.
      * specialize (IH (hits ++ [a]) (ids ++ [z])).
        destruct (config.scan Atoi prefix suffix files (hits ++ [a])
                              (ids ++ [z])) as [e|[h i]].
        -- destruct IH as (pre & nm & post & -> & H1 & H2 & H3 & H4).
           exists (a :: pre), nm, post. repeat split; auto.
           intros y [<-|Hy] Hm; [congruence|auto].
        -- destruct IH as (new & -> & -> & HF).
           exists (z :: new). rewrite <- !app_assoc. simpl. auto.
      * exists [], a, files. repeat split; auto; intros y [].
    + specialize (IH hits ids).
      destruct (config.scan Atoi prefix suffix files hits ids) as [e|[h i]].
      * destruct IH as (pre & nm & post & -> & H1 & H2 & H3 & H4).
        exists (a :: pre), nm, post. repeat split; auto.
        intros y [<-|Hy] Hm; [congruence|auto].
      * exact IH.
Qed.

(** Lines 150-156 leave in [idx] the first position of the largest
    number. *)
Lemma max_loop_spec (tl : list Z) : forall (pre : list Z) i (max : Z) idx,
  List.length pre = S i ->
  nth_error pre idx = Some max ->
  (forall j (w : Z), nth_error pre j = Some w -> w <= max) ->
  (forall j (w : Z), (j < idx)%nat -> nth_error pre j = Some w -> w < max) ->
  nth_error (pre ++ tl) (snd (config.max_loop tl i max idx)) =
    Some (fst (config.max_loop tl i max idx)) /\
  (forall j (w : Z), nth_error (pre ++ tl) j = Some w ->
                     w <= fst (config.max_loop tl i max idx)) /\
  (forall j (w : Z), (j < snd (config.max_loop tl i max idx))%nat ->
                     nth_error (pre ++ tl) j = Some w ->
                     w < fst (config.max_loop tl i max idx)).
Proof.
  induction tl as [|v tl IH]; intros pre i max idx Hl Hn Hle Hlt; simpl.
  - rewrite app_nil_r. auto.
  - assert (Hsnoc : forall j w, nth_error (pre ++ [v]) j = Some w ->
                      nth_error pre j = Some w \/
                      (j = List.length pre /\ w = v)).
    { intros j w Hj. destruct (Nat.lt_ge_cases j (List.length pre)) as [L|L].
      - rewrite nth_error_app1 in Hj by exact L. auto.
      - rewrite nth_error_app2 in Hj by exact L.
        destruct (j - List.length pre)%nat as [|k] eqn:E; simpl in Hj.
        + right. split; [lia|congruence].
        + destruct k; discriminate. }
    assert (Hi : (idx < List.length pre)%nat)
      by (apply nth_error_Some; congruence).
    replace (pre ++ v :: tl) with ((pre ++ [v]) ++ tl)
      by (now rewrite <- app_assoc).
    destruct (Z.gtb_spec v max) as [Hgt|Hge].
    + apply IH.
      * rewrite length_app, Hl. simpl. lia.
      * rewrite nth_error_app2 by lia.
        replace (i + 1 - List.length pre)%nat with 0%nat by lia.
        reflexivity.
      * intros j w Hj. destruct (Hsnoc j w Hj) as [Hp|[_ ->]]; [|lia].
        specialize (Hle j w Hp). lia.
      * intros j w Hj Hw. destruct (Hsnoc j w Hw) as [Hp|[E _]]; [|lia].
        specialize (Hle j w Hp). lia.
    + apply IH.
      * rewrite length_app, Hl. simpl. lia.
      * rewrite nth_error_app1; assumption.
      * intros j w Hj. destruct (Hsnoc j w Hj) as [Hp|[_ ->]]; [eauto|lia].
      * intros j w Hj Hw. destruct (Hsnoc j w Hw) as [Hp|[E _]]; [eauto|lia].
Qed.

Lemma Forall2_nth_left (A B : Type) (R : A -> B -> Prop) l1 l2 :
  Forall2 R l1 l2 ->
  forall k a, nth_error l1 k = Some a ->
              exists c, nth_error l2 k = Some c /\ R a c.
Proof.
  induction 1 as [|a0 c0 l1 l2 H0 HF IH]; intros k a Hk.
  - destruct k; discriminate.
  - destruct k as [|k]; simpl in *.
    + injection Hk as <-. eauto.
    + eauto.
Qed.

Lemma Forall2_nth_right (A B : Type) (R : A -> B -> Prop) l1 l2 :
  Forall2 R l1 l2 ->
  forall k c, nth_error l2 k = Some c ->
              exists a, nth_error l1 k = Some a /\ R a c.
Proof.
  induction 1 as [|a0 c0 l1 l2 H0 HF IH]; intros k c Hk.
  - destruct k; discriminate.
  - destruct k as [|k]; simpl in *.
    + injection Hk as <-. eauto.
    + eauto.
Qed.

Lemma filter_nth_split (A : Type) (f : A -> bool) l : forall k a,
  nth_error (filter f l) k = Some a ->
  exists pre post, l = pre ++ a :: post /\ f a = true /\
                   List.length (filter f pre) = k.
Proof.
  induction l as [|y l IH]; intros k a Hk; simpl in Hk.
  - destruct k; discriminate.
  - destruct (f y) eqn:Ey.
    + destruct k as [|k]; simpl in Hk.
      * injection Hk as <-. exists [], l. auto.
      * destruct (IH k a Hk) as (pre & post & -> & Hf & Hl).
        exists (y :: pre), post. simpl. rewrite Ey. simpl. auto.
    + destruct (IH k a Hk) as (pre & post & -> & Hf & Hl).
      exists (y :: pre), post. simpl. rewrite Ey. auto.
Qed.

Lemma filter_nil_iff (A : Type) (f : A -> bool) l :
  filter f l = [] <-> forall y, In y l -> f y = false.
Proof.
  split.
  - intros E y Hy. destruct (f y) eqn:Em; auto.
    assert (Hin : In y (filter f l)) by (apply filter_In; auto).
    rewrite E in Hin. destruct Hin.
  - intros Hall. induction l as [|a l IH]; simpl; auto.
    rewrite (Hall a) by (now left). apply IH.
    intros y Hy. apply Hall. now right.
Qed.

(** The three ways a call of [latest] that could read the directory
    ends. *)
Lemma latest_cases files :
  ReadDir home = Some files ->
  (exists pre nm post,
     files = pre ++ nm :: post /\
     config.matches prefix suffix nm = true /\
     config.version Atoi prefix suffix nm = None /\
     (forall y, In y pre -> config.matches prefix suffix y = true ->
                config.version Atoi prefix suffix y <> None) /\
     config.latest home ReadDir Atoi prefix suffix =
     config.Err (config.ErrAtoi
                   (config.TrimSuffix (config.TrimPrefix nm prefix)
                                      suffix))) \/
  (filter (config.matches prefix suffix) files = [] /\
   config.latest home ReadDir Atoi prefix suffix =
   config.Err (config.ErrNoFile prefix)) \/
  (exists ids h mx idx,
     Forall2 (fun nm id => config.version Atoi prefix suffix nm = Some id)
             (filter (config.matches prefix suffix) files) ids /\
     config.latest home ReadDir Atoi prefix suffix = config.Ok h /\
     nth_error (filter (config.matches prefix suffix) files) idx = Some h /\
     nth_error ids idx = Some mx /\
     (forall j (w : Z), nth_error ids j = Some w -> w <= mx) /\
     (forall j (w : Z), (j < idx)%nat -> nth_error ids j = Some w -> w < mx)).
Proof.
  intros Hr. unfold config.latest. rewrite Hr.
  pose proof (scan_spec files [] []) as Hs.
  destruct (config.scan Atoi prefix suffix files [] []) as [e|[hits ids]].
  - left. destruct Hs as (pre & nm & post & E & H1 & H2 & -> & H4).
    exists pre, nm, post. auto.
  - right. destruct Hs as (new & -> & -> & HF). simpl in *.
    destruct (filter (config.matches prefix suffix) files) as [|h0 hs] eqn:Eh.
    + left. auto.
    + right. inversion HF as [|? id0 ? rest R0 HF' E1 E2]; subst.
      destruct (@max_loop_spec rest [id0] 0%nat id0 0%nat)
        as (M1 & M2 & M3); simpl; auto.
      { intros [|[|j]] v Hj; simpl in Hj; try discriminate.
        injection Hj as <-. lia. }
      { intros j v Hj. lia. }
      simpl in M1, M2, M3.
      destruct (Forall2_nth_right HF _ M1) as (h & Hh & Rh).
      exists (id0 :: rest), h, (fst (config.max_loop rest 0 id0 0)),
             (snd (config.max_loop rest 0 id0 0)).
      repeat split; auto.
      rewrite Hh.
      destruct hs as [|h1 hs]; [|reflexivity].
      inversion HF'; subst. simpl in Hh. now injection Hh as <-.
Qed.

Lemma latest_Ok_matches nm :
  config.latest home ReadDir Atoi prefix suffix = config.Ok nm ->
  config.matches prefix suffix nm = true.
Proof.
  intros H.
  destruct (ReadDir home) as [files|] eqn:Hr;
    [|unfold config.latest in H; rewrite Hr in H; discriminate].
  destruct (latest_cases Hr)
    as [(pre & y & post & _ & _ & _ & _ & E)
       |[[_ E]|(ids & h & mx & idx & _ & E & Hh & _)]];
    rewrite E in H; try discriminate.
  injection H as ->. apply nth_error_In in Hh. now apply filter_In in Hh.
Qed.

Lemma latest_no_panic :
  config.latest home ReadDir Atoi prefix suffix <> config.Panic.
Proof.
  destruct (ReadDir home) as [files|] eqn:Hr.
  - destruct (latest_cases Hr)
      as [(pre & y & post & _ & _ & _ & _ & E)
         |[[_ E]|(ids & h & mx & idx & _ & E & _)]];
      rewrite E; discriminate.
  - unfold config.latest. rewrite Hr. discriminate.
Qed.

(** X21: A name returned by [latest] is a directory entry with the prefix and
    the suffix, whose number is the largest among such entries, and the
    first with that number in the order of the directory listing: every
    entry with prefix and suffix has a number no larger, those before it
    a strictly smaller one. *)
Theorem latest_picks_first_maximum nm :
  config.latest home ReadDir Atoi prefix suffix = config.Ok nm ->
  exists files id pre post,
    ReadDir home = Some files /\ files = pre ++ nm :: post /\
    config.matches prefix suffix nm = true /\
    config.version Atoi prefix suffix nm = Some id /\
    (forall y, In y files -> config.matches prefix suffix y = true ->
               exists id', config.version Atoi prefix suffix y = Some id' /\
                           id' <= id) /\
    (forall y, In y pre -> config.matches prefix suffix y = true ->
               exists id', config.version Atoi prefix suffix y = Some id' /\
                           id' < id).
Proof.
  intros H.
  destruct (ReadDir home) as [files|] eqn:Hr;
    [|unfold config.latest in H; rewrite Hr in H; discriminate].
  destruct (latest_cases Hr)
    as [(pre & y & post & _ & _ & _ & _ & E)
       |[[_ E]|(ids & h & mx & idx & HF & E & Hh & Hm & Hle & Hlt)]];
    rewrite E in H; try discriminate.
  injection H as ->.
  destruct (filter_nth_split _ _ _ Hh) as (pre & post & Ef & Hnm & Hlen).
  destruct (Forall2_nth_left HF _ Hh) as (id & Hid & Hv).
  assert (id = mx) by congruence. subst id.
  exists files, mx, pre, post. repeat split; auto.
  - intros y Hy Hmy.
    assert (Hin : In y (filter (config.matches prefix suffix) files))
      by (apply filter_In; auto).
    apply In_nth_error in Hin. destruct Hin as [j Hj].
    destruct (Forall2_nth_left HF _ Hj) as (id' & Hid' & Hv').
    exists id'. split; eauto.
  - intros y Hy Hmy.
    assert (Hin : In y (filter (config.matches prefix suffix) pre))
      by (apply filter_In; auto).
    apply In_nth_error in Hin. destruct Hin as [j Hj].
    assert (Hjl : (j < List.length
                         (filter (config.matches prefix suffix) pre))%nat)
      by (apply nth_error_Some; congruence).
    assert (Hj' : nth_error (filter (config.matches prefix suffix) files) j =
                  Some y).
    { rewrite Ef, filter_app, nth_error_app1; assumption. }
    destruct (Forall2_nth_left HF _ Hj') as (id' & Hid' & Hv').
    exists id'. split; auto. apply (Hlt j); auto. lia.
Qed.

(** X22: [latest] never panics: its two index expressions, [ids[0]] and
    [hits[idx]], are always within range; and it returns the error of
    [ioutil.ReadDir] exactly when that call fails. *)
Theorem latest_never_panics :
  config.latest home ReadDir Atoi prefix suffix <> config.Panic /\
  (config.latest home ReadDir Atoi prefix suffix =
     config.Err config.ErrReadDir <->
   ReadDir home = None).
Proof.
  destruct (ReadDir home) as [files|] eqn:Hr.
  - destruct (latest_cases Hr)
      as [(pre & y & post & _ & _ & _ & _ & E)
         |[[_ E]|(ids & h & mx & idx & _ & E & _)]];
      rewrite E; repeat split; discriminate.
  - unfold config.latest. rewrite Hr. repeat split; auto; discriminate.
Qed.

(** X23: When the directory can be read, [latest] fails in two cases only: no
    entry has the prefix and the suffix; or some entry that has them, any
    one of them, carries something [strconv.Atoi] rejects between the
    two, which spoils the call even when other entries are well-formed.
    Otherwise it returns a name. *)
Theorem latest_fails_iff files :
  ReadDir home = Some files ->
  (config.latest home ReadDir Atoi prefix suffix =
     config.Err (config.ErrNoFile prefix) <->
   forall y, In y files -> config.matches prefix suffix y = false) /\
  ((exists s, config.latest home ReadDir Atoi prefix suffix =
              config.Err (config.ErrAtoi s)) <->
   exists y, In y files /\ config.matches prefix suffix y = true /\
             config.version Atoi prefix suffix y = None) /\
  ((exists nm, config.latest home ReadDir Atoi prefix suffix =
               config.Ok nm) <->
   (exists y, In y files /\ config.matches prefix suffix y = true) /\
   forall y, In y files -> config.matches prefix suffix y = true ->
             config.version Atoi prefix suffix y <> None).
Proof.
  intros Hr.
  pose proof (filter_nil_iff (config.matches prefix suffix) files) as Hnone.
  destruct (latest_cases Hr)
    as [(pre & y & post & Ef & Hm & Hv & Hpre & E)
       |[[Hn E]|(ids & h & mx & idx & HF & E & Hh & _)]];
    rewrite E.
  - assert (Hy : In y files) by (rewrite Ef; apply in_elt).
    split; [|split].
    + split; [discriminate|].
      intros Hall. rewrite (Hall y Hy) in Hm. discriminate.
    + split; intros _; eauto.
    + split.
      * intros [? ?]. discriminate.
      * intros [_ Hall]. exfalso. now apply (Hall y Hy Hm).
  - pose proof (proj1 Hnone Hn) as Hall.
    split; [|split].
    + split; auto.
    + split.
      * intros [? ?]. discriminate.
      * intros (y & Hy & Hm & _). rewrite (Hall y Hy) in Hm. discriminate.
    + split.
      * intros [? ?]. discriminate.
      * intros [(y & Hy & Hm) _]. rewrite (Hall y Hy) in Hm. discriminate.
  - assert (Hall : forall y, In y files ->
                             config.matches prefix suffix y = true ->
                             config.version Atoi prefix suffix y <> None).
    { intros y Hy Hm.
      assert (Hin : In y (filter (config.matches prefix suffix) files))
        by (apply filter_In; auto).
      apply In_nth_error in Hin. destruct Hin as [j Hj].
      destruct (Forall2_nth_left HF _ Hj) as (id' & _ & ->). discriminate. }
    assert (Hex : exists y, In y files /\
                            config.matches prefix suffix y = true).
    { exists h. apply nth_error_In in Hh. now apply filter_In in Hh. }
    split; [|split].
    + split; [discriminate|].
      intros Hn. destruct Hex as (y & Hy & Hm).
      rewrite (Hn y Hy) in Hm. discriminate.
    + split.
      * intros [? ?]. discriminate.
      * intros (y & Hy & Hm & Hv). exfalso. now apply (Hall y Hy Hm).
    + split; eauto.
Qed.

End Latest.

(** ** [Droid], [DroidBase], [Container], [ContainerBase] *)

Lemma prefix_nonempty c s d :
  String.prefix (String.String c s) d = true -> d <> String.EmptyString.
Proof. destruct d; simpl; [discriminate|]. intros _. discriminate. Qed.

Section Getters.

Import String.

Variable home : string.
Variable Dir : string -> string.
Variable Join : list string -> string.
Variable ReadDir : string -> option (list string).
Variable Atoi : string -> option Z.

Lemma latest_name_nonempty c s suffix nm :
  config.latest home ReadDir Atoi (String c s) suffix = config.Ok nm ->
  String.eqb nm EmptyString = false.
Proof.
  intros H. apply latest_Ok_matches in H. rename H into Hm.
  unfold config.matches, config.HasPrefix in Hm.
  apply andb_true_iff in Hm. destruct Hm as [Hm _].
  apply prefix_nonempty in Hm. now apply String.eqb_neq.
Qed.

(** X24: [Droid] is [DroidBase] put under the home directory, unless the
    name was set with a directory part of its own, and both are empty
    together when no name was set and none can be inferred; neither
    panics.  The same holds of [Container] and [ContainerBase]. *)
Theorem Droid_locates_DroidBase p :
  (exists base,
     config.DroidBase home ReadDir Atoi p = Some base /\
     config.Droid home Dir Join ReadDir Atoi p =
     Some (if String.eqb base EmptyString then EmptyString
           else if String.eqb (config.pronom.droid p) EmptyString ||
                   String.eqb (Dir (config.pronom.droid p)) "."%string
                then Join [home; base]
                else base)) /\
  (exists base,
     config.ContainerBase home ReadDir Atoi p = Some base /\
     config.Container home Dir Join ReadDir Atoi p =
     Some (if String.eqb base EmptyString then EmptyString
           else if String.eqb (config.pronom.container p) EmptyString ||
                   String.eqb (Dir (config.pronom.container p)) "."%string
                then Join [home; base]
                else base)).
Proof.
  split.
  - unfold config.Droid, config.DroidBase.
    destruct (String.eqb_spec (config.pronom.droid p) EmptyString) as [E|E].
    + pose proof (latest_no_panic home ReadDir Atoi
                    "DROID_SignatureFile_V"%string ".xml"%string) as Hp.
      destruct (config.latest home ReadDir Atoi "DROID_SignatureFile_V"%string
                              ".xml"%string) as [nm|e|] eqn:L.
      * exists nm. split; auto.
        now rewrite (@latest_name_nonempty _ _ _ _ L).
      * exists EmptyString. auto.
      * now destruct Hp.
    + exists (config.pronom.droid p). split; auto.
      apply String.eqb_neq in E. rewrite E. simpl.
      now destruct (String.eqb (Dir (config.pronom.droid p)) ".").
  - unfold config.Container, config.ContainerBase.
    destruct (String.eqb_spec (config.pronom.container p) EmptyString)
      as [E|E].
    + pose proof (latest_no_panic home ReadDir Atoi
                    "container-signature-"%string ".xml"%string) as Hp.
      destruct (config.latest home ReadDir Atoi "container-signature-"%string
                              ".xml"%string) as [nm|e|] eqn:L.
      * exists nm. split; auto.
        now rewrite (@latest_name_nonempty _ _ _ _ L).
      * exists EmptyString. auto.
      * now destruct Hp.
    + exists (config.pronom.container p). split; auto.
      apply String.eqb_neq in E. rewrite E. simpl.
      now destruct (String.eqb (Dir (config.pronom.container p)) ".").
Qed.

End Getters.

End ConfigProperties.

(** ** The theorems at concrete inputs *)

Lemma C1_witness :
  exists st,
    identify (ex_matcher 4 (-1)) ex_call = Some st /\
    at_pc st = Returned ExitDone /\ closes (trace st) = 1%nat.
Proof.
  eexists. split; [vm_compute; reflexivity|]. split; [reflexivity|].
  assert (H : identify (ex_matcher 4 (-1)) ex_call = Some _)
    by (vm_compute; reflexivity).
  destruct (C1_output_closed_exactly_once _ _ H) as (_ & _ & _ & Hret & _).
  exact (proj1 (Hret ExitDone eq_refl)).
Defined.

(** With MaxBOF = 0 a frame strike is sent although the call never saw
    the forward-sequence channel close (it has none) nor a gate signal. *)
Lemma C2_counterexample :
  exists st s,
    identify (ex_matcher 0 0) ex_frame_call = Some st /\
    In s (sent (trace st)) /\ reverse s = false /\ frame s = true /\
    forall e, In e (trace st) -> ~ opens_merge e.
Proof.
  eexists. eexists. split; [vm_compute; reflexivity|].
  split; [left; reflexivity|]. split; [reflexivity|]. split; [reflexivity|].
  intros e Hin [->| ->]; simpl in Hin;
    repeat (destruct Hin as [Hin|Hin]; [discriminate Hin|]); exact Hin.
Qed.

Lemma C2_witness :
  exists st s,
    identify (ex_matcher 4 (-1)) ex_call = Some st /\
    trace st = firstn 12 (trace st) ++ EvSend MERGE s :: skipn 13 (trace st) /\
    frame s = true /\
    exists e, In e (firstn 12 (trace st)) /\ opens_merge e.
Proof.
  eexists. eexists. split; [vm_compute; reflexivity|].
  split; [vm_compute; reflexivity|]. split; [reflexivity|].
  assert (H : identify (ex_matcher 4 (-1)) ex_call = Some _)
    by (vm_compute; reflexivity).
  refine (proj1 (proj2 (proj2
            (C2_phase_ordering _ _ _ MERGE _ _ H _))) eq_refl _).
  - vm_compute. reflexivity.
  - simpl. discriminate.
Defined.

Lemma C3_witness :
  exists st,
    identify (ex_matcher 0 0) ex_frame_call = Some st /\
    forward_reader (ex_matcher 0 0) ex_buf = None /\
    forall s, In s (sent (trace st)) ->
              ~ (reverse s = false /\ frame s = false).
Proof.
  eexists. split; [vm_compute; reflexivity|].
  assert (H : identify (ex_matcher 0 0) ex_frame_call = Some _)
    by (vm_compute; reflexivity).
  destruct (C3_scan_limits_tri_state _ _ H)
    as ((_ & _ & F3) & _ & _ & _ & _ & _ & Hz & _).
  split; [exact (F3 eq_refl)|]. exact (proj2 (proj2 (Hz eq_refl))).
Defined.

Lemma C4_witness :
  exists st,
    identify (ex_matcher 4 (-1)) ex_quit_call = Some st /\
    at_pc st = InSeqOnly /\ quit st = true /\
    exists st',
      step st (FromB None) = Some st' /\
      at_pc st' = Returned ExitQuit /\
      sent (trace st') = [] /\ closes (trace st') = 1%nat.
Proof.
  eexists. split; [vm_compute; reflexivity|].
  split; [reflexivity|]. split; [reflexivity|].
  assert (H : identify (ex_matcher 4 (-1)) ex_quit_call = Some _)
    by (vm_compute; reflexivity).
  destruct (C4_cancelled_in_first_loop _ _ H eq_refl eq_refl)
    as (st' & Hs & _ & Hpc & _ & _ & _ & _ & _ & _ & _ & Hc & Hz).
  exists st'. split; [exact Hs|]. split; [exact Hpc|].
  split; [exact (Hz eq_refl)|exact Hc].
Defined.

Lemma C5_witness :
  exists st,
    identify (ex_matcher (-1) (-1)) ex_short_call = Some st /\
    reverse_reader (ex_matcher (-1) (-1)) ex_short_buf = inr tt /\
    at_pc st = Returned ExitErr /\
    closes (trace st) = 1%nat /\
    eAho (b st) = None /\ estarted (b st) = false.
Proof.
  eexists. split; [vm_compute; reflexivity|].
  split; [reflexivity|]. split; [reflexivity|].
  assert (H : identify (ex_matcher (-1) (-1)) ex_short_call = Some _)
    by (vm_compute; reflexivity).
  destruct (C5_reverse_reader_failure _ _ H eq_refl)
    as (_ & _ & _ & Herr & _ & _ & _ & _ & _ & _ & _ & Ha & Hs & _).
  split; [exact (proj1 (Herr eq_refl))|]. split; [exact Ha|exact Hs].
Defined.

(** One call on a fresh Matcher with both limits non-zero, on a buffer
    that gives no reverse reader: the forward engine is built, the
    reverse engine is not. *)
Lemma C6_counterexample :
  exists sts,
    identify_all (ex_matcher (-1) (-1)) [ex_short_call] = Some sts /\
    MaxBOF (ex_matcher (-1) (-1)) <> 0 /\
    MaxEOF (ex_matcher (-1) (-1)) <> 0 /\
    total_builds false sts = 1%nat /\
    total_builds true sts = 0%nat /\ total_builds true sts <> 1%nat.
Proof.
  eexists. split; [vm_compute; reflexivity|].
  split; [discriminate|]. split; [discriminate|].
  split; [reflexivity|]. split; [reflexivity|discriminate].
Qed.

Lemma C6_witness :
  exists sts,
    identify_all (ex_matcher 4 (-1)) [ex_call; ex_call] = Some sts /\
    total_builds false sts = 1%nat /\ total_builds true sts = 1%nat.
Proof.
  eexists. split; [vm_compute; reflexivity|].
  assert (H : identify_all (ex_matcher 4 (-1)) [ex_call; ex_call] = Some _)
    by (vm_compute; reflexivity).
  assert (Hne : [ex_call; ex_call] <> []) by discriminate.
  destruct (C6_engines_built_once _ H eq_refl eq_refl Hne)
    as (Hf & _ & _ & Hr & _).
  split.
  - apply Hf. simpl. discriminate.
  - apply Hr; [simpl; discriminate|].
    eexists. split; [left; reflexivity|]. right. reflexivity.
Defined.

(** Two invocations whose checks both come before the first store of the
    flag: two engines are built. *)
Lemma C7_counterexample :
  started false (ex_matcher 4 (-1)) = false /\
  builds false
    (snd (fst (interleave false
                 ((ex_matcher 4 (-1), []), [AtCheck; AtCheck])
                 ex_racy_schedule))) = 2%nat /\
  snd (interleave false
         ((ex_matcher 4 (-1), []), [AtCheck; AtCheck]) ex_racy_schedule)
  = [AtPast; AtPast].
Proof. repeat split; reflexivity. Qed.

Lemma C7_witness :
  started false (ex_matcher 4 (-1)) = false /\
  builds false
    (snd (fst (interleave false
                 ((ex_matcher 4 (-1), []), repeat AtCheck 2)
                 [0; 0; 0; 1; 1; 1]%nat))) = 1%nat.
Proof.
  split; [reflexivity|].
  refine (proj1 (proj2 (proj2
            (C7_build_once_not_synchronized false (ex_matcher 4 (-1)) 2
               [0; 0; 0; 1; 1; 1]%nat eq_refl)) 0%nat [1; 1; 1]%nat _ eq_refl)).
  lia.
Defined.

Lemma C8_witness :
  exists st,
    identify (ex_matcher 4 (-1)) ex_call = Some st /\
    sent (trace st) = flat_map (wrapped (ex_matcher 4 (-1))) (trace st).
Proof.
  eexists. split; [vm_compute; reflexivity|].
  assert (H : identify (ex_matcher 4 (-1)) ex_call = Some _)
    by (vm_compute; reflexivity).
  exact (proj1 (C8_flags_by_source _ _ H)).
Defined.

Lemma C9_witness :
  exists st,
    identify (ex_matcher 4 (-1)) (mkCall ex_buf false []) = Some st /\
    at_pc st = InSeqOnly /\
    step st FromGate = Some (proceed (emit st [EvGate])) /\
    bchan (proceed (emit st [EvGate])) = open_chan.
Proof.
  eexists. split; [vm_compute; reflexivity|]. split; [reflexivity|].
  assert (H : identify (ex_matcher 4 (-1)) (mkCall ex_buf false []) = Some _)
    by (vm_compute; reflexivity).
  destruct (C9_gate_escalates _ _ H eq_refl) as (Hs & _ & Hb & _).
  split; [exact Hs|exact Hb].
Defined.

Lemma C10_witness :
  exists st s,
    identify (ex_matcher 4 (-1)) ex_call = Some st /\
    In s (sent (trace st)) /\ frame s = true /\ subKey s = 0.
Proof.
  eexists. exists (mkStrike 5 0 2 6 false true true).
  split; [vm_compute; reflexivity|].
  split; [right; left; reflexivity|]. split; [reflexivity|].
  assert (H : identify (ex_matcher 4 (-1)) ex_call = Some _)
    by (vm_compute; reflexivity).
  refine (proj1 (C10_frame_subkey_zero _ _
                   (mkStrike 5 0 2 6 false true true) H _) eq_refl).
  right; left; reflexivity.
Defined.

(** ** The further properties at concrete inputs *)

Lemma panic_iff_bad_index_witness :
  exists st,
    identify (ex_matcher 4 (-1)) ex_bad_call = Some st /\
    at_pc st = Panicked /\
    valid_input (ex_matcher 4 (-1)) (FromB (Some ex_bad_br)) = false.
Proof.
  eexists. split; [vm_compute; reflexivity|]. split; [|reflexivity].
  assert (H : identify (ex_matcher 4 (-1)) ex_bad_call = Some _)
    by (vm_compute; reflexivity).
  assert (Hw : wf (ex_matcher 4 (-1))) by (split; discriminate).
  apply (proj2 (@panic_iff_bad_index _ _ _ _ Hw H)).
  exists [FromB (Some ex_br)], (FromB (Some ex_bad_br)).
  split; reflexivity.
Defined.

Lemma cancel_needs_quit_witness :
  exists st,
    identify (ex_matcher 4 (-1)) ex_cancel_call = Some st /\
    at_pc st = Returned ExitQuit /\ quit st = true /\
    (c_quit ex_cancel_call = true \/ In QuitClosed (c_inputs ex_cancel_call)).
Proof.
  eexists. split; [vm_compute; reflexivity|]. split; [reflexivity|].
  assert (H : identify (ex_matcher 4 (-1)) ex_cancel_call = Some _)
    by (vm_compute; reflexivity).
  exact (@cancel_needs_quit _ _ _ _ H eq_refl).
Defined.

Lemma merge_exits_by_exhaustion_witness :
  at_pc ex_merge_state = InMerge /\
  exists st',
    run ex_merge_state [FromBF (Some ex_bf); FromBF None; FromEF None] =
      Some st' /\
    (at_pc st' = InMerge \/ at_pc st' = Panicked \/
     (at_pc st' = Returned ExitDone /\ all_nil st')).
Proof.
  split; [reflexivity|].
  eexists. split; [vm_compute; reflexivity|].
  assert (H : run ex_merge_state
                  [FromBF (Some ex_bf); FromBF None; FromEF None] = Some _)
    by (vm_compute; reflexivity).
  exact (@merge_exits_by_exhaustion unit _ ex_merge_state _ eq_refl H).
Defined.

Lemma merge_ignores_quit_witness :
  at_pc ex_merge_state = InMerge /\
  run (with_quit ex_merge_state true) [FromBF (Some ex_bf); FromBF None] =
  option_map (fun s => with_quit s true)
             (run ex_merge_state [FromBF (Some ex_bf); FromBF None]).
Proof.
  split; [reflexivity|].
  exact (@merge_ignores_quit unit [FromBF (Some ex_bf); FromBF None]
           ex_merge_state eq_refl).
Defined.

Lemma one_in_one_out_witness :
  exists st,
    identify (ex_matcher 4 (-1)) ex_call = Some st /\
    at_pc st <> Panicked /\
    List.length (sent (trace st)) = received (trace st).
Proof.
  eexists. split; [vm_compute; reflexivity|]. split; [discriminate|].
  assert (H : identify (ex_matcher 4 (-1)) ex_call = Some _)
    by (vm_compute; reflexivity).
  apply (proj2 (@one_in_one_out _ _ _ _ H)). discriminate.
Defined.

Lemma can_always_return_witness :
  exists st,
    identify (ex_matcher 4 (-1)) ex_open_call = Some st /\
    at_pc st = InSeqOnly /\
    exists ins st' x,
      identify (ex_matcher 4 (-1))
               (mkCall ex_buf false (c_inputs ex_open_call ++ ins)) =
        Some st' /\
      at_pc st' = Returned x /\ closes (trace st') = 1%nat.
Proof.
  eexists. split; [vm_compute; reflexivity|]. split; [reflexivity|].
  assert (H : identify (ex_matcher 4 (-1)) ex_open_call = Some _)
    by (vm_compute; reflexivity).
  assert (Hw : wf (ex_matcher 4 (-1))) by (split; discriminate).
  destruct (@can_always_return _ _ _ _ Hw H (or_introl eq_refl))
    as (ins & st' & x & H1 & H2 & _ & H3 & _).
  exists ins, st', x. auto.
Defined.

Lemma matcher_only_gains_engines_witness :
  exists st,
    identify (ex_matcher 4 (-1)) ex_call = Some st /\
    same_config (b st) (ex_matcher 4 (-1)) /\
    bAho (b st) = Some (wac.New [tt]) /\ eAho (b st) = Some (wac.New [tt]).
Proof.
  eexists. split; [vm_compute; reflexivity|].
  assert (H : identify (ex_matcher 4 (-1)) ex_call = Some _)
    by (vm_compute; reflexivity).
  destruct (@matcher_only_gains_engines _ _ _ _ H) as (Hc & _ & _ & Hb & He).
  split; [exact Hc|]. split.
  - exact (proj2 (Hb eq_refl eq_refl)).
  - exact (proj2 (He eq_refl eq_refl)).
Defined.

Lemma forward_close_received_witness :
  exists st,
    identify (ex_matcher 4 (-1)) ex_call = Some st /\
    at_pc st = Returned ExitDone /\ bcloses (trace st) = 2%nat.
Proof.
  eexists. split; [vm_compute; reflexivity|]. split; [reflexivity|].
  assert (H : identify (ex_matcher 4 (-1)) ex_call = Some _)
    by (vm_compute; reflexivity).
  exact (@forward_close_received _ _ _ _ H eq_refl).
Defined.

Lemma caching_is_transparent_witness :
  wf (ex_matcher 4 (-1)) /\ wf ex_used_matcher /\
  same_config (ex_matcher 4 (-1)) ex_used_matcher /\
  match identify (ex_matcher 4 (-1)) ex_call,
        identify ex_used_matcher ex_call with
  | Some st1, Some st2 =>
      at_pc st1 = at_pc st2 /\
      visible (trace st1) = visible (trace st2) /\
      sent (trace st1) = sent (trace st2) /\
      closes (trace st1) = closes (trace st2) /\
      same_config (b st1) (b st2)
  | None, None => True
  | _, _ => False
  end.
Proof.
  assert (Hw1 : wf (ex_matcher 4 (-1))) by (split; discriminate).
  assert (Hw2 : wf ex_used_matcher) by (split; reflexivity).
  assert (Hc : same_config (ex_matcher 4 (-1)) ex_used_matcher)
    by (repeat split).
  split; [exact Hw1|]. split; [exact Hw2|]. split; [exact Hc|].
  exact (@caching_is_transparent _ _ _ ex_call Hw1 Hw2 Hc).
Defined.

Lemma Limit_unset_witness :
  config.HasLimit config.initial = false /\
  config.Limit config.initial config.ex_puids = [].
Proof.
  split; [reflexivity|].
  exact (@Limit_unset config.initial config.ex_puids eq_refl).
Defined.

Lemma Limit_exclude_partition_witness :
  NoDup (config.pronom.limit config.ex_settings) /\
  forall x,
    (count_occ String.string_dec
               (config.Limit config.ex_settings config.ex_puids) x +
     count_occ String.string_dec
               (config.exclude config.ex_puids
                               (config.pronom.limit config.ex_settings)) x)%nat =
    count_occ String.string_dec config.ex_puids x.
Proof.
  assert (Hn : NoDup (config.pronom.limit config.ex_settings)).
  { simpl. repeat constructor; simpl; intros H;
      repeat (destruct H as [H|H]; [discriminate H|]); exact H. }
  split; [exact Hn|].
  intros x. exact (@Limit_exclude_partition config.ex_settings _ x Hn).
Defined.

Lemma setters_keep_archive_puids_witness :
  Forall config.Setter config.ex_setters /\
  config.IsArchive config.ex_settings (config.ZipPuid config.ex_settings) =
    config.Archive.Zip /\
  config.IsArchive config.ex_settings (config.TextPuid config.ex_settings) =
    config.Archive.None.
Proof.
  assert (Hf : Forall config.Setter config.ex_setters)
    by (repeat constructor).
  split; [exact Hf|].
  destruct (@setters_keep_archive_puids config.ex_setters config.initial
              (config.ZipPuid config.initial) Hf) as (_ & _ & _ & H1 & H2).
  split; [exact H1|exact H2].
Defined.

Lemma flags_are_never_reset_witness :
  Forall config.Setter config.ex_setters /\
  In config.SetNoReports config.ex_setters /\
  config.Reports config.ex_home
                 config.ex_Dir config.ex_Join config.ex_settings =
  String.EmptyString.
Proof.
  assert (Hf : Forall config.Setter config.ex_setters)
    by (repeat constructor).
  assert (Hi : In config.SetNoReports config.ex_setters)
    by (simpl; auto).
  split; [exact Hf|]. split; [exact Hi|].
  exact (proj1 (@flags_are_never_reset _ config.ex_Dir config.ex_Join
                  config.ex_setters config.initial Hf) Hi).
Defined.

Lemma latest_picks_first_maximum_witness :
  config.latest config.ex_home config.ex_ReadDir config.ex_Atoi
                config.ex_prefix config.ex_suffix =
    config.Ok config.ex_latest /\
  exists files id pre post,
    config.ex_ReadDir config.ex_home = Some files /\
    files = pre ++ config.ex_latest :: post /\
    config.matches config.ex_prefix config.ex_suffix config.ex_latest =
      true /\
    config.version config.ex_Atoi config.ex_prefix config.ex_suffix
                   config.ex_latest = Some id /\
    (forall y, In y files ->
       config.matches config.ex_prefix config.ex_suffix y = true ->
       exists id',
         config.version config.ex_Atoi config.ex_prefix config.ex_suffix y =
           Some id' /\ id' <= id) /\
    (forall y, In y pre ->
       config.matches config.ex_prefix config.ex_suffix y = true ->
       exists id',
         config.version config.ex_Atoi config.ex_prefix config.ex_suffix y =
           Some id' /\ id' < id).
Proof.
  assert (H : config.latest config.ex_home config.ex_ReadDir config.ex_Atoi
                            config.ex_prefix config.ex_suffix =
              config.Ok config.ex_latest) by (vm_compute; reflexivity).
  split; [exact H|].
  exact (@latest_picks_first_maximum config.ex_home config.ex_ReadDir
           config.ex_Atoi config.ex_prefix config.ex_suffix
           config.ex_latest H).
Defined.

Lemma latest_fails_iff_witness :
  config.ex_bad_ReadDir config.ex_home = Some config.ex_bad_files /\
  exists s,
    config.latest config.ex_home config.ex_bad_ReadDir config.ex_Atoi
                  config.ex_prefix config.ex_suffix =
    config.Err (config.ErrAtoi s).
Proof.
  split; [reflexivity|].
  destruct (@latest_fails_iff config.ex_home config.ex_bad_ReadDir
              config.ex_Atoi config.ex_prefix config.ex_suffix
              config.ex_bad_files eq_refl) as (_ & H2 & _).
  apply (proj2 H2).
  exists (List.nth 1 config.ex_bad_files String.EmptyString).
  split; [simpl; auto|]. split; vm_compute; reflexivity.
Defined.
